(** * nova.network.quantumv2.api: a shallow embedding

    The module drives a remote network service (quantum) through a client
    object.  Every method of [API] is embedded as a computation in a state
    and exception monad over a [World]: the remote service's records, the
    [API] object's own mutable fields, the process clock and the log of the
    remote calls issued so far.  Python exceptions are values of [exn];
    [try ... except] is [try_except]. *)

From stdpp Require Import base strings list gmap sorting.
From Stdlib Require Import ZArith.

(** ** Python truthiness *)

Class Truthy (A : Type) := truthy : A → bool.

#[global] Instance truthy_string : Truthy string :=
  λ s, bool_decide (s ≠ "").
#[global] Instance truthy_list {A} : Truthy (list A) :=
  λ l, match l with [] => false | _ => true end.
#[global] Instance truthy_Z : Truthy Z :=
  λ z, bool_decide (z ≠ 0%Z).
#[global] Instance truthy_bool : Truthy bool := λ b, b.
(** [None] is falsy; any other value has the truthiness of its type. *)
#[global] Instance truthy_option {A} `{Truthy A} : Truthy (option A) :=
  λ o, match o with None => false | Some a => truthy a end.

(** ** Records of the remote service *)

Record Network := {
  net_id : string;
  net_name : string;
  net_tenant_id : string;
  net_shared : bool;
  net_subnets : list string;
  (** absent unless the plugin implements the port-security extension *)
  net_port_security_enabled : option bool;
}.

Record FixedIp := {
  ip_address : string;
  subnet_id : string;
}.

Record Port := {
  port_id : string;
  port_network_id : string;
  port_tenant_id : string;
  port_device_id : option string;
  port_device_owner : string;
  port_mac_address : string;
  port_fixed_ips : list FixedIp;
  port_security_groups : list string;
  port_admin_state_up : bool;
  port_rxtx_factor : option string;
  port_binding_host_id : option string;
  port_binding_vif_type : option string;
}.

Record Subnet := {
  sn_id : string;
  sn_network_id : string;
  sn_cidr : string;
  sn_gateway_ip : option string;
  sn_dns_nameservers : list string;
}.

Record FloatingIp := {
  fip_id : string;
  fip_floating_ip_address : string;
  fip_floating_network_id : string;
  fip_tenant_id : string;
  fip_port_id : option string;
  fip_fixed_ip_address : option string;
}.

Record SecurityGroup := {
  sg_id : string;
  sg_name : string;
  sg_tenant_id : string;
}.

(** What the service will assign to the next port it creates. *)
Record Fresh := {
  fresh_id : string;
  fresh_mac : string;
  fresh_fixed_ips : list FixedIp;
}.

Record Extension := {
  ext_name : string;
  ext_alias : string;
}.

Record Remote := {
  networks : list Network;
  subnets : list Subnet;
  ports : list Port;
  floatingips : list FloatingIp;
  security_groups : list SecurityGroup;
  remote_extensions : list Extension;
  fresh : list Fresh;
}.

(** ** Request bodies and search options (the dicts handed to the client).
    A key that is absent from the dict is [None]; a key bound to Python's
    [None] is [Some None]. *)

Record FixedIpReq := {
  fr_ip_address : option string;
  fr_subnet_id : option string;
}.

Record PortReq := {
  rq_device_id : option (option string);
  rq_device_owner : option string;
  rq_rxtx_factor : option (option string);
  rq_binding_host_id : option (option string);
  rq_fixed_ips : option (list FixedIpReq);
  rq_network_id : option string;
  rq_admin_state_up : option bool;
  rq_tenant_id : option string;
  rq_security_groups : option (list string);
  rq_mac_address : option string;
}.

Definition empty_req : PortReq :=
  {| rq_device_id := None; rq_device_owner := None; rq_rxtx_factor := None;
     rq_binding_host_id := None; rq_fixed_ips := None;
     rq_network_id := None;
     rq_admin_state_up := None; rq_tenant_id := None;
     rq_security_groups := None; rq_mac_address := None |}.

Record NetSearch := {
  ns_tenant_id : option string;
  ns_shared : option bool;
  ns_id : option (list (option string));
}.

Record SubnetSearch := {
  ss_network_id : option string;
  ss_id : option (list string);
}.

Record PortSearch := {
  ps_tenant_id : option string;
  ps_device_id : option string;
  ps_device_owner : option string;
  ps_network_id : option string;
  (** the filter [fixed_ips='ip_address=<a>'] *)
  ps_fixed_ip : option string;
}.

Definition any_port : PortSearch :=
  {| ps_tenant_id := None; ps_device_id := None; ps_device_owner := None;
     ps_network_id := None; ps_fixed_ip := None |}.

Record FipSearch := {
  fs_floating_ip_address : option string;
  fs_fixed_ip_address : option string;
  fs_port_id : option string;
}.

(** ** Exceptions *)

Inductive exn :=
| InvalidInput
| PortNotUsable (port : string)
| PortNotFree
| PortNotFound (port : string)
| PortInUse (port : string)
| NetworkDuplicated (network : option string)
| NetworkNotFound (lost : list (option string))
| NoUniqueMatch (name : string)
| SecurityGroupNotFound (name : string)
| SecurityGroupCannotBeApplied
| FixedIpNotFoundForSpecificInstance (instance_uuid ip : string)
| FixedIpNotFoundForAddress (address : string)
| FloatingIpNotFoundForAddress (address : string)
| FloatingIpMultipleFoundForAddress (address : string)
| FloatingIpAssociated (address : string)
| QuantumClientException (status_code : nat)
| ValueError
| NameError.

#[global] Instance exn_eq_dec : EqDecision exn.
Proof. solve_decision. Defined.

(** ** The log of remote calls *)

Inductive Call :=
| ListNetworks (o : NetSearch)
| ListSubnets (o : SubnetSearch)
| ListPorts (o : PortSearch)
| ShowPort (id : string)
| CreatePort (body : PortReq)
| UpdatePort (id : string) (body : PortReq)
| DeletePort (id : string)
| ListSecurityGroups (tenant_id : string)
| ListExtensions
| ListFloatingips (o : FipSearch)
| UpdateFloatingip (id : string) (port : option string)
    (fixed_ip_address : option string)
| DeleteFloatingip (id : string).

Inductive Outcome :=
| Raised (e : exn)
| Returned
| ReturnedId (id : string).

Record Event := {
  ev_admin : bool;
  ev_call : Call;
  ev_outcome : Outcome;
}.

(** ** The [API] object and the world around it *)

Record API := {
  last_quantum_extension_sync : option Z;
  extensions : gmap string Extension;
}.

Record World := {
  remote : Remote;
  self : API;
  trace : list Event;
  (** [fault n = Some c]: the remote call number [n] fails with status [c] *)
  fault : nat → option nat;
  (** [clock n]: what the [n]-th reading of [time.time()] returns *)
  clock : nat → Z;
  readings : nat;
}.

Definition set_remote (r : Remote) (w : World) : World :=
  {| remote := r; self := self w; trace := trace w; fault := fault w;
     clock := clock w; readings := readings w |}.
Definition set_self (a : API) (w : World) : World :=
  {| remote := remote w; self := a; trace := trace w; fault := fault w;
     clock := clock w; readings := readings w |}.
Definition log (e : Event) (w : World) : World :=
  {| remote := remote w; self := self w; trace := trace w ++ [e];
     fault := fault w; clock := clock w; readings := readings w |}.
Definition tick (w : World) : World :=
  {| remote := remote w; self := self w; trace := trace w; fault := fault w;
     clock := clock w; readings := S (readings w) |}.

Definition set_ports (ps : list Port) (r : Remote) : Remote :=
  {| networks := networks r; subnets := subnets r; ports := ps;
     floatingips := floatingips r; security_groups := security_groups r;
     remote_extensions := remote_extensions r; fresh := fresh r |}.
Definition set_fresh (fs : list Fresh) (r : Remote) : Remote :=
  {| networks := networks r; subnets := subnets r; ports := ports r;
     floatingips := floatingips r; security_groups := security_groups r;
     remote_extensions := remote_extensions r; fresh := fs |}.
Definition set_floatingips (fs : list FloatingIp) (r : Remote) : Remote :=
  {| networks := networks r; subnets := subnets r; ports := ports r;
     floatingips := fs; security_groups := security_groups r;
     remote_extensions := remote_extensions r; fresh := fresh r |}.

(** ** The monad *)

Definition M (A : Type) : Type := World → (exn + A) * World.

#[global] Instance M_ret : MRet M := λ A a w, (inr a, w).
#[global] Instance M_bind : MBind M := λ A B f m w,
  match m w with
  | (inl e, w') => (inl e, w')
  | (inr a, w') => f a w'
  end.

Definition raise {A} (e : exn) : M A := λ w, (inl e, w).
Definition get_self : M API := λ w, (inr (self w), w).
Definition put_self (a : API) : M unit := λ w, (inr (), set_self a w).

(** [try: body except Exception: handler(e)] *)
Definition try_except {A} (body : M A) (handler : exn → M A) : M A := λ w,
  match body w with
  | (inl e, w') => handler e w'
  | r => r
  end.

(** [with excutils.save_and_reraise_exception(): cleanup]: the exception
    being handled is raised again once [cleanup] has run; an exception
    escaping [cleanup] itself replaces it. *)
Definition save_and_reraise_exception {A} (e : exn) (cleanup : M unit) : M A :=
  _ ← cleanup; raise e.

(** [for x in l: body x] *)
Fixpoint for_each {A} (l : list A) (body : A → M unit) : M unit :=
  match l with
  | [] => mret ()
  | x :: l' => _ ← body x; for_each l' body
  end.

(** A loop that threads its local variables through the iterations. *)
Fixpoint fold_each {A S} (l : list A) (s : S) (body : S → A → M S) : M S :=
  match l with
  | [] => mret s
  | x :: l' => s' ← body s x; fold_each l' s' body
  end.

(** A loop that collects one result per element. *)
Fixpoint map_each {A B} (l : list A) (body : A → M B) : M (list B) :=
  match l with
  | [] => mret []
  | x :: l' => y ← body x; ys ← map_each l' body; mret (y :: ys)
  end.

(** [time.time()] *)
Definition time_time : M Z := λ w, (inr (clock w (readings w)), tick w).

(** ** The remote service.

    quantum is reached only through its client; what follows is the
    contract of the client operations the module relies on: the list
    operations filter the service's records by the search options, show
    and update fail with status 404 on an unknown id, create assigns the
    next fresh id.  On top of that any call may fail with a transport or
    server error ([fault]).  A failed call leaves the service unchanged. *)

Definition optb {A} (f : A → bool) (o : option A) : bool :=
  match o with None => true | Some a => f a end.

Definition net_matches (o : NetSearch) (n : Network) : bool :=
  optb (λ t, bool_decide (net_tenant_id n = t)) (ns_tenant_id o)
  && optb (λ b, bool_decide (net_shared n = b)) (ns_shared o)
  && optb (λ ids, bool_decide (Some (net_id n) ∈ ids)) (ns_id o).

Definition subnet_matches (o : SubnetSearch) (s : Subnet) : bool :=
  optb (λ n, bool_decide (sn_network_id s = n)) (ss_network_id o)
  && optb (λ ids, bool_decide (sn_id s ∈ ids)) (ss_id o).

Definition has_address (a : string) (p : Port) : bool :=
  bool_decide (a ∈ ip_address <$> port_fixed_ips p).

Definition port_matches (o : PortSearch) (p : Port) : bool :=
  optb (λ t, bool_decide (port_tenant_id p = t)) (ps_tenant_id o)
  && optb (λ d, bool_decide (port_device_id p = Some d)) (ps_device_id o)
  && optb (λ d, bool_decide (port_device_owner p = d)) (ps_device_owner o)
  && optb (λ n, bool_decide (port_network_id p = n)) (ps_network_id o)
  && optb (λ a, has_address a p) (ps_fixed_ip o).

Definition fip_matches (o : FipSearch) (f : FloatingIp) : bool :=
  optb (λ a, bool_decide (fip_floating_ip_address f = a))
       (fs_floating_ip_address o)
  && optb (λ a, bool_decide (fip_fixed_ip_address f = Some a))
          (fs_fixed_ip_address o)
  && optb (λ p, bool_decide (fip_port_id f = Some p)) (fs_port_id o).

Definition resolve_fixed_ip (dflt : FixedIp) (r : FixedIpReq) : FixedIp :=
  {| ip_address := default (ip_address dflt) (fr_ip_address r);
     subnet_id := default (subnet_id dflt) (fr_subnet_id r) |}.

(** The port the service stores for a create request. *)
Definition new_port (f : Fresh) (b : PortReq) : Port :=
  {| port_id := fresh_id f;
     port_network_id := default "" (rq_network_id b);
     port_tenant_id := default "" (rq_tenant_id b);
     port_device_id := default None (rq_device_id b);
     port_device_owner := default "" (rq_device_owner b);
     port_mac_address := default (fresh_mac f) (rq_mac_address b);
     port_fixed_ips :=
       match rq_fixed_ips b with
       | Some rs =>
           resolve_fixed_ip
             (default {| ip_address := ""; subnet_id := "" |}
                      (head (fresh_fixed_ips f))) <$> rs
       | None => fresh_fixed_ips f
       end;
     port_security_groups := default [] (rq_security_groups b);
     port_admin_state_up := default true (rq_admin_state_up b);
     port_rxtx_factor := default None (rq_rxtx_factor b);
     port_binding_host_id := default None (rq_binding_host_id b);
     port_binding_vif_type := None |}.

(** The keys present in an update body replace the port's fields. *)
Definition apply_update (b : PortReq) (p : Port) : Port :=
  {| port_id := port_id p;
     port_network_id := default (port_network_id p) (rq_network_id b);
     port_tenant_id := default (port_tenant_id p) (rq_tenant_id b);
     port_device_id := default (port_device_id p) (rq_device_id b);
     port_device_owner := default (port_device_owner p) (rq_device_owner b);
     port_mac_address := default (port_mac_address p) (rq_mac_address b);
     port_fixed_ips :=
       match rq_fixed_ips b with
       | Some rs =>
           resolve_fixed_ip {| ip_address := ""; subnet_id := "" |} <$> rs
       | None => port_fixed_ips p
       end;
     port_security_groups :=
       default (port_security_groups p) (rq_security_groups b);
     port_admin_state_up :=
       default (port_admin_state_up p) (rq_admin_state_up b);
     port_rxtx_factor := default (port_rxtx_factor p) (rq_rxtx_factor b);
     port_binding_host_id :=
       default (port_binding_host_id p) (rq_binding_host_id b);
     port_binding_vif_type := port_binding_vif_type p |}.

Definition has_id (id : string) (p : Port) : bool :=
  bool_decide (port_id p = id).

Definition remote_update_port (id : string) (b : PortReq) (r : Remote)
  : exn + unit * Remote :=
  if existsb (has_id id) (ports r) then
    inr ((), set_ports
               ((λ p, if has_id id p then apply_update b p else p)
                  <$> ports r) r)
  else inl (QuantumClientException 404).

Definition remote_delete_port (id : string) (r : Remote)
  : exn + unit * Remote :=
  if existsb (has_id id) (ports r) then
    inr ((), set_ports (List.filter (λ p, negb (has_id id p)) (ports r)) r)
  else inl (QuantumClientException 404).

Definition remote_create_port (b : PortReq) (r : Remote)
  : exn + Port * Remote :=
  match fresh r with
  | f :: fs =>
      let p := new_port f b in
      inr (p, set_fresh fs (set_ports (ports r ++ [p]) r))
  | [] => inl (QuantumClientException 409)
  end.

Definition remote_show_port (id : string) (r : Remote) : exn + Port * Remote :=
  match List.find (has_id id) (ports r) with
  | Some p => inr (p, r)
  | None => inl (QuantumClientException 404)
  end.

Definition fip_has_id (id : string) (f : FloatingIp) : bool :=
  bool_decide (fip_id f = id).

Definition set_fip_port (port : option string) (fixed : option string)
    (f : FloatingIp) : FloatingIp :=
  {| fip_id := fip_id f;
     fip_floating_ip_address := fip_floating_ip_address f;
     fip_floating_network_id := fip_floating_network_id f;
     fip_tenant_id := fip_tenant_id f;
     fip_port_id := port;
     fip_fixed_ip_address := fixed |}.

Definition remote_update_floatingip (id : string) (port fixed : option string)
    (r : Remote) : exn + unit * Remote :=
  if existsb (fip_has_id id) (floatingips r) then
    inr ((), set_floatingips
               ((λ f, if fip_has_id id f then set_fip_port port fixed f else f)
                  <$> floatingips r) r)
  else inl (QuantumClientException 404).

Definition remote_delete_floatingip (id : string) (r : Remote)
  : exn + unit * Remote :=
  if existsb (fip_has_id id) (floatingips r) then
    inr ((), set_floatingips
               (List.filter (λ f, negb (fip_has_id id f)) (floatingips r)) r)
  else inl (QuantumClientException 404).

(** ** The client *)

Record Client := { admin : bool }.

(** [quantumv2.get_client(context, admin=...)] *)
Definition get_client (is_admin : bool) : Client := {| admin := is_admin |}.

Definition call {A} (client : Client) (c : Call) (out : A → Outcome)
    (op : Remote → exn + A * Remote) : M A := λ w,
  let ev o := {| ev_admin := admin client; ev_call := c; ev_outcome := o |} in
  match fault w (length (trace w)) with
  | Some code =>
      (inl (QuantumClientException code),
       log (ev (Raised (QuantumClientException code))) w)
  | None =>
      match op (remote w) with
      | inl e => (inl e, log (ev (Raised e)) w)
      | inr (a, r') => (inr a, log (ev (out a)) (set_remote r' w))
      end
  end.

Definition query {A} (f : Remote → A) (r : Remote) : exn + A * Remote :=
  inr (f r, r).

Definition list_networks (q : Client) (o : NetSearch) : M (list Network) :=
  call q (ListNetworks o) (λ _, Returned)
       (query (λ r, List.filter (net_matches o) (networks r))).
Definition list_subnets (q : Client) (o : SubnetSearch) : M (list Subnet) :=
  call q (ListSubnets o) (λ _, Returned)
       (query (λ r, List.filter (subnet_matches o) (subnets r))).
Definition list_ports (q : Client) (o : PortSearch) : M (list Port) :=
  call q (ListPorts o) (λ _, Returned)
       (query (λ r, List.filter (port_matches o) (ports r))).
Definition show_port (q : Client) (id : string) : M Port :=
  call q (ShowPort id) (λ _, Returned) (remote_show_port id).
Definition create_port (q : Client) (b : PortReq) : M Port :=
  call q (CreatePort b) (λ p, ReturnedId (port_id p)) (remote_create_port b).
Definition update_port (q : Client) (id : string) (b : PortReq) : M unit :=
  call q (UpdatePort id b) (λ _, Returned) (remote_update_port id b).
Definition delete_port (q : Client) (id : string) : M unit :=
  call q (DeletePort id) (λ _, Returned) (remote_delete_port id).
Definition list_security_groups (q : Client) (tenant_id : string)
  : M (list SecurityGroup) :=
  call q (ListSecurityGroups tenant_id) (λ _, Returned)
       (query (λ r, List.filter (λ g, bool_decide (sg_tenant_id g = tenant_id))
                                (security_groups r))).
Definition list_extensions (q : Client) : M (list Extension) :=
  call q ListExtensions (λ _, Returned) (query remote_extensions).
Definition list_floatingips (q : Client) (o : FipSearch)
  : M (list FloatingIp) :=
  call q (ListFloatingips o) (λ _, Returned)
       (query (λ r, List.filter (fip_matches o) (floatingips r))).
Definition update_floatingip (q : Client) (id : string)
    (port fixed : option string) : M unit :=
  call q (UpdateFloatingip id port fixed) (λ _, Returned)
       (remote_update_floatingip id port fixed).
Definition delete_floatingip (q : Client) (id : string) : M unit :=
  call q (DeleteFloatingip id) (λ _, Returned) (remote_delete_floatingip id).

(** Computations that raise but touch nothing. *)
#[global] Instance result_ret : MRet (sum exn) := λ A a, inr a.
#[global] Instance result_bind : MBind (sum exn) := λ A B f m,
  match m with
  | inl e => inl e
  | inr a => f a
  end.

Definition lift {A} (r : exn + A) : M A := λ w, (r, w).

(** ** [_ensure_requested_network_ordering] *)

Section ordering.
Context {A K : Type} `{EqDecision K}.

(** [preferred.index(x)]: the position of the first occurrence, [None]
    where Python raises ValueError. *)
Fixpoint list_index (x : K) (preferred : list K) : option nat :=
  match preferred with
  | [] => None
  | y :: l => if decide (y = x) then Some 0 else S <$> list_index x l
  end.

(** [list.sort(key=...)] computes the key of every element once and then
    sorts stably on the keys; elements of equal key keep their order. *)
Fixpoint insert_keyed (kx : nat * A) (l : list (nat * A)) : list (nat * A) :=
  match l with
  | [] => [kx]
  | ky :: l' =>
      if decide (kx.1 ≤ ky.1) then kx :: ky :: l'
      else ky :: insert_keyed kx l'
  end.

Definition sort_keyed (l : list (nat * A)) : list (nat * A) :=
  foldr insert_keyed [] l.

Definition keyed (accessor : A → K) (preferred : list K) (i : A)
  : option (nat * A) :=
  k ← list_index (accessor i) preferred; Some (k, i).

(** The list is sorted in place; the result is its new contents. *)
Definition _ensure_requested_network_ordering (accessor : A → K)
    (unordered : list A) (preferred : list K) : exn + list A :=
  if truthy preferred then
    match mapM (keyed accessor preferred) unordered with
    | Some l => inr (snd <$> sort_keyed l)
    | None => inl ValueError
    end
  else inr unordered.

End ordering.

(** ** Configuration and imported constants *)

Record Config := {
  quantum_ovs_bridge : string;
  quantum_extension_sync_interval : Z;
  flat_injected : bool;
}.

(** Names the module imports from [nova.network.quantumv2.constants] and
    [nova.network.model]. *)
Record Imports := {
  PORTBINDING_EXT : string;
  VIF_TYPE_OVS : string;
  VIF_TYPE_BRIDGE : string;
  NIC_NAME_LEN : nat;
  (** [FixedIP.is_in_subnet]: address, then cidr *)
  is_in_subnet : string → string → bool;
}.

(** ** The network-info model *)

Record FixedIPModel := {
  fx_address : string;
  fx_floating_ips : list string;
}.

Record SubnetModel := {
  sm_cidr : string;
  sm_gateway : option string;
  sm_dhcp_server : option string;
  sm_dns : list string;
  sm_ips : list FixedIPModel;
}.

Record NetworkModel := {
  nm_id : string;
  nm_bridge : option string;
  nm_injected : bool;
  nm_label : string;
  nm_tenant_id : string;
  nm_subnets : list SubnetModel;
  nm_should_create_bridge : option bool;
}.

Record VIF := {
  vif_id : string;
  vif_address : string;
  vif_network : NetworkModel;
  vif_type : option string;
  vif_ovs_interfaceid : option string;
  vif_devname : option string;
}.

Record Instance := {
  uuid : string;
  display_name : string;
  project_id : string;
  availability_zone : string;
  host : option string;
  (** [instance_types.extract_instance_type(instance).get('rxtx_factor')] *)
  rxtx_factor : option string;
  (** [instance['info_cache']['network_info']], already deserialised *)
  info_cache_network_info : list VIF;
}.

Record Context := {
  ctx_project_id : string;
}.

Definition zone_of (instance : Instance) : string :=
  "compute:" +:+ availability_zone instance.

Section api.
Variable CONF : Config.
Variable imports : Imports.

(** ** [API._get_available_networks] *)

Definition _get_available_networks (project : string)
    (net_ids : list (option string)) : M (list Network) :=
  let quantum := get_client false in
  let search_opts :=
    {| ns_tenant_id := Some project; ns_shared := Some false;
       ns_id := if truthy net_ids then Some net_ids else None |} in
  nets ← list_networks quantum search_opts;
  let search_opts :=
    {| ns_tenant_id := None; ns_shared := Some true;
       ns_id := if truthy net_ids then Some net_ids else None |} in
  shared ← list_networks quantum search_opts;
  let nets := nets ++ shared in
  lift (_ensure_requested_network_ordering (λ x, Some (net_id x)) nets net_ids).

(** ** The extension cache *)

Definition _refresh_quantum_extensions_cache : M unit :=
  a ← get_self;
  stale ←
    (if negb (truthy (last_quantum_extension_sync a)) then mret true
     else
       now ← time_time;
       mret (bool_decide
               (quantum_extension_sync_interval CONF
                ≤ now - default 0 (last_quantum_extension_sync a))%Z));
  if (stale : bool) then
    let quantum := get_client true in
    extensions_list ← list_extensions quantum;
    now ← time_time;
    put_self
      {| last_quantum_extension_sync := Some now;
         extensions :=
           list_to_map (reverse ((λ ext, (ext_name ext, ext))
                                   <$> extensions_list)) |}
  else mret ().

Definition _has_port_binding_extension (refresh_cache : bool) : M bool :=
  _ ← (if refresh_cache then _refresh_quantum_extensions_cache else mret ());
  a ← get_self;
  mret (bool_decide (is_Some (extensions a !! PORTBINDING_EXT imports))).

Definition _populate_quantum_extension_values (instance : Instance)
    (port_req_body : PortReq) : M PortReq :=
  _ ← _refresh_quantum_extensions_cache;
  a ← get_self;
  let port_req_body :=
    if bool_decide (is_Some (extensions a !! "nvp-qos")) then
      {| rq_device_id := rq_device_id port_req_body;
         rq_device_owner := rq_device_owner port_req_body;
         rq_rxtx_factor := Some (rxtx_factor instance);
         rq_binding_host_id := rq_binding_host_id port_req_body;
         rq_fixed_ips := rq_fixed_ips port_req_body;
         rq_network_id := rq_network_id port_req_body;
         rq_admin_state_up := rq_admin_state_up port_req_body;
         rq_tenant_id := rq_tenant_id port_req_body;
         rq_security_groups := rq_security_groups port_req_body;
         rq_mac_address := rq_mac_address port_req_body |}
    else port_req_body in
  binding ← _has_port_binding_extension false;
  mret (if (binding : bool) then
          {| rq_device_id := rq_device_id port_req_body;
             rq_device_owner := rq_device_owner port_req_body;
             rq_rxtx_factor := rq_rxtx_factor port_req_body;
             rq_binding_host_id := Some (host instance);
             rq_fixed_ips := rq_fixed_ips port_req_body;
             rq_network_id := rq_network_id port_req_body;
             rq_admin_state_up := rq_admin_state_up port_req_body;
             rq_tenant_id := rq_tenant_id port_req_body;
             rq_security_groups := rq_security_groups port_req_body;
             rq_mac_address := rq_mac_address port_req_body |}
        else port_req_body).

(** ** [API.allocate_for_instance] *)

(** One entry of [requested_networks]: network id, fixed ip, port id. *)
Definition requested_network : Type :=
  option string * option string * option string.

(** The dicts and lists the first loop fills in. *)
Record Requested := {
  rq_ports : gmap string Port;
  rq_fixed : gmap string string;
  rq_net_ids : list (option string);
  rq_available_macs : option (list string);
}.

(** Body of [for network_id, fixed_ip, port_id in requested_networks]. *)
Definition gather_requested (quantum : Client)
    (hypervisor_macs : option (list string))
    (acc : Requested) (rn : requested_network) : M Requested :=
  let '(network_id, fixed_ip, port) := rn in
  '(network_id, ports, fixed_ips, available_macs) ←
    (if truthy port then
       let pid := default "" port in
       port ← show_port quantum pid;
       available_macs ←
         match hypervisor_macs with
         | Some macs =>
             if bool_decide (port_mac_address port ∉ macs) then
               raise (PortNotUsable pid)
             else
               mret (List.filter
                       (λ m, bool_decide (m ≠ port_mac_address port))
                       <$> rq_available_macs acc)
         | None => mret (rq_available_macs acc)
         end;
       mret (Some (port_network_id port),
             <[port_network_id port := port]> (rq_ports acc),
             rq_fixed acc, available_macs)
     else if truthy fixed_ip && truthy network_id then
       mret (network_id, rq_ports acc,
             <[default "" network_id := default "" fixed_ip]> (rq_fixed acc),
             rq_available_macs acc)
     else mret (network_id, rq_ports acc, rq_fixed acc,
                rq_available_macs acc));
  mret {| rq_ports := ports; rq_fixed := fixed_ips;
          rq_net_ids :=
            if truthy network_id then rq_net_ids acc ++ [network_id]
            else rq_net_ids acc;
          rq_available_macs := available_macs |}.

(** Body of [for user_security_group in user_security_groups]. *)
Fixpoint scan_security_groups (security_group : string)
    (user_security_groups : list SecurityGroup)
    (name_match uuid_match : option string)
  : exn + option string * option string :=
  match user_security_groups with
  | [] => inr (name_match, uuid_match)
  | user_security_group :: rest =>
      name_match ←
        (if bool_decide (sg_name user_security_group = security_group) then
           if truthy name_match then inl (NoUniqueMatch security_group)
           else inr (Some (sg_id user_security_group))
         else inr name_match);
      let uuid_match :=
        if bool_decide (sg_id user_security_group = security_group)
        then Some (sg_id user_security_group) else uuid_match in
      scan_security_groups security_group rest name_match uuid_match
  end.

(** Body of [for security_group in security_groups]. *)
Definition resolve_security_group (user_security_groups : list SecurityGroup)
    (security_group_ids : list string) (security_group : string)
  : exn + list string :=
  '(name_match, uuid_match) ←
    scan_security_groups security_group user_security_groups None None;
  if negb (truthy name_match) && negb (truthy uuid_match) then
    inl (SecurityGroupNotFound security_group)
  else if truthy name_match then
    inr (security_group_ids ++ [default "" name_match])
  else if truthy uuid_match then
    inr (security_group_ids ++ [default "" uuid_match])
  else inr security_group_ids.

Fixpoint resolve_security_groups (user_security_groups : list SecurityGroup)
    (security_group_ids : list string) (security_groups : list string)
  : exn + list string :=
  match security_groups with
  | [] => inr security_group_ids
  | security_group :: rest =>
      ids ← resolve_security_group user_security_groups security_group_ids
              security_group;
      resolve_security_groups user_security_groups ids rest
  end.

(** The lists and the MAC pool the per-network loop updates. *)
Record Attempt := {
  touched_port_ids : list string;
  created_port_ids : list string;
  available_macs : option (list string);
}.

(** The [try] block of one iteration. *)
Definition allocate_port (quantum : Client) (instance : Instance)
    (ports : gmap string Port) (fixed_ips : gmap string string)
    (security_group_ids : list string) (network : Network) (st : Attempt)
  : M Attempt :=
  let network_id := net_id network in
  let zone := zone_of instance in
  let port_req_body :=
    {| rq_device_id := Some (Some (uuid instance));
       rq_device_owner := Some zone;
       rq_rxtx_factor := None; rq_binding_host_id := None;
       rq_fixed_ips := None; rq_network_id := None;
       rq_admin_state_up := None; rq_tenant_id := None;
       rq_security_groups := None; rq_mac_address := None |} in
  let port := ports !! network_id in
  port_req_body ← _populate_quantum_extension_values instance port_req_body;
  binding ← _has_port_binding_extension false;
  let port_client :=
    if negb binding then quantum else get_client true in
  match port with
  | Some port =>
      _ ← update_port port_client (port_id port) port_req_body;
      mret {| touched_port_ids := touched_port_ids st ++ [port_id port];
              created_port_ids := created_port_ids st;
              available_macs := available_macs st |}
  | None =>
      let fixed_ip := fixed_ips !! network_id in
      '(mac_address, macs) ←
        match available_macs st with
        | Some [] => raise PortNotFree
        | Some (mac_address :: rest) => mret (Some mac_address, Some rest)
        | None => mret (None, None)
        end;
      let port_req_body :=
        {| rq_device_id := rq_device_id port_req_body;
           rq_device_owner := rq_device_owner port_req_body;
           rq_rxtx_factor := rq_rxtx_factor port_req_body;
           rq_binding_host_id := rq_binding_host_id port_req_body;
           rq_fixed_ips :=
             if truthy fixed_ip then
               Some [ {| fr_ip_address := fixed_ip; fr_subnet_id := None |} ]
             else None;
           rq_network_id := Some network_id;
           rq_admin_state_up := Some true;
           rq_tenant_id := Some (project_id instance);
           rq_security_groups :=
             if truthy security_group_ids then Some security_group_ids
             else None;
           rq_mac_address := mac_address |} in
      created ← create_port port_client port_req_body;
      mret {| touched_port_ids := touched_port_ids st;
              created_port_ids := created_port_ids st ++ [port_id created];
              available_macs := macs |}
  end.

Definition unbind_req (binding : bool) : PortReq :=
  {| rq_device_id := Some None; rq_device_owner := None;
     rq_rxtx_factor := None;
     rq_binding_host_id := if binding then Some None else None;
     rq_fixed_ips := None; rq_network_id := None;
     rq_admin_state_up := None; rq_tenant_id := None;
     rq_security_groups := None; rq_mac_address := None |}.

(** Body of [for port_id in touched_port_ids] in the handler. *)
Definition unbind_touched (quantum : Client) (id : string) : M unit :=
  try_except
    (binding ← _has_port_binding_extension false;
     let port_req_body := unbind_req binding in
     let port_client := if (binding : bool) then get_client true else quantum in
     update_port port_client id port_req_body)
    (λ _, mret ()).

(** Body of [for port_id in created_port_ids] in the handler. *)
Definition delete_created (quantum : Client) (id : string) : M unit :=
  try_except (delete_port quantum id) (λ _, mret ()).

(** The [except Exception] handler of one iteration. *)
Definition compensate (quantum : Client) (st : Attempt) : M unit :=
  _ ← for_each (touched_port_ids st) (unbind_touched quantum);
  for_each (created_port_ids st) (delete_created quantum).

(** The test at the head of each iteration. *)
Definition cannot_apply (security_groups : list string) (network : Network)
  : bool :=
  truthy security_groups
  && negb (truthy (net_subnets network)
           && truthy (default true (net_port_security_enabled network))).

(** [for network in nets] *)
Fixpoint allocate_ports (quantum : Client) (instance : Instance)
    (ports : gmap string Port) (fixed_ips : gmap string string)
    (security_groups security_group_ids : list string)
    (nets : list Network) (st : Attempt) : M Attempt :=
  match nets with
  | [] => mret st
  | network :: rest =>
      if cannot_apply security_groups network then
        raise SecurityGroupCannotBeApplied
      else
        st' ← try_except
                (allocate_port quantum instance ports fixed_ips
                   security_group_ids network st)
                (λ e, save_and_reraise_exception e (compensate quantum st));
        allocate_ports quantum instance ports fixed_ips security_groups
          security_group_ids rest st'
  end.

(** ** [API._build_network_info_model] *)

Definition _get_floating_ips_by_fixed_and_port (client : Client)
    (fixed_ip port : string) : M (list FloatingIp) :=
  try_except
    (list_floatingips client
       {| fs_floating_ip_address := None;
          fs_fixed_ip_address := Some fixed_ip; fs_port_id := Some port |})
    (λ e, match e with
          | QuantumClientException status_code =>
              if bool_decide (status_code = 404) then mret [] else raise e
          | _ => raise e
          end).

(** The dhcp loop: the inner [break] leaves only the scan of one port, so
    the last dhcp port with an address on the subnet decides. *)
Definition dhcp_server_of (subnet : Subnet) (dhcp_ports : list Port)
  : option string :=
  foldl (λ found p,
           match List.find (λ ip_pair,
                              bool_decide (subnet_id ip_pair = sn_id subnet))
                           (port_fixed_ips p) with
           | Some ip_pair => Some (ip_address ip_pair)
           | None => found
           end) None dhcp_ports.

Definition _get_subnets_from_port (port : Port) : M (list SubnetModel) :=
  let fixed_ips := port_fixed_ips port in
  if negb (truthy fixed_ips) then mret []
  else
    ipam_subnets ← list_subnets (get_client false)
      {| ss_network_id := None; ss_id := Some (subnet_id <$> fixed_ips) |};
    map_each ipam_subnets (λ subnet,
      dhcp_ports ← list_ports (get_client false)
        {| ps_tenant_id := None; ps_device_id := None;
           ps_device_owner := Some "network:dhcp";
           ps_network_id := Some (sn_network_id subnet);
           ps_fixed_ip := None |};
      mret {| sm_cidr := sn_cidr subnet;
              sm_gateway := sn_gateway_ip subnet;
              sm_dhcp_server := dhcp_server_of subnet dhcp_ports;
              sm_dns := sn_dns_nameservers subnet;
              sm_ips := [] |}).

(** [for net in networks: if port['network_id'] == net['id']: ...; break]
    with the two names the loop binds, which outlive it. *)
Fixpoint find_network (port : Port) (networks : list Network)
    (network_name : option string) (net : option Network)
  : option string * option Network :=
  match networks with
  | [] => (network_name, net)
  | n :: rest =>
      if bool_decide (port_network_id port = net_id n)
      then (Some (net_name n), Some n)
      else find_network port rest network_name (Some n)
  end.

(** Body of [for port in ports]: the record appended to [nw_info] and the
    loop's bindings of [network_name] and [net]. *)
Definition build_vif (client : Client) (networks : list Network)
    (bound : option string * option Network) (port : Port)
  : M (VIF * (option string * option Network)) :=
  let '(network_name, net) := find_network port networks bound.1 bound.2 in
  network_IPs ← map_each (port_fixed_ips port) (λ fixed_ip,
    floats ← _get_floating_ips_by_fixed_and_port client
               (ip_address fixed_ip) (port_id port);
    mret {| fx_address := ip_address fixed_ip;
            fx_floating_ips := fip_floating_ip_address <$> floats |});
  subnets ← _get_subnets_from_port port;
  let subnets :=
    (λ subnet,
       {| sm_cidr := sm_cidr subnet; sm_gateway := sm_gateway subnet;
          sm_dhcp_server := sm_dhcp_server subnet; sm_dns := sm_dns subnet;
          sm_ips := List.filter
                      (λ fixed_ip, is_in_subnet imports (fx_address fixed_ip)
                                                (sm_cidr subnet))
                      network_IPs |}) <$> subnets in
  let vif_type := port_binding_vif_type port in
  let '(bridge, ovs_interfaceid, should_create_bridge) :=
    if bool_decide (vif_type = Some (VIF_TYPE_OVS imports)) then
      (Some (quantum_ovs_bridge CONF), Some (port_id port), None)
    else if bool_decide (vif_type = Some (VIF_TYPE_BRIDGE imports)) then
      (Some ("brq" +:+ port_network_id port), None, Some true)
    else (None, None, None) in
  let bridge := String.substring 0 (NIC_NAME_LEN imports) <$> bridge in
  let devname :=
    String.substring 0 (NIC_NAME_LEN imports) ("tap" +:+ port_id port) in
  match network_name, net with
  | Some label, Some n =>
      mret ({| vif_id := port_id port;
               vif_address := port_mac_address port;
               vif_network :=
                 {| nm_id := port_network_id port;
                    nm_bridge := bridge;
                    nm_injected := flat_injected CONF;
                    nm_label := label;
                    nm_tenant_id := net_tenant_id n;
                    nm_subnets := subnets;
                    nm_should_create_bridge := should_create_bridge |};
               vif_type := vif_type;
               vif_ovs_interfaceid := ovs_interfaceid;
               vif_devname := Some devname |},
            (network_name, net))
  | _, _ => raise NameError
  end.

Fixpoint build_vifs (client : Client) (networks : list Network)
    (bound : option string * option Network) (ports : list Port)
  : M (list VIF) :=
  match ports with
  | [] => mret []
  | port :: rest =>
      '(vif, bound) ← build_vif client networks bound port;
      vifs ← build_vifs client networks bound rest;
      mret (vif :: vifs)
  end.

Definition _build_network_info_model (instance : Instance)
    (networks : option (list Network)) : M (list VIF) :=
  let search_opts :=
    {| ps_tenant_id := Some (project_id instance);
       ps_device_id := Some (uuid instance);
       ps_device_owner := None; ps_network_id := None;
       ps_fixed_ip := None |} in
  let client := get_client true in
  ports ← list_ports client search_opts;
  '(nw_info, net_ids, networks) ←
    match networks with
    | None =>
        (* the conductor's copy of the instance's cached snapshot *)
        let network_cache := info_cache_network_info instance in
        let net_ids := (λ iface, nm_id (vif_network iface)) <$> network_cache in
        networks ← _get_available_networks (project_id instance) [];
        mret ([], net_ids, networks)
    | Some networks =>
        let ifaces := info_cache_network_info instance in
        let nw_info :=
          (λ iface,
             {| vif_id := vif_id iface; vif_address := vif_address iface;
                vif_network := vif_network iface; vif_type := vif_type iface;
                vif_ovs_interfaceid := vif_ovs_interfaceid iface;
                vif_devname := vif_devname iface |}) <$> ifaces in
        mret (nw_info, net_id <$> networks, networks)
    end;
  let ports :=
    List.filter (λ port, bool_decide (port_network_id port ∈ net_ids)) ports in
  ports ← lift (_ensure_requested_network_ordering port_network_id ports
                  net_ids);
  vifs ← build_vifs client networks (None, None) ports;
  mret (nw_info ++ vifs).

(** [NetworkInfo.hydrate] of a NetworkInfo is the same records. *)
Definition _get_instance_nw_info (instance : Instance)
    (networks : option (list Network)) : M (list VIF) :=
  _build_network_info_model instance networks.

(** The [refresh_cache] decorator hands the result to the instance store,
    which is not part of this module. *)
Definition get_instance_nw_info (instance : Instance)
    (networks : option (list Network)) : M (list VIF) :=
  _get_instance_nw_info instance networks.

(** The conductor's security-group notifications reach no remote record. *)
Definition trigger_security_group_members_refresh (instance : Instance)
  : M unit := mret ().
Definition trigger_instance_add_security_group_refresh (instance : Instance)
  : M unit := mret ().

(** The part of [allocate_for_instance] that precedes the per-network
    loop: the requested entries are read, the networks selected and the
    security groups resolved. *)
Definition resolve_request (instance : Instance)
    (macs : option (list string))
    (requested_networks : list requested_network)
    (security_groups : list string)
  : M (Requested * list Network * list string) :=
  let hypervisor_macs := macs in
  let available_macs := remove_dups <$> hypervisor_macs in
  let quantum := get_client false in
  if negb (truthy (project_id instance)) then raise InvalidInput
  else
    rq ← fold_each requested_networks
           {| rq_ports := ∅; rq_fixed := ∅; rq_net_ids := [];
              rq_available_macs := available_macs |}
           (gather_requested quantum hypervisor_macs);
    nets ← _get_available_networks (project_id instance) (rq_net_ids rq);
    user_security_groups ←
      (if truthy security_groups
       then list_security_groups quantum (project_id instance)
       else mret []);
    security_group_ids ←
      lift (resolve_security_groups user_security_groups [] security_groups);
    mret (rq, nets, security_group_ids).

(** [touched_port_ids = []; created_port_ids = []], and the MAC pool left by
    the first loop. *)
Definition first_attempt (rq : Requested) : Attempt :=
  {| touched_port_ids := []; created_port_ids := [];
     available_macs := rq_available_macs rq |}.

Definition allocate_for_instance (instance : Instance)
    (macs : option (list string))
    (requested_networks : list requested_network)
    (security_groups : list string) : M (list VIF) :=
  let quantum := get_client false in
  '(rq, nets, security_group_ids) ←
    resolve_request instance macs requested_networks security_groups;
  st ← allocate_ports quantum instance (rq_ports rq) (rq_fixed rq)
         security_groups security_group_ids nets (first_attempt rq);
  _ ← trigger_security_group_members_refresh instance;
  _ ← trigger_instance_add_security_group_refresh instance;
  nw_info ← get_instance_nw_info instance (Some nets);
  mret (List.filter
          (λ port, bool_decide
                     (vif_id port
                      ∈ created_port_ids st ++ touched_port_ids st))
          nw_info).

(** ** [API.validate_networks] *)

(** Body of [for (net_id, _i, port_id) in requested_networks]. *)
Definition validate_requested (acc : list (option string))
    (rn : requested_network) : M (list (option string)) :=
  let '(network_id, _, port) := rn in
  network_id ←
    (if truthy port then
       let pid := default "" port in
       (* a port the client finds is a non-empty dict *)
       port ← show_port (get_client false) pid;
       if truthy (port_device_id port) then raise (PortInUse pid)
       else mret (Some (port_network_id port))
     else mret network_id);
  if bool_decide (network_id ∈ acc) then raise (NetworkDuplicated network_id)
  else mret (acc ++ [network_id]).

Definition validate_networks (context : Context)
    (requested_networks : list requested_network) : M unit :=
  if negb (truthy requested_networks) then mret ()
  else
    net_ids ← fold_each requested_networks [] validate_requested;
    nets ← _get_available_networks (ctx_project_id context) net_ids;
    if bool_decide (length nets ≠ length net_ids) then
      let returned := (λ net, Some (net_id net)) <$> nets in
      let lost :=
        List.filter (λ i, bool_decide (i ∉ returned)) (remove_dups net_ids) in
      raise (NetworkNotFound lost)
    else mret ().

(** ** [API.remove_fixed_ip_from_instance] *)

Definition remove_fixed_ip_from_instance (instance : Instance)
    (address : string) : M unit :=
  let zone := zone_of instance in
  let search_opts :=
    {| ps_tenant_id := None; ps_device_id := Some (uuid instance);
       ps_device_owner := Some zone; ps_network_id := None;
       ps_fixed_ip := Some address |} in
  ports ← list_ports (get_client false) search_opts;
  match ports with
  | p :: _ =>
      let fixed_ips := port_fixed_ips p in
      let new_fixed_ips :=
        List.filter (λ fixed_ip, bool_decide (ip_address fixed_ip ≠ address))
                    fixed_ips in
      let port_req_body :=
        {| rq_device_id := None; rq_device_owner := None;
           rq_rxtx_factor := None; rq_binding_host_id := None;
           rq_fixed_ips :=
             Some ((λ f, {| fr_ip_address := Some (ip_address f);
                            fr_subnet_id := Some (subnet_id f) |})
                     <$> new_fixed_ips);
           rq_network_id := None; rq_admin_state_up := None;
           rq_tenant_id := None; rq_security_groups := None;
           rq_mac_address := None |} in
      (* the [return] sits after the try statement, in the first iteration *)
      try_except (update_port (get_client false) (port_id p) port_req_body)
                 (λ ex, mret ())
  | [] =>
      raise (FixedIpNotFoundForSpecificInstance (uuid instance) address)
  end.

(** ** Floating ips *)

(** [for p in ports: for ip in p['fixed_ips']: ...; break]: the [break]
    ends the scan of one port only. *)
Definition scan_ports_for_address (address : string) (ports : list Port)
  : option string :=
  foldl (λ found p,
           if existsb (λ ip, bool_decide (ip_address ip = address))
                      (port_fixed_ips p)
           then Some (port_id p) else found) None ports.

Definition _get_port_id_by_fixed_address (client : Client)
    (instance : Instance) (address : string) : M string :=
  let zone := zone_of instance in
  let search_opts :=
    {| ps_tenant_id := None; ps_device_id := Some (uuid instance);
       ps_device_owner := Some zone; ps_network_id := None;
       ps_fixed_ip := None |} in
  ports ← list_ports client search_opts;
  let found := scan_ports_for_address address ports in
  if negb (truthy found) then raise (FixedIpNotFoundForAddress address)
  else mret (default "" found).

Definition _get_floating_ip_by_address (client : Client) (address : string)
  : M FloatingIp :=
  fips ← list_floatingips client
    {| fs_floating_ip_address := Some address; fs_fixed_ip_address := None;
       fs_port_id := None |};
  match fips with
  | [] => raise (FloatingIpNotFoundForAddress address)
  | [fip] => mret fip
  | _ => raise (FloatingIpMultipleFoundForAddress address)
  end.

Definition associate_floating_ip (instance : Instance)
    (floating_address fixed_address : string) : M unit :=
  let client := get_client false in
  port ← _get_port_id_by_fixed_address client instance fixed_address;
  fip ← _get_floating_ip_by_address client floating_address;
  update_floatingip client (fip_id fip) (Some port) (Some fixed_address).

Definition release_floating_ip (address : string) : M unit :=
  let client := get_client false in
  fip ← _get_floating_ip_by_address client address;
  if truthy (fip_port_id fip) then raise (FloatingIpAssociated address)
  else delete_floatingip client (fip_id fip).

End api.


(** * The other methods of [API] *)

(** ** Exceptions raised by the methods below, besides the ones above *)

Inductive error :=
| Exn (e : exn)
| NetworkNotFoundForInstance (instance_id : string)
| FixedIpAssociatedWithMultipleInstances (address : string)
| IndexError
| TypeError
| KeyError (key : string).

#[global] Instance error_eq_dec : EqDecision error.
Proof. solve_decision. Defined.

Definition MX (A : Type) : Type := World → (error + A) * World.

#[global] Instance MX_ret : MRet MX := λ A a w, (inr a, w).
#[global] Instance MX_bind : MBind MX := λ A B f m w,
  match m w with
  | (inl e, w') => (inl e, w')
  | (inr a, w') => f a w'
  end.

Definition raiseX {A} (e : error) : MX A := λ w, (inl e, w).

(** A computation of the first part, run among these exceptions. *)
Definition base {A} (m : M A) : MX A := λ w,
  match m w with
  | (inl e, w') => (inl (Exn e), w')
  | (inr a, w') => (inr a, w')
  end.

#[global] Instance error_ret : MRet (sum error) := λ A a, inr a.
#[global] Instance error_bind : MBind (sum error) := λ A B f m,
  match m with
  | inl e => inl e
  | inr a => f a
  end.

Definition liftX {A} (r : error + A) : MX A := λ w, (r, w).

(** ** [str] operations *)

(** [s.replace(old, new)] for a non-empty [old]: the occurrences of [old]
    are replaced from left to right, without overlap.  [skip] counts the
    characters of the occurrence being replaced that are still to pass. *)
Fixpoint replace_from (old new : string) (skip : nat) (s : string) : string :=
  match s with
  | EmptyString => EmptyString
  | String c s' =>
      match skip with
      | S k => replace_from old new k s'
      | 0 =>
          if String.prefix old s
          then new +:+ replace_from old new (String.length old - 1) s'
          else String c (replace_from old new 0 s')
      end
  end.

Definition replace (old new s : string) : string := replace_from old new 0 s.

(** [s[-1]] and [s[:-1]] of a non-empty string. *)
Fixpoint last_char (s : string) : option string :=
  match s with
  | EmptyString => None
  | String c EmptyString => Some (String c EmptyString)
  | String _ s' => last_char s'
  end.

Fixpoint but_last (s : string) : string :=
  match s with
  | EmptyString => EmptyString
  | String _ EmptyString => EmptyString
  | String c s' => String c (but_last s')
  end.

(** ** Agents *)

Record Agent := {
  agent_type : string;
  agent_alive : bool;
  agent_host : string;
}.

Record AgentStatus := {
  as_agent_type : string;
  as_alive : bool;
}.

Definition _format_agents_status (agent : Agent) : AgentStatus :=
  {| as_agent_type := agent_type agent; as_alive := agent_alive agent |}.

(** The loop of [API.get_agents_status] over the agents the client
    lists: [result] maps a host to the statuses of its agents. *)
Definition get_agents_status (agents : list Agent)
  : gmap string (list AgentStatus) :=
  foldl (λ result agent,
           let result :=
             if negb (truthy (result !! agent_host agent))
             then <[agent_host agent := []]> result else result in
           let status := _format_agents_status agent in
           alter (λ l, l ++ [status]) (agent_host agent) result)
        ∅ agents.

(** ** Floating ip records as nova shows them *)

Record FloatingIpModel := {
  fm_id : string;
  fm_address : string;
  fm_pool : string;
  fm_project_id : string;
  fm_fixed_ip_id : option string;
  (** [result['fixed_ip']['address']] *)
  fm_fixed_ip : option string;
  (** [None] for ['instance': None], [Some d] for [{'uuid': d}] *)
  fm_instance : option (option string);
}.

Definition _format_floating_ip_model (fip : FloatingIp)
    (pool_dict : gmap string Network) (port_dict : gmap string Port)
  : error + FloatingIpModel :=
  match pool_dict !! fip_floating_network_id fip with
  | None => inl (KeyError (fip_floating_network_id fip))
  | Some pool =>
      let pool_name :=
        if truthy (net_name pool) then net_name pool else net_id pool in
      instance ←
        (if truthy (fip_port_id fip) then
           match port_dict !! default "" (fip_port_id fip) with
           | Some port => inr (Some (port_device_id port))
           | None => inl (KeyError (default "" (fip_port_id fip)))
           end
         else inr None);
      inr {| fm_id := fip_id fip;
             fm_address := fip_floating_ip_address fip;
             fm_pool := pool_name;
             fm_project_id := fip_tenant_id fip;
             fm_fixed_ip_id := fip_port_id fip;
             fm_fixed_ip := fip_fixed_ip_address fip;
             fm_instance := instance |}
  end.

Definition _setup_port_dict (client : Client) (port : option string)
  : M (gmap string Port) :=
  if negb (truthy port) then mret ∅
  else
    port ← show_port client (default "" port);
    mret {[ port_id port := port ]}.

Definition _setup_ports_dict (client : Client) (project : option string)
  : M (gmap string Port) :=
  let search_opts :=
    {| ps_tenant_id := if truthy project then project else None;
       ps_device_id := None; ps_device_owner := None;
       ps_network_id := None; ps_fixed_ip := None |} in
  ports ← list_ports client search_opts;
  mret (list_to_map (reverse ((λ p, (port_id p, p)) <$> ports))).

Section more.
Variable CONF : Config.
Variable imports : Imports.

(** ** [API.deallocate_for_instance] *)

(** A notification of the conductor, as the other two. *)
Definition trigger_instance_remove_security_group_refresh
    (instance : Instance) : M unit := mret ().

Definition deallocate_for_instance (instance : Instance) : M unit :=
  let search_opts :=
    {| ps_tenant_id := None; ps_device_id := Some (uuid instance);
       ps_device_owner := None; ps_network_id := None;
       ps_fixed_ip := None |} in
  ports ← list_ports (get_client false) search_opts;
  _ ← for_each ports (λ port,
        try_except (delete_port (get_client false) (port_id port))
                   (λ _, mret ()));
  _ ← trigger_security_group_members_refresh instance;
  trigger_instance_remove_security_group_refresh instance.

(** ** [API.allocate_port_for_instance] *)

Definition allocate_port_for_instance (instance : Instance)
    (port_id : option string) (network_id requested_ip : option string)
  : M (list VIF) :=
  allocate_for_instance CONF imports instance None
    [(network_id, requested_ip, port_id)] [].

(** ** [API.deallocate_port_for_instance] *)

Definition deallocate_port_for_instance (instance : Instance)
    (port_id : string) : M (list VIF) :=
  _ ← try_except (delete_port (get_client false) port_id) (λ ex, mret ());
  _ ← trigger_security_group_members_refresh instance;
  _ ← trigger_instance_remove_security_group_refresh instance;
  get_instance_nw_info CONF imports instance None.

(** ** [API.add_fixed_ip_to_instance] *)

(** The entry of a port's [fixed_ips] as a request carries it. *)
Definition as_request (f : FixedIp) : FixedIpReq :=
  {| fr_ip_address := Some (ip_address f); fr_subnet_id := Some (subnet_id f) |}.

Definition fixed_ips_body (fixed_ips : list FixedIpReq) : PortReq :=
  {| rq_device_id := None; rq_device_owner := None;
     rq_rxtx_factor := None; rq_binding_host_id := None;
     rq_fixed_ips := Some fixed_ips;
     rq_network_id := None; rq_admin_state_up := None;
     rq_tenant_id := None; rq_security_groups := None;
     rq_mac_address := None |}.

(** [for subnet in ipam_subnets] for one port.  [fixed_ips] is the list
    object [p['fixed_ips']]: each iteration appends to it in place, so an
    entry added for a failed attempt is still there in the next one.  The
    result is [true] when the method has returned. *)
Fixpoint add_on_subnets (id : string) (fixed_ips : list FixedIpReq)
    (ipam_subnets : list Subnet) : M bool :=
  match ipam_subnets with
  | [] => mret false
  | subnet :: rest =>
      let fixed_ips :=
        fixed_ips ++ [ {| fr_ip_address := None;
                          fr_subnet_id := Some (sn_id subnet) |} ] in
      let port_req_body := fixed_ips_body fixed_ips in
      returned ←
        try_except
          (_ ← update_port (get_client false) id port_req_body; mret true)
          (λ ex, mret false);
      if (returned : bool) then mret true
      else add_on_subnets id fixed_ips rest
  end.

(** [for p in ports] *)
Fixpoint add_on_ports (ports : list Port) (ipam_subnets : list Subnet)
  : M bool :=
  match ports with
  | [] => mret false
  | p :: rest =>
      returned ← add_on_subnets (port_id p) (as_request <$> port_fixed_ips p)
                   ipam_subnets;
      if (returned : bool) then mret true
      else add_on_ports rest ipam_subnets
  end.

(** The body of the method.  The [refresh_cache] decorator, which runs
    once the body has returned, belongs to the instance store and is not
    part of this module. *)
Definition add_fixed_ip_to_instance (instance : Instance)
    (network_id : string) : MX unit :=
  let search_opts :=
    {| ss_network_id := Some network_id; ss_id := None |} in
  ipam_subnets ← base (list_subnets (get_client false) search_opts);
  if negb (truthy ipam_subnets) then
    raiseX (NetworkNotFoundForInstance (uuid instance))
  else
    let zone := zone_of instance in
    let search_opts :=
      {| ps_tenant_id := None; ps_device_id := Some (uuid instance);
         ps_device_owner := Some zone; ps_network_id := Some network_id;
         ps_fixed_ip := None |} in
    ports ← base (list_ports (get_client false) search_opts);
    returned ← base (add_on_ports ports ipam_subnets);
    if (returned : bool) then mret ()
    else raiseX (NetworkNotFoundForInstance (uuid instance)).

(** ** Instances by address *)

(** A dict [{'instance_uuid': uuid}] of the result is kept as its
    [uuid]. *)
Definition _get_instance_uuids_by_ip (address : string) : M (list string) :=
  let search_opts :=
    {| ps_tenant_id := None; ps_device_id := None; ps_device_owner := None;
       ps_network_id := None; ps_fixed_ip := Some address |} in
  ports ← list_ports (get_client false) search_opts;
  mret ((λ port, default "" (port_device_id port))
          <$> List.filter (λ port, truthy (port_device_id port)) ports).

(** [filters.get('ip')] is [None] when the key is missing. *)
Definition get_instance_uuids_by_ip_filter (ip : option string)
  : MX (list string) :=
  match ip with
  | None => raiseX TypeError
  | Some ip =>
      match ip with
      | EmptyString => raiseX IndexError
      | String c rest =>
          let ip :=
            if bool_decide (String c EmptyString = "^") then rest else ip in
          match last_char ip with
          | None => raiseX IndexError
          | Some c' =>
              let ip := if bool_decide (c' = "$") then but_last ip else ip in
              let ip := replace "\." "." ip in
              base (_get_instance_uuids_by_ip ip)
          end
      end
  end.

Definition get_fixed_ip_by_address (address : string) : MX string :=
  uuid_maps ← base (_get_instance_uuids_by_ip address);
  match uuid_maps with
  | [uuid_map] => mret uuid_map
  | [] => raiseX (Exn (FixedIpNotFoundForAddress address))
  | _ => raiseX (FixedIpAssociatedWithMultipleInstances address)
  end.

(** ** Floating ips, continued *)

(** The body of the update is [{'port_id': None}]: it names no fixed
    address, and the service clears the one it holds with the port.  As
    for [add_fixed_ip_to_instance], this is the body under the
    [refresh_cache] decorator. *)
Definition disassociate_floating_ip (instance : Instance) (address : string)
  : M unit :=
  let client := get_client false in
  fip ← _get_floating_ip_by_address client address;
  update_floatingip client (fip_id fip) None None.

Definition get_instance_id_by_floating_address (address : string)
  : M (option string) :=
  let client := get_client false in
  fip ← _get_floating_ip_by_address client address;
  if negb (truthy (fip_port_id fip)) then mret None
  else
    port ← show_port client (default "" (fip_port_id fip));
    mret (port_device_id port).

(** ** [API.migrate_instance_finish] *)

Definition host_body (instance : Instance) : PortReq :=
  {| rq_device_id := None; rq_device_owner := None;
     rq_rxtx_factor := None; rq_binding_host_id := Some (host instance);
     rq_fixed_ips := None; rq_network_id := None;
     rq_admin_state_up := None; rq_tenant_id := None;
     rq_security_groups := None; rq_mac_address := None |}.

Definition migrate_instance_finish (instance : Instance) : M unit :=
  binding ← _has_port_binding_extension CONF imports true;
  if negb binding then mret ()
  else
    let quantum := get_client true in
    network_info ← get_instance_nw_info CONF imports instance None;
    let search_opts :=
      {| ps_tenant_id := Some (project_id instance);
         ps_device_id := Some (uuid instance);
         ps_device_owner := None; ps_network_id := None;
         ps_fixed_ip := None |} in
    ports ← list_ports quantum search_opts;
    for_each ports (λ p,
      let port_req_body := host_body instance in
      try_except (update_port quantum (port_id p) port_req_body)
                 (λ ex, save_and_reraise_exception ex (mret ()))).

End more.

(** * Vocabulary of the statements *)

(** ** Ordering *)

Section ordering_vocabulary.
Context {A K : Type} `{EqDecision K}.
Variable accessor : A → K.
Variable preferred : list K.

(** The sort key of an element: the position of its id in [preferred]. *)
Definition position (i : A) : nat :=
  default 0 (list_index (accessor i) preferred).

Definition tag (i : A) : nat * A := (position i, i).

(** The list stably sorted on the positions. *)
Definition sort_by_position (l : list A) : list A :=
  snd <$> sort_keyed (tag <$> l).

Definition tagged (x : nat * A) : Prop := x.1 = position x.2.

End ordering_vocabulary.

Definition key_le {A} (a b : nat * A) : Prop := a.1 ≤ b.1.

(** ** The log *)

(** The event a call leaves in the log. *)
Definition event (client : Client) (c : Call) (o : Outcome) : Event :=
  {| ev_admin := admin client; ev_call := c; ev_outcome := o |}.

(** The events of [w'] that [w] does not have yet. *)
Definition new_events (w w' : World) : list Event :=
  drop (length (trace w)) (trace w').

(** The client and the call of an event, without the outcome. *)
Definition issued (ev : Event) : bool * Call := (ev_admin ev, ev_call ev).

(** Calls that change a record of the service. *)
Definition mutates (ev : Event) : Prop :=
  match ev_call ev with
  | CreatePort _ | UpdatePort _ _ | DeletePort _
  | UpdateFloatingip _ _ _ | DeleteFloatingip _ => True
  | _ => False
  end.

Definition quiet (ev : Event) : Prop := ¬ mutates ev.

(** Events of the extension cache. *)
Definition neutral (ev : Event) : Prop := ev_call ev = ListExtensions.

(** [emits P m]: [m] only appends events that satisfy [P]. *)
Definition emits {A} (P : Event → Prop) (m : M A) : Prop :=
  ∀ w, ∃ evs, trace (m w).2 = trace w ++ evs ∧ Forall P evs.

(** [keeps m]: [m] leaves the service's records as they are. *)
Definition keeps {A} (m : M A) : Prop :=
  ∀ w, remote (m w).2 = remote w.

(** ** The extension cache *)

Inductive capability_query :=
| HasPortBinding (refresh_cache : bool)
| RefreshCache
| PopulateValues (instance : Instance) (port_req_body : PortReq).

Definition run_query (CONF : Config) (imports : Imports)
    (q : capability_query) : M unit :=
  match q with
  | HasPortBinding refresh_cache =>
      _ ← _has_port_binding_extension CONF imports refresh_cache; mret ()
  | RefreshCache => _refresh_quantum_extensions_cache CONF
  | PopulateValues instance port_req_body =>
      _ ← _populate_quantum_extension_values CONF imports instance
            port_req_body;
      mret ()
  end.

(** Nothing but the count of clock readings distinguishes the worlds. *)
Definition later (w w' : World) : Prop :=
  remote w' = remote w ∧ self w' = self w ∧ trace w' = trace w
  ∧ fault w' = fault w ∧ clock w' = clock w ∧ readings w ≤ readings w'.

(** The cache was filled at [t0] and every reading of the clock from now
    on falls within the interval. *)
Definition fresh_at (CONF : Config) (t0 : Z) (w : World) : Prop :=
  last_quantum_extension_sync (self w) = Some t0 ∧ t0 ≠ 0%Z
  ∧ ∀ n, readings w ≤ n →
         (clock w n - t0 < quantum_extension_sync_interval CONF)%Z.

(** The cached answer to "is the port-binding extension there". *)
Definition binding (imports : Imports) (w : World) : bool :=
  bool_decide (is_Some (extensions (self w) !! PORTBINDING_EXT imports)).

(** ** An allocation attempt, read off the log *)

(** The ids of the ports the logged calls created. *)
Definition created_of (evs : list Event) : list string :=
  omap (λ ev, match ev_call ev, ev_outcome ev with
              | CreatePort _, ReturnedId id => Some id
              | _, _ => None
              end) evs.

(** An update that binds the port to a device. *)
Definition binds (body : PortReq) : bool :=
  match rq_device_id body with
  | Some (Some _) => true
  | _ => false
  end.

(** The ids of the ports the logged calls bound to a device. *)
Definition touched_of (evs : list Event) : list string :=
  omap (λ ev, match ev_call ev, ev_outcome ev with
              | UpdatePort id body, Returned =>
                  if binds body then Some id else None
              | _, _ => None
              end) evs.

(** The calls of the compensation: deletions, and updates that clear the
    device binding. *)
Definition compensating (ev : Event) : bool :=
  match ev_call ev with
  | DeletePort _ => true
  | UpdatePort _ body => bool_decide (rq_device_id body = Some None)
  | _ => false
  end.

Definition succeeded (ev : Event) : bool :=
  match ev_outcome ev with
  | Raised _ => false
  | _ => true
  end.

(** Rollback completeness: no port the logged calls created is left, and
    no port they bound still has a device. *)
Definition rolled_back (evs : list Event) (r : Remote) : Prop :=
  ∀ p, p ∈ ports r →
       (port_id p ∉ created_of evs)
       ∧ (port_id p ∈ touched_of evs → port_device_id p = None).

(** The calls the handler issues, each with the client it goes through. *)
Definition undo_calls (quantum : Client) (b : bool)
    (touched created : list string) : list (bool * Call) :=
  ((λ id, (admin (if b then get_client true else quantum),
           UpdatePort id (unbind_req b))) <$> touched)
  ++ ((λ id, (admin quantum, DeletePort id)) <$> created).

(** How a failed step shows in the log: the error is the one the last
    logged call raised. *)
Definition raised_last (e : exn) (evs : list Event) : Prop :=
  ∃ code ev, e = QuantumClientException code
             ∧ last evs = Some ev ∧ ev_outcome ev = Raised e.

(** What a failed pass of the loop leaves behind when the failure came
    from inside a [try] block. *)
Definition compensated (imports : Imports) (quantum : Client) (st : Attempt)
    (w w' : World) (e : exn) : Prop :=
  ∃ forward undo st',
    trace w' = trace w ++ forward ++ undo
    ∧ Forall (λ ev, compensating ev = false) forward
    ∧ touched_port_ids st' = touched_port_ids st ++ touched_of forward
    ∧ created_port_ids st' = created_port_ids st ++ created_of forward
    ∧ (e = PortNotFree ∨ raised_last e forward)
    ∧ issued <$> undo
      = undo_calls quantum (binding imports w') (touched_port_ids st')
          (created_port_ids st')
    ∧ (Forall (λ ev, succeeded ev = true) undo →
       ∀ p, p ∈ ports (remote w') →
            (port_id p ∉ created_port_ids st')
            ∧ (port_id p ∈ touched_port_ids st' → port_device_id p = None)).

(** ** Fixed and floating ips *)

Definition carrying_search (instance : Instance) (address : string)
  : PortSearch :=
  {| ps_tenant_id := None; ps_device_id := Some (uuid instance);
     ps_device_owner := Some (zone_of instance); ps_network_id := None;
     ps_fixed_ip := Some address |}.

(** The instance's ports that carry the address. *)
Definition ports_carrying (instance : Instance) (address : string)
    (r : Remote) : list Port :=
  List.filter
    (λ p, bool_decide (port_device_id p = Some (uuid instance))
          && bool_decide (port_device_owner p = zone_of instance)
          && has_address address p)
    (ports r).

(** The update body that keeps every fixed ip of [p] but [address]. *)
Definition without_address (address : string) (p : Port) : PortReq :=
  {| rq_device_id := None; rq_device_owner := None;
     rq_rxtx_factor := None; rq_binding_host_id := None;
     rq_fixed_ips :=
       Some ((λ f, {| fr_ip_address := Some (ip_address f);
                      fr_subnet_id := Some (subnet_id f) |})
               <$> List.filter
                     (λ fixed_ip, bool_decide (ip_address fixed_ip ≠ address))
                     (port_fixed_ips p));
     rq_network_id := None; rq_admin_state_up := None;
     rq_tenant_id := None; rq_security_groups := None;
     rq_mac_address := None |}.

Definition by_floating_address (address : string) : FipSearch :=
  {| fs_floating_ip_address := Some address; fs_fixed_ip_address := None;
     fs_port_id := None |}.

(** The floating ip records with the given address. *)
Definition fips_at (address : string) (r : Remote) : list FloatingIp :=
  List.filter (fip_matches (by_floating_address address)) (floatingips r).

Definition instance_search (instance : Instance) : PortSearch :=
  {| ps_tenant_id := None; ps_device_id := Some (uuid instance);
     ps_device_owner := Some (zone_of instance); ps_network_id := None;
     ps_fixed_ip := None |}.

(** The instance's ports that carry the address, in the order the
    service lists them. *)
Definition candidates (instance : Instance) (address : string) (r : Remote)
  : list Port :=
  List.filter (has_address address)
    (List.filter (port_matches (instance_search instance)) (ports r)).

Definition binds_floating_ip (ev : Event) : Prop :=
  match ev_call ev with
  | UpdateFloatingip _ _ _ => True
  | _ => False
  end.

(** ** Security groups *)

(** The tenant's groups whose name, respectively id, is the entry. *)
Definition named (security_group : string) (gs : list SecurityGroup)
  : list SecurityGroup :=
  List.filter (λ g, bool_decide (sg_name g = security_group)) gs.

Definition identified (security_group : string) (gs : list SecurityGroup)
  : list SecurityGroup :=
  List.filter (λ g, bool_decide (sg_id g = security_group)) gs.

(** The groups the service lists for the project of the instance. *)
Definition tenant_groups (instance : Instance) (r : Remote)
  : list SecurityGroup :=
  List.filter (λ g, bool_decide (sg_tenant_id g = project_id instance))
              (security_groups r).

(** A logged call that creates a port gives it these security groups. *)
Definition creates_with (security_group_ids : list string) (ev : Event)
  : Prop :=
  ∀ body, ev_call ev = CreatePort body →
          rq_security_groups body = Some security_group_ids.

(** ** The selector *)

(** What the two list calls return, tenant networks first. *)
Definition candidate_networks (project : string)
    (net_ids : list (option string)) (r : Remote) : list Network :=
  let ids := if truthy net_ids then Some net_ids else None in
  List.filter (net_matches {| ns_tenant_id := Some project;
                              ns_shared := Some false; ns_id := ids |})
              (networks r)
  ++ List.filter (net_matches {| ns_tenant_id := None;
                                 ns_shared := Some true; ns_id := ids |})
                 (networks r).

Definition network_key (n : Network) : option string := Some (net_id n).

(** The requested ids the selector did not return. *)
Definition lost_ids (net_ids : list (option string)) (nets : list Network)
  : list (option string) :=
  List.filter (λ i, bool_decide (i ∉ network_key <$> nets))
              (remove_dups net_ids).

(** ** The snapshot *)

(** The network a record of the snapshot belongs to. *)
Definition vif_network_id (v : VIF) : string := nm_id (vif_network v).




(** ** The specification's wording of the statements the code departs from *)

(** With a non-empty preferred list the ordering routine returns, leaves
    the elements whose id is not preferred in their original relative order
    and sorts the others by preferred position. *)
Definition ordering_keeps_unlisted {A K} `{EqDecision K} (accessor : A → K)
    (unordered : list A) (preferred : list K) : Prop :=
  preferred ≠ [] →
  ∃ sorted,
    _ensure_requested_network_ordering accessor unordered preferred
    = inr sorted
    ∧ List.filter (λ i, bool_decide (accessor i ∉ preferred)) sorted
      = List.filter (λ i, bool_decide (accessor i ∉ preferred)) unordered
    ∧ StronglySorted
        (λ a b, position accessor preferred a ≤ position accessor preferred b)
        (List.filter (λ i, bool_decide (accessor i ∈ preferred)) sorted).

(** Whenever the per-network loop fails, nothing of the attempt is left. *)
Definition rollback_complete (CONF : Config) (imports : Imports)
    (instance : Instance) (macs : option (list string))
    (requested : list requested_network) (security_groups : list string)
    (w : World) : Prop :=
  ∀ rq nets security_group_ids w1 e w',
    resolve_request instance macs requested security_groups w
    = (inr (rq, nets, security_group_ids), w1) →
    allocate_ports CONF imports (get_client false) instance (rq_ports rq)
      (rq_fixed rq) security_groups security_group_ids nets
      (first_attempt rq) w1
    = (inl e, w') →
    rolled_back (new_events w w') (remote w').

(** A network that cannot take the security groups fails the call before
    any port is created or updated. *)
Definition checked_before_any_port (CONF : Config) (imports : Imports)
    (instance : Instance) (macs : option (list string))
    (requested : list requested_network) (security_groups : list string)
    (w : World) : Prop :=
  ∀ rq nets security_group_ids w1 bad,
    resolve_request instance macs requested security_groups w
    = (inr (rq, nets, security_group_ids), w1) →
    security_groups ≠ [] →
    bad ∈ nets →
    net_subnets bad = [] ∨ net_port_security_enabled bad = Some false →
    let result :=
      allocate_for_instance CONF imports instance macs requested
        security_groups w in
    result.1 = inl SecurityGroupCannotBeApplied
    ∧ Forall quiet (new_events w result.2).

(** A requested id the selector does not return makes the allocation
    fail. *)
Definition mismatch_reported (CONF : Config) (imports : Imports)
    (instance : Instance) (macs : option (list string))
    (requested : list requested_network) (security_groups : list string)
    (w : World) : Prop :=
  ∀ rq nets security_group_ids w1 missing,
    resolve_request instance macs requested security_groups w
    = (inr (rq, nets, security_group_ids), w1) →
    missing ∈ rq_net_ids rq →
    missing ∉ network_key <$> nets →
    ∃ e w',
      allocate_for_instance CONF imports instance macs requested
        security_groups w
      = (inl e, w').


(** A lookup that does not resolve to exactly one record makes the
    association fail. *)
Definition lookups_fail_closed (instance : Instance)
    (floating_address fixed_address : string) (w : World) : Prop :=
  length (candidates instance fixed_address (remote w)) ≠ 1
  ∨ length (fips_at floating_address (remote w)) ≠ 1 →
  ∃ e w',
    associate_floating_ip instance floating_address fixed_address w
    = (inl e, w').

(** * Vocabulary for the other methods *)

(** The ports bound to the instance. *)
Definition device_search (instance : Instance) : PortSearch :=
  {| ps_tenant_id := None; ps_device_id := Some (uuid instance);
     ps_device_owner := None; ps_network_id := None; ps_fixed_ip := None |}.

Definition ports_of_device (instance : Instance) (r : Remote) : list Port :=
  List.filter (port_matches (device_search instance)) (ports r).

(** ** Migration *)

(** A port after the host updates: as it was, or with the new host. *)
Definition rehosted (instance : Instance) (p p' : Port) : Prop :=
  p' = p ∨ p' = apply_update (host_body instance) p.

(** ** Adding a fixed ip *)

Definition subnets_of_network (network_id : string) (r : Remote)
  : list Subnet :=
  List.filter (subnet_matches {| ss_network_id := Some network_id;
                                 ss_id := None |}) (subnets r).

Definition attached_search (instance : Instance) (network_id : string)
  : PortSearch :=
  {| ps_tenant_id := None; ps_device_id := Some (uuid instance);
     ps_device_owner := Some (zone_of instance);
     ps_network_id := Some network_id; ps_fixed_ip := None |}.

Definition ports_attached (instance : Instance) (network_id : string)
    (r : Remote) : list Port :=
  List.filter (port_matches (attached_search instance network_id)) (ports r).

(** The entry a request carries for a new address on a subnet. *)
Definition on_subnet (subnet : Subnet) : FixedIpReq :=
  {| fr_ip_address := None; fr_subnet_id := Some (sn_id subnet) |}.

(** The updates tried on one port, in order: the attempt for the subnet
    number [k] carries the entries of the port and one entry for each of the
    subnets up to [k], the ones of the failed attempts included. *)
Definition attempts_from (id : string) (fixed_ips : list FixedIpReq)
    (ipam_subnets : list Subnet) : list Call :=
  (λ k, UpdatePort id
          (fixed_ips_body
             (fixed_ips ++ (on_subnet <$> take (S k) ipam_subnets))))
    <$> seq 0 (length ipam_subnets).

Definition attempts (ports : list Port) (ipam_subnets : list Subnet)
  : list Call :=
  ports ≫= λ p, attempts_from (port_id p) (as_request <$> port_fixed_ips p)
                  ipam_subnets.

(** A run of attempts that stops at the first one that succeeds. *)
Definition until_success (tried : list Event) : Prop :=
  ∃ failed ok,
    tried = failed ++ [ok]
    ∧ Forall (λ ev, succeeded ev = false) failed ∧ succeeded ok = true.

(** ** Instances by address *)

Definition address_search (address : string) : PortSearch :=
  {| ps_tenant_id := None; ps_device_id := None; ps_device_owner := None;
     ps_network_id := None; ps_fixed_ip := Some address |}.

(** The ports that carry the address and are bound to a device. *)
Definition bound_ports_at (address : string) (r : Remote) : list Port :=
  List.filter (λ port, truthy (port_device_id port))
              (List.filter (port_matches (address_search address)) (ports r)).

(** The filter nova builds for a fixed address:
    ['^%s$' % fixed_ip.replace('.', '\\.')]. *)
Definition ip_filter (fixed_ip : string) : string :=
  "^" +:+ replace "." "\." fixed_ip +:+ "$".

(** ** Floating ips *)

(** No remote call fails from now on. *)
Definition calls_go_through (w : World) : Prop :=
  ∀ n, length (trace w) ≤ n → fault w n = None.

(** A floating ip record after a disassociation: as it was, or cleared. *)
Definition cleared_or_same (id : string) (f f' : FloatingIp) : Prop :=
  f' = f ∨ (fip_id f = id ∧ f' = set_fip_port None None f).

(** ** The snapshot builder *)

(** An error of the client: a status code of the service or of the
    transport. *)
Definition client_error (e : exn) : Prop :=
  ∃ code, e = QuantumClientException code.

(** [fails_only P m]: whenever [m] raises, the exception satisfies [P]. *)
Definition fails_only {A} (P : exn → Prop) (m : M A) : Prop :=
  ∀ w e, (m w).1 = inl e → P e.

(** The ports the builder lists: the ones of the instance in its
    project. *)
Definition builder_search (instance : Instance) : PortSearch :=
  {| ps_tenant_id := Some (project_id instance);
     ps_device_id := Some (uuid instance);
     ps_device_owner := None; ps_network_id := None; ps_fixed_ip := None |}.

Definition instance_ports (instance : Instance) (r : Remote) : list Port :=
  List.filter (port_matches (builder_search instance)) (ports r).

(** The networks of the interfaces cached on the instance. *)
Definition cached_networks (instance : Instance) : list string :=
  (λ iface, nm_id (vif_network iface)) <$> info_cache_network_info instance.

(** The names of a record fit the limit on interface names. *)
Definition names_fit (imports : Imports) (v : VIF) : Prop :=
  (∀ devname, vif_devname v = Some devname →
              String.length devname ≤ NIC_NAME_LEN imports)
  ∧ (∀ bridge, nm_bridge (vif_network v) = Some bridge →
               String.length bridge ≤ NIC_NAME_LEN imports).

(** ** Validation *)

(** The network an entry of the request asks for: the network of its port
    when it names one, else the network it names. *)
Definition network_asked (r : Remote) (rn : requested_network)
  : option string :=
  let '(network_id, _, port) := rn in
  if truthy port then
    port_network_id <$> List.find (has_id (default "" port)) (ports r)
  else network_id.

(** A network the project may use: its own, or a shared one. *)
Definition usable (project : string) (n : Network) : Prop :=
  net_shared n = true ∨ (net_shared n = false ∧ net_tenant_id n = project).

(** The port an entry names exists and is bound to no device. *)
Definition names_free_port (r : Remote) (rn : requested_network) : Prop :=
  ∀ port, rn.2 = Some port → port ≠ "" →
    ∃ p, List.find (has_id port) (ports r) = Some p
         ∧ truthy (port_device_id p) = false.

(** ** The calls of an allocation *)

(** What a logged call changes in the service. *)
Inductive change :=
| Updates (port : string)
| CreatesOn (network : option string)
| Deletes (port : string)
| ChangesFloatingIp (id : string).

Definition change_of (ev : Event) : option change :=
  match ev_call ev with
  | UpdatePort id _ => Some (Updates id)
  | CreatePort body => Some (CreatesOn (rq_network_id body))
  | DeletePort id => Some (Deletes id)
  | UpdateFloatingip id _ _ | DeleteFloatingip id =>
      Some (ChangesFloatingIp id)
  | _ => None
  end.

(** The change an allocation makes for a network: the port the request
    names on it is updated; without one a port is created. *)
Definition planned (ports : gmap string Port) (network : Network) : change :=
  match ports !! net_id network with
  | Some port => Updates (port_id port)
  | None => CreatesOn (Some (net_id network))
  end.

(** The MAC address a creation asks for. *)
Definition mac_of (ev : Event) : option string :=
  match ev_call ev with
  | CreatePort body => rq_mac_address body
  | _ => None
  end.


(** [served m]: when no remote call fails, [m] returns and leaves the
    service as it was. *)
Definition served {A} (m : M A) : Prop :=
  ∀ w, calls_go_through w →
    ∃ a w', m w = (inr a, w') ∧ calls_go_through w' ∧ remote w' = remote w.

(** The ports the builder works on when it is given no networks: the ones
    of the instance on the cached networks, in the cached order. *)
Definition ports_in_cached_order (instance : Instance) (r : Remote)
  : list Port :=
  sort_by_position port_network_id (cached_networks instance)
    (List.filter
       (λ port, bool_decide (port_network_id port ∈ cached_networks instance))
       (instance_ports instance r)).

(** ** Subnets of a port *)

Definition on_subnet_of (subnet : Subnet) (ip_pair : FixedIp) : bool :=
  bool_decide (subnet_id ip_pair = sn_id subnet).

(** The dhcp ports of the subnet's network. *)
Definition dhcp_ports_of (subnet : Subnet) (r : Remote) : list Port :=
  List.filter
    (port_matches {| ps_tenant_id := None; ps_device_id := None;
                     ps_device_owner := Some "network:dhcp";
                     ps_network_id := Some (sn_network_id subnet);
                     ps_fixed_ip := None |}) (ports r).

(** The address reported as the subnet's dhcp server: of the last dhcp
    port with an address on the subnet, the first such address. *)
Definition dhcp_choice (subnet : Subnet) (dhcp_ports : list Port)
  : option string :=
  p ← last (List.filter
              (λ p, existsb (on_subnet_of subnet) (port_fixed_ips p))
              dhcp_ports);
  ip_address <$> List.find (on_subnet_of subnet) (port_fixed_ips p).

(** The subnets the service lists for the fixed ips of a port. *)
Definition subnets_of_port (port : Port) (r : Remote) : list Subnet :=
  List.filter
    (subnet_matches {| ss_network_id := None;
                       ss_id := Some (subnet_id <$> port_fixed_ips port) |})
    (subnets r).


(** * A small deployment to run the embedding on *)

Module Sample.

Definition CONF : Config :=
  {| quantum_ovs_bridge := "br-int"; quantum_extension_sync_interval := 600;
     flat_injected := false |}.

Definition imports : Imports :=
  {| PORTBINDING_EXT := "Port Binding"; VIF_TYPE_OVS := "ovs";
     VIF_TYPE_BRIDGE := "bridge"; NIC_NAME_LEN := 14;
     is_in_subnet := λ _ _, true |}.

Definition network (id : string) (subnet_ids : list string) : Network :=
  {| net_id := id; net_name := id; net_tenant_id := "tenant";
     net_shared := false; net_subnets := subnet_ids;
     net_port_security_enabled := None |}.

Definition net_a : Network := network "net-a" ["subnet-a"].
(** A network without subnets. *)
Definition net_b : Network := network "net-b" [].
Definition net_c : Network := network "net-c" ["subnet-c"].

Definition instance : Instance :=
  {| uuid := "vm-1"; display_name := "vm"; project_id := "tenant";
     availability_zone := "nova"; host := Some "host-1"; rxtx_factor := None;
     info_cache_network_info := [] |}.

Definition next_port (id : string) : Fresh :=
  {| fresh_id := id; fresh_mac := "fa:16:3e:00:00:01"; fresh_fixed_ips := [] |}.

(** A port of the instance on net-a with one fixed ip. *)
Definition bound_port (id address : string) : Port :=
  {| port_id := id; port_network_id := "net-a"; port_tenant_id := "tenant";
     port_device_id := Some "vm-1"; port_device_owner := "compute:nova";
     port_mac_address := "fa:16:3e:00:00:02";
     port_fixed_ips := [ {| ip_address := address; subnet_id := "subnet-a" |} ];
     port_security_groups := []; port_admin_state_up := true;
     port_rxtx_factor := None; port_binding_host_id := None;
     port_binding_vif_type := None |}.

Definition floating (id address : string) (port : option string)
  : FloatingIp :=
  {| fip_id := id; fip_floating_ip_address := address;
     fip_floating_network_id := "public"; fip_tenant_id := "tenant";
     fip_port_id := port; fip_fixed_ip_address := None |}.

Definition group (id name : string) : SecurityGroup :=
  {| sg_id := id; sg_name := name; sg_tenant_id := "tenant" |}.

Definition service (ps : list Port) (fips : list FloatingIp) : Remote :=
  {| networks := [net_a; net_b; net_c]; subnets := []; ports := ps;
     floatingips := fips;
     security_groups := [group "sg-1" "default"];
     remote_extensions := [];
     fresh := [next_port "port-1"; next_port "port-2"; next_port "port-3"] |}.

(** A world whose remote calls fail as [faults] says. *)
Definition world (r : Remote) (faults : nat → option nat) : World :=
  {| remote := r;
     self := {| last_quantum_extension_sync := None; extensions := ∅ |};
     trace := []; fault := faults; clock := λ _, 1000%Z; readings := 0 |}.

Definition no_fault : nat → option nat := λ _, None.

Definition start : World := world (service [] []) no_fault.

Definition a_then_b : list requested_network :=
  [(Some "net-a", None, None); (Some "net-b", None, None)].

Definition b_then_a : list requested_network :=
  [(Some "net-b", None, None); (Some "net-a", None, None)].

Definition a_then_c : list requested_network :=
  [(Some "net-a", None, None); (Some "net-c", None, None)].

Definition c_then_a : list requested_network :=
  [(Some "net-c", None, None); (Some "net-a", None, None)].

(** "net-x" is not a network of the service. *)
Definition a_and_unknown : list requested_network :=
  [(Some "net-a", None, None); (Some "net-x", None, None)].

(** A port on net-c that no instance uses. *)
Definition free_port (id : string) : Port :=
  {| port_id := id; port_network_id := "net-c"; port_tenant_id := "tenant";
     port_device_id := None; port_device_owner := "";
     port_mac_address := "fa:16:3e:00:00:09";
     port_fixed_ips := []; port_security_groups := [];
     port_admin_state_up := true; port_rxtx_factor := None;
     port_binding_host_id := None; port_binding_vif_type := None |}.

(** The record the instance's cache keeps of port-9. *)
Definition cached_vif : VIF :=
  {| vif_id := "port-9"; vif_address := "fa:16:3e:00:00:09";
     vif_network := {| nm_id := "net-c"; nm_bridge := Some "br-int";
                       nm_injected := false; nm_label := "net-c";
                       nm_tenant_id := "tenant"; nm_subnets := [];
                       nm_should_create_bridge := None |};
     vif_type := Some "ovs"; vif_ovs_interfaceid := Some "port-9";
     vif_devname := Some "tapport-9" |}.

(** The instance with a cache that still lists port-9, which the service
    no longer binds to it. *)
Definition stale_instance : Instance :=
  {| uuid := "vm-1"; display_name := "vm"; project_id := "tenant";
     availability_zone := "nova"; host := Some "host-1"; rxtx_factor := None;
     info_cache_network_info := [cached_vif] |}.




(** A free port on net-c that belongs to another project. *)
Definition foreign_free_port : Port :=
  {| port_id := "port-7"; port_network_id := "net-c";
     port_tenant_id := "other";
     port_device_id := None; port_device_owner := "";
     port_mac_address := "fa:16:3e:00:00:07";
     port_fixed_ips := []; port_security_groups := [];
     port_admin_state_up := true; port_rxtx_factor := None;
     port_binding_host_id := None; port_binding_vif_type := None |}.

Definition a_then_foreign : list requested_network :=
  [(Some "net-a", None, None); (None, None, Some "port-7")].

Definition a_then_port : list requested_network :=
  [(Some "net-a", None, None); (Some "net-c", None, Some "port-9")].

Definition with_free_port : World :=
  world (service [free_port "port-9"] []) no_fault.

(** The calls of an allocation on two networks are numbered 0 and 1 (the
    selector), 2 (the extensions), 3 and 4 (the two ports), 5 (the first
    compensation).  Here the second port and the compensation fail. *)
Definition create_and_delete_fail (n : nat) : option nat :=
  match n with
  | 4 => Some 500
  | 5 => Some 503
  | _ => None
  end.

(** Only the creation of the second port fails. *)
Definition create_fails (n : nat) : option nat :=
  match n with
  | 4 => Some 500
  | _ => None
  end.

(** A group named after the id of another one. *)
Definition groups : list SecurityGroup :=
  [group "sg-1" "web"; group "sg-2" "sg-1"; group "sg-3" "db"].

(** The service with these groups. *)
Definition with_groups : World :=
  world {| networks := [net_a; net_b; net_c]; subnets := []; ports := [];
           floatingips := []; security_groups := groups;
           remote_extensions := [];
           fresh := [next_port "port-1"; next_port "port-2"] |}
        no_fault.

(** A second group named web. *)
Definition with_two_web : World :=
  world {| networks := [net_a; net_b; net_c]; subnets := []; ports := [];
           floatingips := [];
           security_groups := groups ++ [group "sg-4" "web"];
           remote_extensions := [];
           fresh := [next_port "port-1"; next_port "port-2"] |}
        no_fault.

Definition only_a : list requested_network := [(Some "net-a", None, None)].

(** Two ports of the instance carry 10.0.0.5. *)
Definition two_ports : World :=
  world (service [bound_port "port-8" "10.0.0.5";
                  bound_port "port-9" "10.0.0.5"]
                 [floating "fip-1" "172.24.4.1" None]) no_fault.

Definition bound : World :=
  world (service [bound_port "port-8" "10.0.0.5"]
                 [floating "fip-1" "172.24.4.1" (Some "port-8")]) no_fault.

Definition unbound : World :=
  world (service [bound_port "port-8" "10.0.0.5"]
                 [floating "fip-1" "172.24.4.1" None]) no_fault.

(** The second call, the update of the port, fails. *)
Definition update_fails : World :=
  world (service [bound_port "port-8" "10.0.0.5";
                  bound_port "port-9" "10.0.0.5"] [])
        (λ n, match n with 1 => Some 500 | _ => None end).

(** The cache was filled at 1000; the clock reads 1200 from now on. *)
Definition filled : World :=
  {| remote := service [] [];
     self := {| last_quantum_extension_sync := Some 1000%Z;
                extensions := ∅ |};
     trace := []; fault := no_fault; clock := λ _, 1200%Z;
     readings := 0 |}.

Definition queries : list capability_query :=
  [HasPortBinding true; RefreshCache;
   PopulateValues instance empty_req; HasPortBinding false].

End Sample.

(** * More of the sample deployment *)

Module Scene.
Import Sample.

Definition subnet (id network cidr : string) : Subnet :=
  {| sn_id := id; sn_network_id := network; sn_cidr := cidr;
     sn_gateway_ip := Some "10.0.0.1"; sn_dns_nameservers := [] |}.

(** The dhcp port of net-a, with an address on subnet-a. *)
Definition dhcp_port : Port :=
  {| port_id := "port-dhcp"; port_network_id := "net-a";
     port_tenant_id := "tenant"; port_device_id := Some "dhcp-agent";
     port_device_owner := "network:dhcp";
     port_mac_address := "fa:16:3e:00:00:0d";
     port_fixed_ips := [ {| ip_address := "10.0.0.2";
                            subnet_id := "subnet-a" |} ];
     port_security_groups := []; port_admin_state_up := true;
     port_rxtx_factor := None; port_binding_host_id := None;
     port_binding_vif_type := None |}.

(** A port of another project, on a network that project owns. *)
Definition foreign_port : Port :=
  {| port_id := "port-x"; port_network_id := "net-z";
     port_tenant_id := "other"; port_device_id := Some "vm-9";
     port_device_owner := "compute:nova";
     port_mac_address := "fa:16:3e:00:00:0f";
     port_fixed_ips := []; port_security_groups := [];
     port_admin_state_up := true; port_rxtx_factor := None;
     port_binding_host_id := None; port_binding_vif_type := None |}.

(** A port of the instance on net-z, a network the service does not list
    for the project. *)
Definition port_on_hidden_network : Port :=
  {| port_id := "port-z"; port_network_id := "net-z";
     port_tenant_id := "tenant"; port_device_id := Some "vm-1";
     port_device_owner := "compute:nova";
     port_mac_address := "fa:16:3e:00:00:0e";
     port_fixed_ips := []; port_security_groups := [];
     port_admin_state_up := true; port_rxtx_factor := None;
     port_binding_host_id := None; port_binding_vif_type := None |}.

(** A service with two subnets on net-a and the port-binding extension. *)
Definition full_service (ps : list Port) (fips : list FloatingIp) : Remote :=
  {| networks := [net_a; net_b; net_c];
     subnets := [subnet "subnet-a" "net-a" "10.0.0.0/24";
                 subnet "subnet-a2" "net-a" "10.0.1.0/24"];
     ports := ps; floatingips := fips;
     security_groups := [group "sg-1" "default"];
     remote_extensions :=
       [ {| ext_name := "Port Binding"; ext_alias := "binding" |} ];
     fresh := [next_port "port-1"; next_port "port-2"] |}.

(** The instance has one port on net-a; nothing fails. *)
Definition attached : World :=
  world (full_service [bound_port "port-8" "10.0.0.5"; dhcp_port] [])
        no_fault.

(** As [attached], but the third call, the first update, fails. *)
Definition first_update_fails : World :=
  world (full_service [bound_port "port-8" "10.0.0.5"; dhcp_port] [])
        (λ n, match n with 2 => Some 500 | _ => None end).

(** The service answers every call with 503. *)
Definition down : World :=
  world (full_service [bound_port "port-8" "10.0.0.5"] [])
        (λ _, Some 503).


Definition cached_record (id network : string) : VIF :=
  {| vif_id := id; vif_address := "fa:16:3e:00:00:02";
     vif_network := {| nm_id := network; nm_bridge := None;
                       nm_injected := false; nm_label := network;
                       nm_tenant_id := "tenant"; nm_subnets := [];
                       nm_should_create_bridge := None |};
     vif_type := None; vif_ovs_interfaceid := None;
     vif_devname := Some "tapport-8" |}.

Definition instance_with_cache (cache : list VIF) : Instance :=
  {| uuid := "vm-1"; display_name := "vm"; project_id := "tenant";
     availability_zone := "nova"; host := Some "host-1"; rxtx_factor := None;
     info_cache_network_info := cache |}.

(** The cache lists the port on net-a. *)
Definition known : Instance :=
  instance_with_cache [cached_record "port-8" "net-a"].

(** The cache lists a port on net-z. *)
Definition on_hidden_network : Instance :=
  instance_with_cache [cached_record "port-z" "net-z"].

Definition hidden : World :=
  world (service [port_on_hidden_network] []) no_fault.

(** The floating ip of the project is bound to a port of another one. *)
Definition bound_elsewhere : World :=
  world (service [bound_port "port-8" "10.0.0.5"; foreign_port]
                 [floating "fip-1" "172.24.4.1" (Some "port-x")]) no_fault.

Definition public : Network :=
  {| net_id := "public"; net_name := ""; net_tenant_id := "admin";
     net_shared := true; net_subnets := [];
     net_port_security_enabled := None |}.

Definition pools : gmap string Network := {[ "public" := public ]}.

(** The world an association leaves. *)
Definition associated : World :=
  (associate_floating_ip instance "172.24.4.1" "10.0.0.5" unbound).2.

Definition agents : list Agent :=
  [ {| agent_type := "dhcp"; agent_alive := true; agent_host := "h1" |};
    {| agent_type := "l3"; agent_alive := false; agent_host := "h2" |};
    {| agent_type := "ovs"; agent_alive := true; agent_host := "h1" |} ].

End Scene.


(** * Reasoning about computations *)

Lemma bind_eq {A B} (m : M A) (f : A → M B) (w : World) :
  (m ≫= f) w
  = match m w with
    | (inl e, w') => (inl e, w')
    | (inr a, w') => f a w'
    end.
Proof. reflexivity. Qed.

Lemma try_except_eq {A} (body : M A) (handler : exn → M A) (w : World) :
  try_except body handler w
  = match body w with
    | (inl e, w') => handler e w'
    | (inr a, w') => (inr a, w')
    end.
Proof. unfold try_except. by destruct (body w) as [[?|?] ?]. Qed.

(** Split a hypothesis at its leading bind. *)
Ltac bind_in H :=
  match type of H with
  | (?m ≫= ?f) ?w = _ =>
      let E := fresh "E" in
      rewrite (bind_eq m f w) in H;
      destruct (m w) as [[?e|?a] ?w] eqn:E
  end.

(** Put the left-hand side of an equation in normal form, so that the
    right-hand side can be read off it. *)
Ltac run_lhs :=
  match goal with
  | |- ?lhs = _ => let v := eval vm_compute in lhs in change lhs with v
  end.

Lemma truthy_nonempty (s : string) : s ≠ "" → truthy s = true.
Proof. intros. by apply bool_decide_eq_true_2. Qed.

Lemma filter_ext_Forall {B} (f g : B → bool) (l : list B) :
  Forall (λ x, f x = g x) l → List.filter f l = List.filter g l.
Proof.
  induction 1 as [|x l Hx _ IH]; [done|]. cbn. by rewrite Hx, IH.
Qed.

Lemma filter_nil_Forall {A} (p : A → bool) (l : list A) :
  Forall (λ x, p x = false) l → List.filter p l = [].
Proof. induction 1 as [|x l Hx _ IH]; [done|]. cbn. by rewrite Hx. Qed.





Lemma filter_twice {A} (f g : A → bool) (l : list A) :
  List.filter f (List.filter g l) = List.filter (λ x, g x && f x) l.
Proof.
  induction l as [|x l IH]; [done|]. cbn.
  destruct (g x); cbn; [|done]. destruct (f x); by rewrite IH.
Qed.


(** ** Calls *)

Lemma new_events_app w w' evs :
  trace w' = trace w ++ evs → new_events w w' = evs.
Proof. unfold new_events. intros ->. by rewrite drop_app_length. Qed.

Lemma call_query_eq {A} (client : Client) (c : Call) (f : Remote → A) w :
  call client c (λ _, Returned) (query f) w
  = match fault w (length (trace w)) with
    | Some code =>
        (inl (QuantumClientException code),
         log (event client c (Raised (QuantumClientException code))) w)
    | None => (inr (f (remote w)), log (event client c Returned) w)
    end.
Proof. unfold call, query. by destruct (fault w _). Qed.

Lemma call_trace {A} client c out (op : Remote → exn + A * Remote) w :
  ∃ o, trace (call client c out op w).2 = trace w ++ [event client c o].
Proof.
  unfold call. destruct (fault w _); [by eexists|].
  destruct (op (remote w)) as [?|[? ?]]; by eexists.
Qed.

Lemma call_run {A} client c out (op : Remote → exn + A * Remote) w :
  ∃ o, trace (call client c out op w).2 = trace w ++ [event client c o]
       ∧ self (call client c out op w).2 = self w
       ∧ match (call client c out op w).1 with
         | inl e =>
             o = Raised e
             ∧ (fault w (length (trace w)) = None → op (remote w) = inl e)
             ∧ (∀ code, fault w (length (trace w)) = Some code →
                        e = QuantumClientException code)
         | inr a => o = out a
         end.
Proof.
  unfold call. destruct (fault w _) as [code|].
  { eexists. split; [done|]. split; [done|]. cbn. split; [done|].
    split; [done|]. by intros ? [= <-]. }
  destruct (op (remote w)) as [e|[a r']].
  - eexists. split; [done|]. split; [done|]. cbn. by repeat split.
  - eexists. split; [done|]. split; [done|]. done.
Qed.

(** ** What a computation adds to the log and leaves of the service *)

Section emits.
Context {A B : Type} (P : Event → Prop).

Lemma emits_ret (a : A) : emits P (mret a).
Proof. intros w. exists []. by rewrite app_nil_r. Qed.

Lemma emits_raise (e : exn) : emits P (raise e : M A).
Proof. intros w. exists []. by rewrite app_nil_r. Qed.

Lemma emits_lift (r : exn + A) : emits P (lift r).
Proof. intros w. exists []. by rewrite app_nil_r. Qed.

Lemma emits_get_self : emits P get_self.
Proof. intros w. exists []. by rewrite app_nil_r. Qed.

Lemma emits_put_self a : emits P (put_self a).
Proof. intros w. exists []. by rewrite app_nil_r. Qed.

Lemma emits_time : emits P time_time.
Proof. intros w. exists []. by rewrite app_nil_r. Qed.

Lemma emits_bind (m : M A) (f : A → M B) :
  emits P m → (∀ a, emits P (f a)) → emits P (m ≫= f).
Proof.
  intros Hm Hf w. rewrite bind_eq. destruct (Hm w) as (evs&Ht&Hp).
  destruct (m w) as [[e|a] w1]; simpl in *; [by exists evs|].
  destruct (Hf a w1) as (evs'&Ht'&Hp'). exists (evs ++ evs').
  rewrite Ht', Ht, <-app_assoc. split; [done|]. by apply Forall_app.
Qed.

Lemma emits_try_except (body : M A) (handler : exn → M A) :
  emits P body → (∀ e, emits P (handler e)) → emits P (try_except body handler).
Proof.
  intros Hm Hf w. rewrite try_except_eq. destruct (Hm w) as (evs&Ht&Hp).
  destruct (body w) as [[e|a] w1]; simpl in *; [|by exists evs].
  destruct (Hf e w1) as (evs'&Ht'&Hp'). exists (evs ++ evs').
  rewrite Ht', Ht, <-app_assoc. split; [done|]. by apply Forall_app.
Qed.

Lemma emits_call client c out (op : Remote → exn + A * Remote) :
  (∀ o, P (event client c o)) → emits P (call client c out op).
Proof.
  intros Hp w. destruct (call_trace client c out op w) as (o&Ho).
  exists [event client c o]. split; [done|]. by constructor.
Qed.

End emits.

Lemma emits_weaken {A} (P Q : Event → Prop) (m : M A) :
  (∀ ev, P ev → Q ev) → emits P m → emits Q m.
Proof.
  intros Himp Hm w. destruct (Hm w) as (evs&Ht&Hp). exists evs.
  split; [done|]. eapply Forall_impl; eauto.
Qed.

Lemma emits_for_each {A} (P : Event → Prop) (l : list A)
    (body : A → M unit) :
  (∀ x, emits P (body x)) → emits P (for_each l body).
Proof.
  intros Hb. induction l as [|x l IH]; simpl; [apply emits_ret|].
  apply emits_bind; [apply Hb|]. intros []. apply IH.
Qed.

Lemma emits_fold_each {A S} (P : Event → Prop) (l : list A) (s : S)
    (body : S → A → M S) :
  (∀ s x, emits P (body s x)) → emits P (fold_each l s body).
Proof.
  intros Hb. revert s. induction l as [|x l IH]; intros s; simpl;
    [apply emits_ret|].
  apply emits_bind; [apply Hb|]. intros s'. apply IH.
Qed.

Lemma emits_map_each {A B} (P : Event → Prop) (l : list A)
    (body : A → M B) :
  (∀ x, emits P (body x)) → emits P (map_each l body).
Proof.
  intros Hb. induction l as [|x l IH]; simpl; [apply emits_ret|].
  apply emits_bind; [apply Hb|]. intros y.
  apply emits_bind; [apply IH|]. intros ys. apply emits_ret.
Qed.

Section keeps.
Context {A B : Type}.

Lemma keeps_ret (a : A) : keeps (mret a).
Proof. done. Qed.

Lemma keeps_raise (e : exn) : keeps (raise e : M A).
Proof. done. Qed.

Lemma keeps_lift (r : exn + A) : keeps (lift r).
Proof. done. Qed.

Lemma keeps_get_self : keeps get_self.
Proof. done. Qed.

Lemma keeps_put_self a : keeps (put_self a).
Proof. done. Qed.

Lemma keeps_time : keeps time_time.
Proof. done. Qed.

Lemma keeps_bind (m : M A) (f : A → M B) :
  keeps m → (∀ a, keeps (f a)) → keeps (m ≫= f).
Proof.
  intros Hm Hf w. rewrite bind_eq. specialize (Hm w).
  destruct (m w) as [[e|a] w1]; simpl in *; [done|].
  by rewrite Hf.
Qed.

Lemma keeps_try_except (body : M A) (handler : exn → M A) :
  keeps body → (∀ e, keeps (handler e)) → keeps (try_except body handler).
Proof.
  intros Hm Hf w. rewrite try_except_eq. specialize (Hm w).
  destruct (body w) as [[e|a] w1]; simpl in *; [|done].
  by rewrite Hf.
Qed.

Lemma keeps_query client c (f : Remote → A) :
  keeps (call client c (λ _, Returned) (query f)).
Proof. intros w. rewrite call_query_eq. by destruct (fault w _). Qed.

End keeps.

Lemma keeps_show_port client id : keeps (show_port client id).
Proof.
  intros w. unfold show_port, call, remote_show_port.
  destruct (fault w _); [done|]. by destruct (List.find _ _).
Qed.

Lemma keeps_fold_each {A S} (l : list A) (s : S) (body : S → A → M S) :
  (∀ s x, keeps (body s x)) → keeps (fold_each l s body).
Proof.
  intros Hb. revert s. induction l as [|x l IH]; intros s; simpl;
    [apply keeps_ret|].
  apply keeps_bind; [apply Hb|]. intros s'. apply IH.
Qed.

Lemma keeps_map_each {A B} (l : list A) (body : A → M B) :
  (∀ x, keeps (body x)) → keeps (map_each l body).
Proof.
  intros Hb. induction l as [|x l IH]; simpl; [apply keeps_ret|].
  apply keeps_bind; [apply Hb|]. intros y.
  apply keeps_bind; [apply IH|]. intros ys. apply keeps_ret.
Qed.

Create HintDb frame discriminated.
#[export] Hint Resolve emits_ret emits_raise emits_lift emits_get_self
  emits_put_self emits_time keeps_ret keeps_raise keeps_lift keeps_get_self
  keeps_put_self keeps_time keeps_query keeps_show_port : frame.

(** Decompose the goal along the structure of the computation. *)
Ltac frame_step :=
  match goal with
  | |- emits _ (_ ≫= _) => apply emits_bind; [|intros ?]
  | |- keeps (_ ≫= _) => apply keeps_bind; [|intros ?]
  | |- emits _ (try_except _ _) => apply emits_try_except; [|intros ?]
  | |- keeps (try_except _ _) => apply keeps_try_except; [|intros ?]
  | |- emits _ (fold_each _ _ _) => apply emits_fold_each; intros ? ?
  | |- keeps (fold_each _ _ _) => apply keeps_fold_each; intros ? ?
  | |- emits _ (map_each _ _) => apply emits_map_each; intros ?
  | |- keeps (map_each _ _) => apply keeps_map_each; intros ?
  | |- emits _ (for_each _ _) => apply emits_for_each; intros ?
  | |- emits _ (call _ _ _ _) => apply emits_call; intros ?; by intros []
  | |- emits _ (if ?b then _ else _) => destruct b
  | |- keeps (if ?b then _ else _) => destruct b
  | |- emits _ (match ?x with _ => _ end) => destruct x
  | |- keeps (match ?x with _ => _ end) => destruct x
  | |- _ => by auto with frame
  end.

Ltac frame := repeat frame_step.

(** * The ordering routine *)

Section sort_keyed_facts.
Context {A : Type}.
Implicit Types (l : list (nat * A)) (kx : nat * A).

Lemma insert_keyed_perm kx l : insert_keyed kx l ≡ₚ kx :: l.
Proof.
  induction l as [|ky l IH]; simpl; [done|].
  case_decide; [done|]. rewrite IH. apply Permutation_swap.
Qed.

Lemma sort_keyed_perm l : sort_keyed l ≡ₚ l.
Proof.
  induction l as [|kx l IH]; simpl; [done|].
  rewrite insert_keyed_perm. by f_equiv.
Qed.

Lemma insert_keyed_sorted kx l :
  StronglySorted key_le l → StronglySorted key_le (insert_keyed kx l).
Proof.
  induction 1 as [|ky l Hl IH Hky]; simpl.
  - repeat constructor.
  - case_decide.
    + constructor; [by constructor|].
      constructor; [done|].
      eapply Forall_impl; [exact Hky|]. unfold key_le. intros; simpl in *; lia.
    + constructor; [done|]. rewrite insert_keyed_perm.
      constructor; [unfold key_le; lia|done].
Qed.

Lemma sort_keyed_sorted l : StronglySorted key_le (sort_keyed l).
Proof.
  induction l; simpl; [constructor|]. by apply insert_keyed_sorted.
Qed.

(** The sort is stable: elements of equal key keep their order. *)
Lemma insert_keyed_stable (n : nat) kx l :
  List.filter (λ x, bool_decide (x.1 = n)) (insert_keyed kx l)
  = List.filter (λ x, bool_decide (x.1 = n)) (kx :: l).
Proof.
  induction l as [|ky l IH]; [done|].
  cbn [insert_keyed]. case_decide; [done|].
  cbn [List.filter] in *. rewrite IH.
  repeat case_bool_decide; try done; lia.
Qed.

Lemma sort_keyed_stable (n : nat) l :
  List.filter (λ x, bool_decide (x.1 = n)) (sort_keyed l)
  = List.filter (λ x, bool_decide (x.1 = n)) l.
Proof.
  induction l as [|kx l IH]; [done|].
  cbn [sort_keyed foldr]. rewrite insert_keyed_stable.
  cbn [List.filter]. fold (sort_keyed l). by rewrite IH.
Qed.

End sort_keyed_facts.

Section list_index_facts.
Context {K : Type} `{EqDecision K}.

Lemma list_index_Some (x : K) (p : list K) n :
  list_index x p = Some n → p !! n = Some x.
Proof.
  revert n. induction p as [|y p IH]; intros n; simpl; [done|].
  case_decide as Hy; [intros [= <-]; by subst|].
  destruct (list_index x p) eqn:E; [|done]. intros [= <-]. by apply IH.
Qed.

Lemma list_index_is_Some (x : K) (p : list K) :
  is_Some (list_index x p) ↔ x ∈ p.
Proof.
  induction p as [|y p IH]; simpl.
  - split; [by intros [? ?]|by intros ?%elem_of_nil].
  - case_decide as Hy.
    + subst. split; [intros _; left|by eauto].
    + rewrite fmap_is_Some, IH. split; [by right|].
      intros [?|?]%elem_of_cons; [congruence|done].
Qed.

Lemma list_index_inj (x y : K) (p : list K) n :
  list_index x p = Some n → list_index y p = Some n → x = y.
Proof.
  intros Hx%list_index_Some Hy%list_index_Some. congruence.
Qed.

End list_index_facts.

Section ordering_facts.
Context {A K : Type} `{EqDecision K}.
Variable accessor : A → K.
Variable preferred : list K.

Lemma keyed_Some (i : A) :
  accessor i ∈ preferred →
  keyed accessor preferred i = Some (tag accessor preferred i).
Proof.
  intros [n Hn]%list_index_is_Some.
  unfold keyed, tag, position. by rewrite Hn.
Qed.

Lemma keyed_None (i : A) :
  accessor i ∉ preferred → keyed accessor preferred i = None.
Proof.
  intros Hi. unfold keyed.
  destruct (list_index (accessor i) preferred) eqn:Hn; [|done].
  destruct Hi. apply list_index_is_Some. eauto.
Qed.

Lemma mapM_keyed_Some (l : list A) :
  Forall (λ i, accessor i ∈ preferred) l →
  mapM (keyed accessor preferred) l = Some (tag accessor preferred <$> l).
Proof.
  induction 1 as [|i l Hi _ IH]; [done|].
  cbn [mapM]. rewrite keyed_Some by done. cbn.
  change (mapM (keyed accessor preferred) l
            ≫= (λ k, mret (tag accessor preferred i :: k))
          = Some (tag accessor preferred i :: (tag accessor preferred <$> l))).
  by rewrite IH.
Qed.

Lemma mapM_keyed_None (l : list A) :
  ¬ Forall (λ i, accessor i ∈ preferred) l →
  mapM (keyed accessor preferred) l = None.
Proof.
  intros Hl. apply mapM_None_2.
  apply not_Forall_Exists in Hl; [|intros i; apply _].
  eapply Exists_impl; [exact Hl|]. intros i Hi. by apply keyed_None.
Qed.

Lemma tagged_sort (l : list A) :
  Forall (tagged accessor preferred)
         (sort_keyed (tag accessor preferred <$> l)).
Proof.
  rewrite sort_keyed_perm. apply Forall_fmap, Forall_forall. by intros.
Qed.

Lemma sort_by_position_perm (l : list A) :
  sort_by_position accessor preferred l ≡ₚ l.
Proof.
  unfold sort_by_position. rewrite sort_keyed_perm, <-list_fmap_compose.
  by rewrite list_fmap_id.
Qed.

Lemma sorted_untag (L : list (nat * A)) :
  StronglySorted key_le L → Forall (tagged accessor preferred) L →
  StronglySorted
    (λ a b, position accessor preferred a ≤ position accessor preferred b)
    (snd <$> L).
Proof.
  induction 1 as [|x L HL IH Hx]; intros Ht; [constructor|].
  apply Forall_cons in Ht as [Hx' Ht]. cbn. constructor; [by apply IH|].
  apply Forall_fmap, Forall_forall. intros y Hy.
  rewrite Forall_forall in Hx, Ht. specialize (Hx y Hy). specialize (Ht y Hy).
  unfold key_le, tagged in *. simpl. lia.
Qed.

Lemma sort_by_position_sorted (l : list A) :
  StronglySorted
    (λ a b, position accessor preferred a ≤ position accessor preferred b)
    (sort_by_position accessor preferred l).
Proof. apply sorted_untag; [apply sort_keyed_sorted|apply tagged_sort]. Qed.

Lemma filter_untag (n : nat) (L : list (nat * A)) :
  Forall (tagged accessor preferred) L →
  List.filter (λ i, bool_decide (position accessor preferred i = n))
              (snd <$> L)
  = snd <$> List.filter (λ x, bool_decide (x.1 = n)) L.
Proof.
  induction 1 as [|x L Hx _ IH]; [done|].
  cbn. rewrite IH. unfold tagged in Hx.
  repeat case_bool_decide; try done; congruence.
Qed.

Lemma sort_by_position_stable (n : nat) (l : list A) :
  List.filter (λ i, bool_decide (position accessor preferred i = n))
              (sort_by_position accessor preferred l)
  = List.filter (λ i, bool_decide (position accessor preferred i = n)) l.
Proof.
  unfold sort_by_position.
  rewrite filter_untag by apply tagged_sort.
  rewrite sort_keyed_stable, <-filter_untag.
  - by rewrite <-list_fmap_compose, list_fmap_id.
  - apply Forall_fmap, Forall_forall. by intros.
Qed.

Lemma same_id_same_position (k : K) (n : nat) (l : list A) :
  list_index k preferred = Some n →
  Forall (λ i, accessor i ∈ preferred) l →
  List.filter (λ i, bool_decide (accessor i = k)) l
  = List.filter (λ i, bool_decide (position accessor preferred i = n)) l.
Proof.
  intros Hk Hl. apply filter_ext_Forall.
  eapply Forall_impl; [exact Hl|]. intros i Hi. cbn beta.
  apply list_index_is_Some in Hi as [m Hm].
  unfold position. rewrite Hm. cbn.
  apply bool_decide_ext. split.
  - intros <-. congruence.
  - intros ->. eapply list_index_inj; eauto.
Qed.

(** Elements carrying the same id keep their relative order. *)
Lemma sort_by_position_stable_id (k : K) (l : list A) :
  Forall (λ i, accessor i ∈ preferred) l →
  List.filter (λ i, bool_decide (accessor i = k))
              (sort_by_position accessor preferred l)
  = List.filter (λ i, bool_decide (accessor i = k)) l.
Proof.
  intros Hl.
  assert (Hs : Forall (λ i, accessor i ∈ preferred)
                      (sort_by_position accessor preferred l))
    by by rewrite sort_by_position_perm.
  destruct (list_index k preferred) as [n|] eqn:Hk.
  - rewrite !(same_id_same_position k n) by done.
    apply sort_by_position_stable.
  - assert (Hno : ∀ l', Forall (λ i, accessor i ∈ preferred) l' →
               List.filter (λ i, bool_decide (accessor i = k)) l' = []).
    { induction 1 as [|i l' Hi _ IH]; [done|]. cbn.
      case_bool_decide as Hik; [|done]. subst k.
      apply list_index_is_Some in Hi as [m Hm]. congruence. }
    by rewrite !Hno.
Qed.

Lemma ordering_sorts (unordered : list A) :
  preferred ≠ [] →
  Forall (λ i, accessor i ∈ preferred) unordered →
  _ensure_requested_network_ordering accessor unordered preferred
  = inr (sort_by_position accessor preferred unordered).
Proof.
  intros Hp Hl. unfold _ensure_requested_network_ordering.
  destruct preferred as [|p ps] eqn:E; [done|]. rewrite <-E in *.
  cbn [truthy truthy_list]. rewrite E at 1. cbn.
  by rewrite mapM_keyed_Some.
Qed.

Lemma ordering_raises (unordered : list A) :
  preferred ≠ [] →
  ¬ Forall (λ i, accessor i ∈ preferred) unordered →
  _ensure_requested_network_ordering accessor unordered preferred
  = inl ValueError.
Proof.
  intros Hp Hl. unfold _ensure_requested_network_ordering.
  destruct preferred as [|p ps] eqn:E; [done|]. rewrite <-E in *.
  rewrite E at 1. cbn.
  by rewrite mapM_keyed_None.
Qed.

Lemma ordering_none (unordered : list A) :
  preferred = [] →
  _ensure_requested_network_ordering accessor unordered preferred
  = inr unordered.
Proof. intros ->. done. Qed.

End ordering_facts.

(** An element whose id is not in the preferred list makes
    [preferred.index] raise: the routine does not return. *)
Lemma ordering_fails_on_unlisted_id :
  ¬ ordering_keeps_unlisted (λ id : string, id) ["net-b"] ["net-a"].
Proof. intros H. destruct H as (sorted&Hrun&_); [done|]. discriminate Hrun. Qed.

(** C5 (amended).  With a non-empty preferred list: when the id of every
    element occurs in it, the routine leaves the list a permutation of
    itself, sorted on the position of the first occurrence of each id in the
    preferred list, elements of the same id in their original relative
    order; when the id of some element does not occur in it, the routine
    raises ValueError. *)
Theorem ordering_sorts_listed_ids {A K} `{EqDecision K} (accessor : A → K)
    (unordered : list A) (preferred : list K) :
  preferred ≠ [] →
  (Forall (λ i, accessor i ∈ preferred) unordered →
   ∃ sorted,
     _ensure_requested_network_ordering accessor unordered preferred
     = inr sorted
     ∧ sorted ≡ₚ unordered
     ∧ StronglySorted
         (λ a b, position accessor preferred a
                 ≤ position accessor preferred b) sorted
     ∧ ∀ k, List.filter (λ i, bool_decide (accessor i = k)) sorted
            = List.filter (λ i, bool_decide (accessor i = k)) unordered)
  ∧ (¬ Forall (λ i, accessor i ∈ preferred) unordered →
     _ensure_requested_network_ordering accessor unordered preferred
     = inl ValueError).
Proof.
  intros Hp. split.
  - intros Hall. exists (sort_by_position accessor preferred unordered).
    split; [by apply ordering_sorts|].
    split; [apply sort_by_position_perm|].
    split; [apply sort_by_position_sorted|].
    intros k. by apply sort_by_position_stable_id.
  - by apply ordering_raises.
Qed.

Lemma ordering_sorts_listed_ids_witness :
  ∃ sorted,
    _ensure_requested_network_ordering (λ id : string, id)
      ["net-b"; "net-a"; "net-b"] ["net-a"; "net-b"]
    = inr sorted
    ∧ sorted ≡ₚ ["net-b"; "net-a"; "net-b"].
Proof.
  destruct (ordering_sorts_listed_ids (λ id : string, id)
              ["net-b"; "net-a"; "net-b"] ["net-a"; "net-b"])
    as [Hok _]; [done|].
  destruct Hok as (sorted&Hrun&Hperm&_).
  - repeat constructor.
  - by exists sorted.
Defined.

Example ordering_of_four :
  _ensure_requested_network_ordering (λ id : string, id)
    ["net-b"; "net-c"; "net-a"; "net-b"] ["net-a"; "net-b"; "net-c"]
  = inr ["net-a"; "net-b"; "net-b"; "net-c"].
Proof. reflexivity. Qed.

(** * The extension cache *)

Lemma later_refl w : later w w.
Proof. by repeat split. Qed.

Lemma later_trans w1 w2 w3 : later w1 w2 → later w2 w3 → later w1 w3.
Proof.
  unfold later. intros (?&?&?&?&?&?) (?&?&?&?&?&?).
  repeat split; try congruence. lia.
Qed.

Lemma later_tick w : later w (tick w).
Proof. repeat split; simpl; lia. Qed.

Section cache.
Variable CONF : Config.
Variable imports : Imports.

Lemma fresh_at_later t0 w w' :
  later w w' → fresh_at CONF t0 w → fresh_at CONF t0 w'.
Proof.
  intros (?&Hs&?&?&Hc&?) (Hl&?&Hn). repeat split; [congruence|done|].
  intros n Hle. rewrite Hc. apply Hn. lia.
Qed.

Lemma has_port_binding_cached w :
  _has_port_binding_extension CONF imports false w
  = (inr (binding imports w), w).
Proof. reflexivity. Qed.

Lemma refresh_hit t0 w :
  fresh_at CONF t0 w →
  _refresh_quantum_extensions_cache CONF w = (inr (), tick w).
Proof.
  intros (Hl&Ht&Hn). unfold _refresh_quantum_extensions_cache.
  rewrite bind_eq. cbn [get_self]. rewrite Hl.
  rewrite bind_eq.
  replace (truthy (Some t0)) with true
    by (symmetry; by apply bool_decide_eq_true).
  cbn [negb]. rewrite bind_eq. cbn [time_time].
  unfold mret, M_ret. cbn [default].
  rewrite bool_decide_eq_false_2; [done|].
  specialize (Hn (readings w)). unfold id. lia.
Qed.

Lemma has_port_binding_hit t0 w b :
  fresh_at CONF t0 w →
  ∃ w', _has_port_binding_extension CONF imports b w
        = (inr (binding imports w), w')
        ∧ later w w'.
Proof.
  intros Hf. unfold _has_port_binding_extension. rewrite bind_eq.
  destruct b.
  - rewrite (refresh_hit t0) by done. eexists; split; [reflexivity|].
    apply later_tick.
  - eexists; split; [reflexivity|apply later_refl].
Qed.

Lemma populate_hit t0 w instance body :
  fresh_at CONF t0 w →
  ∃ body' w', _populate_quantum_extension_values CONF imports instance body w
              = (inr body', w')
              ∧ later w w'.
Proof.
  intros Hf. unfold _populate_quantum_extension_values. rewrite bind_eq.
  rewrite (refresh_hit t0) by done.
  rewrite bind_eq. cbn [get_self]. rewrite bind_eq.
  rewrite has_port_binding_cached.
  eexists _, _; split; [reflexivity|]. apply later_tick.
Qed.

Lemma run_query_hit t0 w q :
  fresh_at CONF t0 w →
  ∃ w', run_query CONF imports q w = (inr (), w') ∧ later w w'.
Proof.
  intros Hf. destruct q as [b| |instance body]; simpl.
  - rewrite bind_eq.
    destruct (has_port_binding_hit t0 w b) as (w'&->&Hl); [done|]. eauto.
  - rewrite (refresh_hit t0) by done. eexists; split; [done|].
    apply later_tick.
  - rewrite bind_eq.
    destruct (populate_hit t0 w instance body) as (b'&w'&->&Hl); [done|].
    eauto.
Qed.

Lemma run_queries_hit t0 qs w :
  fresh_at CONF t0 w →
  ∃ w', for_each qs (run_query CONF imports) w = (inr (), w') ∧ later w w'.
Proof.
  revert w. induction qs as [|q qs IH]; intros w Hf; simpl.
  - eexists; split; [done|apply later_refl].
  - rewrite bind_eq. destruct (run_query_hit t0 w q) as (w1&->&Hl); [done|].
    destruct (IH w1) as (w2&->&Hl2); [by eapply fresh_at_later|].
    eexists; split; [done|]. by eapply later_trans.
Qed.

(** C9.  Once the cache has been filled (its timestamp is set), any
    sequence of capability queries -- the port-binding check with or without
    the refresh flag, the refresh itself, the population of a request body
    -- whose clock readings all fall within the configured interval of that
    timestamp returns without a single remote call: the log, the service and
    the cache are as before.  So the service is queried only when the cache
    was never filled or the interval has elapsed. *)
Theorem extension_cache_hit (qs : list capability_query) (w : World) (t0 : Z) :
  last_quantum_extension_sync (self w) = Some t0 →
  t0 ≠ 0%Z →
  (∀ n, readings w ≤ n →
        (clock w n - t0 < quantum_extension_sync_interval CONF)%Z) →
  ∃ w', for_each qs (run_query CONF imports) w = (inr (), w')
        ∧ trace w' = trace w ∧ remote w' = remote w ∧ self w' = self w.
Proof.
  intros H1 H2 H3.
  destruct (run_queries_hit t0 qs w) as (w'&Hr&Hl); [done|].
  exists w'. destruct Hl as (?&?&?&_). done.
Qed.

(** A refresh that does query the service records the time of the answer. *)
Lemma refresh_records_time w w' :
  _refresh_quantum_extensions_cache CONF w = (inr (), w') →
  trace w' ≠ trace w →
  ∃ n, last_quantum_extension_sync (self w') = Some (clock w n)
       ∧ n < readings w'.
Proof.
  unfold _refresh_quantum_extensions_cache. intros Hrun Hne.
  rewrite bind_eq in Hrun. cbn [get_self] in Hrun. rewrite bind_eq in Hrun.
  destruct (negb _).
  - cbn [mret M_ret] in Hrun. rewrite bind_eq in Hrun.
    unfold list_extensions in Hrun. rewrite call_query_eq in Hrun.
    destruct (fault w _); [done|]. rewrite bind_eq in Hrun.
    cbn in Hrun. injection Hrun as <-. cbn. eauto.
  - rewrite bind_eq in Hrun. cbn [time_time mret M_ret] in Hrun.
    destruct (bool_decide _).
    + rewrite bind_eq in Hrun.
      unfold list_extensions in Hrun. rewrite call_query_eq in Hrun.
      destruct (fault _ _); [done|]. rewrite bind_eq in Hrun.
      cbn in Hrun. injection Hrun as <-. cbn. eauto.
    + injection Hrun as <-. by destruct Hne.
Qed.

End cache.

Lemma extension_cache_hit_witness :
  ∃ w',
    for_each Sample.queries (run_query Sample.CONF Sample.imports)
      Sample.filled
    = (inr (), w')
    ∧ trace w' = [].
Proof.
  destruct (extension_cache_hit Sample.CONF Sample.imports
              Sample.queries Sample.filled 1000%Z)
    as (w'&Hrun&Htrace&_).
  - reflexivity.
  - discriminate.
  - intros n _. reflexivity.
  - exists w'. by split.
Defined.

(** * Fixed ips *)

Lemma ports_carrying_eq instance address r :
  List.filter (port_matches (carrying_search instance address)) (ports r)
  = ports_carrying instance address r.
Proof.
  unfold ports_carrying. apply filter_ext_Forall, Forall_forall.
  intros p _. unfold port_matches. simpl. by rewrite andb_true_r.
Qed.

(** C10.  Provided the list call returns: the method raises
    FixedIpNotFoundForSpecificInstance exactly when the service lists no
    port of the instance carrying the address; otherwise it returns
    normally after exactly one update, that of the first listed port, whose
    fixed ips it rewrites without the address -- whatever the outcome of
    that update, a failure of it included, which leaves the service as it
    was. *)
Theorem remove_fixed_ip_first_match_only (instance : Instance)
    (address : string) (w : World) :
  fault w (length (trace w)) = None →
  let result := remove_fixed_ip_from_instance instance address w in
  let listed :=
    event (get_client false)
          (ListPorts (carrying_search instance address)) Returned in
  (ports_carrying instance address (remote w) = []
   ↔ ∃ w', result
           = (inl (FixedIpNotFoundForSpecificInstance (uuid instance) address),
              w'))
  ∧ ∀ p rest,
      ports_carrying instance address (remote w) = p :: rest →
      ∃ o,
        result.1 = inr ()
        ∧ trace result.2
          = trace w
            ++ [listed;
                event (get_client false)
                      (UpdatePort (port_id p) (without_address address p)) o]
        ∧ ∀ code, fault w (S (length (trace w))) = Some code →
                  o = Raised (QuantumClientException code)
                  ∧ remote result.2 = remote w.
Proof.
  intros Hf result listed.
  assert (Hrun : result
    = match ports_carrying instance address (remote w) with
      | p :: _ =>
          try_except
            (update_port (get_client false) (port_id p)
               (without_address address p))
            (λ _, mret ()) (log listed w)
      | [] =>
          (inl (FixedIpNotFoundForSpecificInstance (uuid instance) address),
           log listed w)
      end).
  { subst result. unfold remove_fixed_ip_from_instance.
    rewrite bind_eq. unfold list_ports. rewrite call_query_eq, Hf.
    fold (carrying_search instance address). rewrite ports_carrying_eq.
    by destruct (ports_carrying instance address (remote w)). }
  split.
  - split.
    + intros E. rewrite Hrun, E. eauto.
    + intros [w' Hw']. rewrite Hrun in Hw'.
      destruct (ports_carrying instance address (remote w)) as [|p rest];
        [done|].
      rewrite try_except_eq in Hw'.
      by destruct (update_port _ _ _ _) as [[?|[]] ?].
  - intros p rest E. rewrite Hrun, E. clear Hrun.
    rewrite try_except_eq. unfold update_port, call.
    replace (length (trace (log listed w))) with (S (length (trace w)))
      by (simpl; rewrite length_app; simpl; lia).
    change (fault (log listed w)) with (fault w).
    destruct (fault w (S (length (trace w)))) as [code|] eqn:Hf2.
    + eexists. split; [done|]. split; [simpl; by rewrite <-app_assoc|].
      by intros ? [= <-].
    + destruct (remote_update_port _ _ _) as [?|[[] ?]];
        (eexists; split; [done|]; split;
         [simpl; by rewrite <-app_assoc|done]).
Qed.

Lemma remove_fixed_ip_first_match_only_witness :
  let result :=
    remove_fixed_ip_from_instance Sample.instance "10.0.0.5"
      Sample.update_fails in
  result.1 = inr ()
  ∧ ev_call <$> trace result.2
    = [ListPorts (carrying_search Sample.instance "10.0.0.5");
       UpdatePort "port-8"
         (without_address "10.0.0.5" (Sample.bound_port "port-8" "10.0.0.5"))]
  ∧ remote result.2 = remote Sample.update_fails.
Proof.
  intros result.
  destruct (remove_fixed_ip_first_match_only Sample.instance "10.0.0.5"
              Sample.update_fails) as [_ Hfirst]; [done|].
  destruct (Hfirst (Sample.bound_port "port-8" "10.0.0.5")
                   [Sample.bound_port "port-9" "10.0.0.5"])
    as (o&Hret&Htrace&Hfail); [done|].
  fold result in Hret, Htrace, Hfail.
  destruct (Hfail 500) as [_ Hremote]; [done|].
  split; [done|]. split; [by rewrite Htrace|done].
Defined.

(** * Floating ips *)

Lemma get_floating_ip_by_address_eq client address w :
  fault w (length (trace w)) = None →
  _get_floating_ip_by_address client address w
  = (match fips_at address (remote w) with
     | [] => inl (FloatingIpNotFoundForAddress address)
     | [fip] => inr fip
     | _ => inl (FloatingIpMultipleFoundForAddress address)
     end,
     log (event client (ListFloatingips (by_floating_address address))
                Returned) w).
Proof.
  intros Hf. unfold _get_floating_ip_by_address. rewrite bind_eq.
  unfold list_floatingips. rewrite call_query_eq, Hf.
  fold (by_floating_address address). fold (fips_at address (remote w)).
  by destruct (fips_at address (remote w)) as [|fip [|fip' rest]].
Qed.

(** C8.  Let the service hold exactly one floating ip record with the
    address, and let the lookup return.  If the record is bound to a port,
    release_floating_ip raises FloatingIpAssociated and the only call
    issued is the lookup: the service is unchanged.  If it is bound to no
    port, the record is deleted (when the delete call goes through): the
    method returns and the record is gone. *)
Theorem release_floating_ip_bound_or_deleted (address : string)
    (fip : FloatingIp) (w : World) :
  fault w (length (trace w)) = None →
  fips_at address (remote w) = [fip] →
  let listed :=
    event (get_client false)
          (ListFloatingips (by_floating_address address)) Returned in
  (∀ port, fip_port_id fip = Some port → port ≠ "" →
     release_floating_ip address w
     = (inl (FloatingIpAssociated address), log listed w))
  ∧ (fip_port_id fip = None →
     fault w (S (length (trace w))) = None →
     ∃ w', release_floating_ip address w = (inr (), w')
           ∧ trace w'
             = trace w
               ++ [listed;
                   event (get_client false) (DeleteFloatingip (fip_id fip))
                         Returned]
           ∧ floatingips (remote w')
             = List.filter (λ f, negb (fip_has_id (fip_id fip) f))
                           (floatingips (remote w))
           ∧ fip ∉ floatingips (remote w')).
Proof.
  intros Hf Hone listed. split.
  - intros port Hport Hne. unfold release_floating_ip.
    rewrite bind_eq, get_floating_ip_by_address_eq, Hone by done.
    rewrite Hport. cbn [truthy truthy_option].
    by rewrite truthy_nonempty.
  - intros Hport Hf2. unfold release_floating_ip.
    rewrite bind_eq, get_floating_ip_by_address_eq, Hone by done.
    rewrite Hport. cbn [truthy truthy_option].
    unfold delete_floatingip, call.
    replace (length (trace (log _ w))) with (S (length (trace w)))
      by (simpl; rewrite length_app; simpl; lia).
    change (fault (log _ w)) with (fault w). rewrite Hf2.
    change (remote (log _ w)) with (remote w).
    unfold remote_delete_floatingip.
    assert (Hin : fip ∈ floatingips (remote w)).
    { apply list_elem_of_In.
      eapply (proj1 (filter_In _ _ _)). unfold fips_at in Hone.
      rewrite Hone. by left. }
    replace (existsb (fip_has_id (fip_id fip)) (floatingips (remote w)))
      with true.
    2:{ symmetry. apply existsb_exists. exists fip.
        split; [by apply list_elem_of_In|].
        unfold fip_has_id. by apply bool_decide_eq_true_2. }
    eexists. split; [reflexivity|]. split; [simpl; by rewrite <-app_assoc|].
    split; [done|]. simpl.
    rewrite list_elem_of_In, filter_In. intros [_ Hneg].
    unfold fip_has_id in Hneg. by rewrite bool_decide_eq_true_2 in Hneg.
Qed.

Lemma release_floating_ip_bound_or_deleted_witness :
  (release_floating_ip "172.24.4.1" Sample.bound).1
  = inl (FloatingIpAssociated "172.24.4.1")
  ∧ remote (release_floating_ip "172.24.4.1" Sample.bound).2
    = remote Sample.bound
  ∧ (release_floating_ip "172.24.4.1" Sample.unbound).1 = inr ()
  ∧ floatingips (remote (release_floating_ip "172.24.4.1" Sample.unbound).2)
    = [].
Proof.
  destruct (release_floating_ip_bound_or_deleted "172.24.4.1"
              (Sample.floating "fip-1" "172.24.4.1" (Some "port-8"))
              Sample.bound) as [Hbound _]; [done|done|].
  destruct (release_floating_ip_bound_or_deleted "172.24.4.1"
              (Sample.floating "fip-1" "172.24.4.1" None)
              Sample.unbound) as [_ Hfree]; [done|done|].
  rewrite (Hbound "port-8") by done.
  destruct Hfree as (w'&->&_&Hleft&_); [done|done|].
  cbn [fst snd]. rewrite Hleft. by repeat split.
Defined.

Lemma has_address_existsb address p :
  existsb (λ ip, bool_decide (ip_address ip = address)) (port_fixed_ips p)
  = has_address address p.
Proof.
  unfold has_address. apply eq_true_iff_eq.
  rewrite existsb_exists, bool_decide_eq_true, list_elem_of_fmap.
  split.
  - intros (ip&Hin&Heq). apply bool_decide_eq_true in Heq.
    exists ip. split; [done|by apply list_elem_of_In].
  - intros (ip&Heq&Hin). exists ip. split; [by apply list_elem_of_In|].
    by apply bool_decide_eq_true.
Qed.

(** The scan keeps the id of the last port that carries the address. *)
Lemma scan_ports_is_last address ps :
  scan_ports_for_address address ps
  = port_id <$> last (List.filter (has_address address) ps).
Proof.
  unfold scan_ports_for_address.
  induction ps as [|p ps IH] using rev_ind; [done|].
  rewrite foldl_app, List.filter_app. cbn [foldl List.filter].
  rewrite has_address_existsb.
  destruct (has_address address p).
  - by rewrite last_snoc.
  - by rewrite app_nil_r.
Qed.

Lemma get_port_id_by_fixed_address_eq client instance address w :
  fault w (length (trace w)) = None →
  _get_port_id_by_fixed_address client instance address w
  = (match last (candidates instance address (remote w)) with
     | Some p =>
         if truthy (port_id p) then inr (port_id p)
         else inl (FixedIpNotFoundForAddress address)
     | None => inl (FixedIpNotFoundForAddress address)
     end,
     log (event client (ListPorts (instance_search instance)) Returned) w).
Proof.
  intros Hf. unfold _get_port_id_by_fixed_address. rewrite bind_eq.
  unfold list_ports. rewrite call_query_eq, Hf.
  fold (instance_search instance). rewrite scan_ports_is_last.
  fold (candidates instance address (remote w)).
  destruct (last (candidates instance address (remote w))) as [p|]; [|done].
  cbn [fmap option_fmap option_map truthy truthy_option default negb].
  by destruct (truthy (port_id p)).
Qed.

Lemma get_port_id_trace client instance address w :
  ∃ o, trace (_get_port_id_by_fixed_address client instance address w).2
       = trace w ++ [event client (ListPorts (instance_search instance)) o].
Proof.
  unfold _get_port_id_by_fixed_address. rewrite bind_eq.
  fold (instance_search instance).
  destruct (call_trace client (ListPorts (instance_search instance))
              (λ _ : list Port, Returned)
              (query (λ r, List.filter
                             (port_matches (instance_search instance))
                             (ports r))) w) as (o&Ho).
  exists o. unfold list_ports.
  destruct (call _ _ _ _ w) as [[?|?] ?]; [done|].
  by destruct (negb _).
Qed.

Lemma get_floating_ip_trace client address w :
  ∃ o, trace (_get_floating_ip_by_address client address w).2
       = trace w
         ++ [event client (ListFloatingips (by_floating_address address)) o].
Proof.
  unfold _get_floating_ip_by_address. rewrite bind_eq.
  fold (by_floating_address address).
  destruct (call_trace client
              (ListFloatingips (by_floating_address address))
              (λ _ : list FloatingIp, Returned)
              (query (λ r, List.filter
                             (fip_matches (by_floating_address address))
                             (floatingips r))) w) as (o&Ho).
  exists o. unfold list_floatingips.
  destruct (call _ _ _ _ w) as [[?|fips] ?]; [done|].
  by destruct fips as [|? [|? ?]].
Qed.

(** With two ports of the instance carrying the fixed address the
    association goes through, on the port listed last. *)
Lemma associate_picks_last_of_two_ports :
  ¬ lookups_fail_closed Sample.instance "172.24.4.1" "10.0.0.5"
      Sample.two_ports.
Proof.
  intros H. destruct H as (e&w'&Hrun).
  - left. vm_compute. discriminate.
  - vm_compute in Hrun. discriminate Hrun.
Qed.

Example associate_binds_last_port :
  let result :=
    associate_floating_ip Sample.instance "172.24.4.1" "10.0.0.5"
      Sample.two_ports in
  result.1 = inr ()
  ∧ fip_port_id <$> floatingips (remote result.2) = [Some "port-9"].
Proof. vm_compute. done. Qed.

Lemma fips_at_update address id port fixed r :
  fips_at address
    (set_floatingips
       ((λ f, if fip_has_id id f then set_fip_port port fixed f else f)
          <$> floatingips r) r)
  = (λ f, if fip_has_id id f then set_fip_port port fixed f else f)
      <$> fips_at address r.
Proof.
  unfold fips_at. cbn [floatingips set_floatingips].
  induction (floatingips r) as [|f fs IH]; [done|].
  cbn [fmap list_fmap List.filter].
  replace (fip_matches (by_floating_address address)
             (if fip_has_id id f then set_fip_port port fixed f else f))
    with (fip_matches (by_floating_address address) f)
    by (by destruct (fip_has_id id f)).
  destruct (fip_matches _ f); cbn [fmap list_fmap]; by rewrite IH.
Qed.

Lemma update_floatingip_run client id port fixed w :
  fault w (length (trace w)) = None →
  existsb (fip_has_id id) (floatingips (remote w)) = true →
  update_floatingip client id port fixed w
  = (inr (),
     log (event client (UpdateFloatingip id port fixed) Returned)
       (set_remote
          (set_floatingips
             ((λ f, if fip_has_id id f then set_fip_port port fixed f else f)
                <$> floatingips (remote w)) (remote w)) w)).
Proof.
  intros Hf Hex. unfold update_floatingip, call, remote_update_floatingip.
  by rewrite Hf, Hex.
Qed.

(** The floating ip is updated only after both lookups have returned,
    with the port and the record they resolved, whatever call fails. *)
Lemma associate_binds_after_lookups instance floating_address fixed_address
    w ev :
  let client := get_client false in
  ev ∈ new_events w
         (associate_floating_ip instance floating_address fixed_address w).2 →
  binds_floating_ip ev →
  ∃ port w1 fip w2,
    _get_port_id_by_fixed_address client instance fixed_address w
    = (inr port, w1)
    ∧ _get_floating_ip_by_address client floating_address w1 = (inr fip, w2)
    ∧ ev_call ev
      = UpdateFloatingip (fip_id fip) (Some port) (Some fixed_address).
Proof.
  intros client Hev Hb. unfold associate_floating_ip in Hev.
  rewrite bind_eq in Hev. fold client in Hev.
  destruct (get_port_id_trace client instance fixed_address w) as (o1&Ht1).
  destruct (_get_port_id_by_fixed_address client instance fixed_address w)
    as [[e|port] w1] eqn:E1; simpl in Ht1.
  { cbn [snd] in Hev. rewrite (new_events_app _ _ _ Ht1) in Hev.
    apply list_elem_of_singleton in Hev as ->. done. }
  rewrite bind_eq in Hev.
  destruct (get_floating_ip_trace client floating_address w1) as (o2&Ht2).
  destruct (_get_floating_ip_by_address client floating_address w1)
    as [[e|fip] w2] eqn:E2; simpl in Ht2; rewrite Ht1, <-app_assoc in Ht2.
  { cbn [snd] in Hev. rewrite (new_events_app _ _ _ Ht2) in Hev.
    set_unfold in Hev. destruct Hev as [->|[->|[]]]; done. }
  exists port, w1, fip, w2. split; [done|]. split; [done|].
  destruct (call_trace client
              (UpdateFloatingip (fip_id fip) (Some port)
                                (Some fixed_address))
              (λ _ : (), Returned)
              (remote_update_floatingip (fip_id fip) (Some port)
                                        (Some fixed_address)) w2)
    as (o3&Ht3).
  unfold update_floatingip in Hev. rewrite Ht2, <-app_assoc in Ht3.
  rewrite (new_events_app _ _ _ Ht3) in Hev.
  set_unfold in Hev. destruct Hev as [->|[->|[->|[]]]]; done.
Qed.

(** C7 (amended).  Let the calls of associate_floating_ip go through.
    When no port of the instance carries the fixed address, it raises
    FixedIpNotFoundForAddress after the port listing alone.  Otherwise the
    port is the last such port the service lists: several candidates are
    no error.  Then, when no floating ip has the floating address, it
    raises FloatingIpNotFoundForAddress, and when several have,
    FloatingIpMultipleFoundForAddress; in both cases the two listings are
    the only calls and the service is left as it was.  When exactly one
    floating ip has the address, the method returns after one update that
    binds this record to the port and the fixed address, and the record
    is the one the service then holds for the floating address.  Whatever
    call fails, an update of a floating ip is only issued after both
    lookups have returned, with what they resolved. *)
Theorem associate_floating_ip_lookups (instance : Instance)
    (floating_address fixed_address : string) (w : World) :
  let client := get_client false in
  let listed_ports :=
    event client (ListPorts (instance_search instance)) Returned in
  let listed_fips :=
    event client (ListFloatingips (by_floating_address floating_address))
          Returned in
  let run :=
    associate_floating_ip instance floating_address fixed_address w in
  (fault w (length (trace w)) = None →
   match last (candidates instance fixed_address (remote w)) with
   | None =>
       run = (inl (FixedIpNotFoundForAddress fixed_address),
              log listed_ports w)
   | Some p =>
       port_id p ≠ "" →
       fault w (S (length (trace w))) = None →
       match fips_at floating_address (remote w) with
       | [] =>
           run = (inl (FloatingIpNotFoundForAddress floating_address),
                  log listed_fips (log listed_ports w))
       | [fip] =>
           fault w (S (S (length (trace w)))) = None →
           run.1 = inr ()
           ∧ new_events w run.2
             = [listed_ports; listed_fips;
                event client
                  (UpdateFloatingip (fip_id fip) (Some (port_id p))
                                    (Some fixed_address)) Returned]
           ∧ fips_at floating_address (remote run.2)
             = [set_fip_port (Some (port_id p)) (Some fixed_address) fip]
           ∧ ports (remote run.2) = ports (remote w)
       | _ =>
           run = (inl (FloatingIpMultipleFoundForAddress floating_address),
                  log listed_fips (log listed_ports w))
       end
   end)
  ∧ (∀ ev, ev ∈ new_events w run.2 →
           binds_floating_ip ev →
           ∃ port w1 fip w2,
             _get_port_id_by_fixed_address client instance fixed_address w
             = (inr port, w1)
             ∧ _get_floating_ip_by_address client floating_address w1
               = (inr fip, w2)
             ∧ ev_call ev
               = UpdateFloatingip (fip_id fip) (Some port)
                                  (Some fixed_address)).
Proof.
  intros client listed_ports listed_fips run.
  split; [|intros ev; apply associate_binds_after_lookups].
  intros Hf0. subst run.
  unfold associate_floating_ip. fold client. rewrite bind_eq.
  rewrite get_port_id_by_fixed_address_eq by done. fold listed_ports.
  destruct (last (candidates instance fixed_address (remote w)))
    as [p|] eqn:Hlast; [|done].
  intros Hid Hf1. rewrite truthy_nonempty by done. rewrite bind_eq.
  rewrite get_floating_ip_by_address_eq
    by (cbn [trace log fault]; by rewrite length_app, Nat.add_1_r).
  fold listed_fips. cbn [remote log].
  destruct (fips_at floating_address (remote w)) as [|fip [|fip' rest]]
    eqn:Hfips; [done| |done].
  intros Hf2.
  assert (Hin : fip ∈ fips_at floating_address (remote w))
    by (rewrite Hfips; left).
  rewrite update_floatingip_run.
  - cbn [fst snd remote log set_remote floatingips set_floatingips ports].
    split; [done|]. split.
    { unfold new_events. cbn [trace log set_remote].
      rewrite <-!app_assoc. by rewrite drop_app_length. }
    split; [|done].
    rewrite fips_at_update, Hfips. cbn [fmap list_fmap].
    unfold fip_has_id. by rewrite bool_decide_eq_true_2.
  - cbn [trace log fault]. by rewrite !length_app, !Nat.add_1_r.
  - cbn [remote log]. apply existsb_exists. exists fip. split.
    + unfold fips_at in Hin.
      by apply list_elem_of_In, filter_In in Hin as [Hin _].
    + unfold fip_has_id. by apply bool_decide_eq_true_2.
Qed.

Lemma associate_floating_ip_lookups_witness :
  let run :=
    associate_floating_ip Sample.instance "172.24.4.1" "10.0.0.5"
      Sample.two_ports in
  run.1 = inr ()
  ∧ fips_at "172.24.4.1" (remote run.2)
    = [set_fip_port (Some "port-9") (Some "10.0.0.5")
         (Sample.floating "fip-1" "172.24.4.1" None)].
Proof.
  intros run.
  destruct (associate_floating_ip_lookups Sample.instance "172.24.4.1"
              "10.0.0.5" Sample.two_ports) as [Hrun _].
  specialize (Hrun eq_refl).
  change (last (candidates Sample.instance "10.0.0.5"
                  (remote Sample.two_ports)))
    with (Some (Sample.bound_port "port-9" "10.0.0.5")) in Hrun.
  specialize (Hrun ltac:(discriminate) eq_refl).
  change (fips_at "172.24.4.1" (remote Sample.two_ports))
    with [Sample.floating "fip-1" "172.24.4.1" None] in Hrun.
  destruct (Hrun eq_refl) as (Hreturned&_&Hbound&_). by split.
Defined.

(** * Security groups *)

(** The scan of the tenant's groups, in closed form. *)
Lemma scan_security_groups_eq sg gs :
  Forall (λ g, sg_id g ≠ "") gs →
  ∀ nm um,
    (∀ s, nm = Some s → s ≠ "") →
    scan_security_groups sg gs nm um
    = let um' := if identified sg gs is [] then um else Some sg in
      match nm, named sg gs with
      | None, [] => inr (None, um')
      | None, [g] => inr (Some (sg_id g), um')
      | Some s, [] => inr (Some s, um')
      | _, _ => inl (NoUniqueMatch sg)
      end.
Proof.
  induction 1 as [|g gs Hg _ IH]; intros nm um Hnm.
  - by destruct nm.
  - cbn [scan_security_groups named identified List.filter].
    fold (named sg gs). fold (identified sg gs).
    match goal with
    | |- context [@bool_decide (sg_name g = sg) ?d] =>
        destruct (@bool_decide (sg_name g = sg) d)
    end.
    + destruct nm as [s|].
      * change (truthy (Some s)) with (truthy s).
        rewrite truthy_nonempty by eauto. done.
      * change (truthy (@None string)) with false.
        cbn [mbind result_bind]. rewrite IH by (by intros ? [= <-]).
        case_bool_decide as Hid.
        -- rewrite Hid. destruct (named sg gs); [|done].
           by destruct (identified sg gs).
        -- by destruct (named sg gs).
    + cbn [mbind result_bind]. rewrite IH by done.
      case_bool_decide as Hid; [|done].
      rewrite Hid.
      destruct nm, (named sg gs) as [|? [|? ?]]; try done;
        by destruct (identified sg gs).
Qed.

Lemma resolve_security_groups_app gs ids pre post :
  resolve_security_groups gs ids (pre ++ post)
  = ids' ← resolve_security_groups gs ids pre;
    resolve_security_groups gs ids' post.
Proof.
  revert ids. induction pre as [|sg pre IH]; intros ids; [done|].
  cbn [app resolve_security_groups].
  destruct (resolve_security_group gs ids sg) as [e|ids']; [done|].
  cbn. apply IH.
Qed.

Lemma resolve_security_group_eq gs ids sg :
  Forall (λ g, sg_id g ≠ "") gs →
  resolve_security_group gs ids sg
  = match named sg gs with
    | [] => if identified sg gs is [] then inl (SecurityGroupNotFound sg)
            else inr (ids ++ [sg])
    | [g] => inr (ids ++ [sg_id g])
    | _ => inl (NoUniqueMatch sg)
    end.
Proof.
  intros Hgs. unfold resolve_security_group.
  rewrite scan_security_groups_eq by done. cbn zeta.
  destruct (named sg gs) as [|g [|g' rest]] eqn:Hn; [| |done].
  - destruct (identified sg gs) as [|g rest] eqn:Hi; [done|].
    cbn -[truthy]. cbn [truthy truthy_option].
    assert (Hg : g ∈ identified sg gs) by (rewrite Hi; left).
    unfold identified in Hg.
    apply list_elem_of_In, filter_In in Hg as [Hin Hid].
    apply bool_decide_eq_true in Hid. subst sg.
    rewrite Forall_forall in Hgs.
    rewrite truthy_nonempty; [done|]. apply Hgs. by apply list_elem_of_In.
  - cbn -[truthy]. cbn [truthy truthy_option].
    assert (Hg : g ∈ named sg gs) by (rewrite Hn; left).
    unfold named in Hg.
    apply list_elem_of_In, filter_In in Hg as [Hin _].
    rewrite Forall_forall in Hgs.
    rewrite truthy_nonempty; [done|]. apply Hgs. by apply list_elem_of_In.
Qed.

(** The resolution of one entry that the loop reaches (the entries before
    it resolve), for groups with non-empty ids. *)
Lemma resolution_of_entry (user_security_groups : list SecurityGroup)
    (before after : list string) (security_group : string)
    (ids : list string) :
  Forall (λ g, sg_id g ≠ "") user_security_groups →
  resolve_security_groups user_security_groups [] before = inr ids →
  let run :=
    resolve_security_groups user_security_groups []
      (before ++ security_group :: after) in
  (1 < length (named security_group user_security_groups) →
   run = inl (NoUniqueMatch security_group))
  ∧ (named security_group user_security_groups = [] →
     identified security_group user_security_groups = [] →
     run = inl (SecurityGroupNotFound security_group))
  ∧ (∀ g other,
       named security_group user_security_groups = [g] →
       other ∈ user_security_groups →
       sg_id other = security_group →
       run = resolve_security_groups user_security_groups
               (ids ++ [sg_id g]) after).
Proof.
  intros Hgs Hbefore run. subst run.
  rewrite resolve_security_groups_app, Hbefore.
  cbn [mbind result_bind resolve_security_groups].
  rewrite resolve_security_group_eq by done.
  split; [|split].
  - intros Hlen.
    by destruct (named security_group user_security_groups)
      as [|? [|? ?]]; simpl in Hlen; try lia.
  - by intros -> ->.
  - by intros g other -> _ _.
Qed.

(** A group named after the id of another one: the name wins. *)
Example name_wins_over_id :
  resolve_security_groups Sample.groups [] ["db"; "sg-1"]
  = inr ["sg-3"; "sg-2"].
Proof. reflexivity. Qed.

Example two_groups_of_one_name :
  resolve_security_groups
    [Sample.group "sg-1" "web"; Sample.group "sg-2" "web"] [] ["web"]
  = inl (NoUniqueMatch "web").
Proof. reflexivity. Qed.

(** * The parts of the module that only read *)

Section reads.
Variable CONF : Config.
Variable imports : Imports.

Lemma get_available_networks_reads project net_ids :
  emits quiet (_get_available_networks project net_ids)
  ∧ keeps (_get_available_networks project net_ids).
Proof.
  unfold _get_available_networks, list_networks. split; frame.
Qed.

Lemma gather_requested_reads quantum macs acc rn :
  emits quiet (gather_requested quantum macs acc rn)
  ∧ keeps (gather_requested quantum macs acc rn).
Proof.
  unfold gather_requested. destruct rn as [[network_id fixed_ip] port].
  unfold show_port at 1. split; frame.
Qed.

Lemma resolve_request_reads instance macs requested security_groups :
  emits quiet (resolve_request instance macs requested security_groups)
  ∧ keeps (resolve_request instance macs requested security_groups).
Proof.
  unfold resolve_request, list_security_groups.
  split; frame;
    try apply gather_requested_reads; try apply get_available_networks_reads.
Qed.

Lemma get_subnets_from_port_reads port :
  emits quiet (_get_subnets_from_port port)
  ∧ keeps (_get_subnets_from_port port).
Proof.
  unfold _get_subnets_from_port, list_subnets, list_ports. split; frame.
Qed.

Lemma get_floating_ips_reads client fixed_ip port :
  emits quiet (_get_floating_ips_by_fixed_and_port client fixed_ip port)
  ∧ keeps (_get_floating_ips_by_fixed_and_port client fixed_ip port).
Proof.
  unfold _get_floating_ips_by_fixed_and_port, list_floatingips.
  split; frame.
Qed.

Lemma build_vif_reads client networks bound port :
  emits quiet (build_vif CONF imports client networks bound port)
  ∧ keeps (build_vif CONF imports client networks bound port).
Proof.
  unfold build_vif.
  destruct (find_network _ _ _ _) as [network_name net].
  split; frame;
    try apply get_floating_ips_reads; try apply get_subnets_from_port_reads.
Qed.

Lemma build_vifs_reads client networks bound ports :
  emits quiet (build_vifs CONF imports client networks bound ports)
  ∧ keeps (build_vifs CONF imports client networks bound ports).
Proof.
  revert bound. induction ports as [|port rest IH]; intros bound; simpl.
  - split; frame.
  - split; frame; try apply build_vif_reads; try apply IH.
Qed.

Lemma get_instance_nw_info_reads instance networks :
  emits quiet (get_instance_nw_info CONF imports instance networks)
  ∧ keeps (get_instance_nw_info CONF imports instance networks).
Proof.
  unfold get_instance_nw_info, _get_instance_nw_info,
    _build_network_info_model, list_ports.
  split; frame;
    try apply get_available_networks_reads; try apply build_vifs_reads.
Qed.

End reads.

Lemma validate_requested_keeps acc rn : keeps (validate_requested acc rn).
Proof.
  unfold validate_requested. destruct rn as [[network_id fixed_ip] port].
  frame.
Qed.

Lemma quiet_created evs : Forall quiet evs → created_of evs = [].
Proof.
  induction 1 as [|ev evs Hev _ IH]; [done|].
  unfold created_of in *. cbn [omap list_omap]. rewrite IH.
  unfold quiet, mutates in Hev. by destruct (ev_call ev).
Qed.

Lemma quiet_touched evs : Forall quiet evs → touched_of evs = [].
Proof.
  induction 1 as [|ev evs Hev _ IH]; [done|].
  unfold touched_of in *. cbn [omap list_omap]. rewrite IH.
  unfold quiet, mutates in Hev. by destruct (ev_call ev).
Qed.

Lemma quiet_not_compensating ev : quiet ev → compensating ev = false.
Proof.
  unfold quiet, mutates, compensating. intros Hev.
  destruct (ev_call ev); try done; by destruct Hev.
Qed.

Lemma created_of_app evs evs' :
  created_of (evs ++ evs') = created_of evs ++ created_of evs'.
Proof. apply omap_app. Qed.

Lemma touched_of_app evs evs' :
  touched_of (evs ++ evs') = touched_of evs ++ touched_of evs'.
Proof. apply omap_app. Qed.

(** * The selector *)

Lemma candidate_networks_requested project net_ids r :
  net_ids ≠ [] →
  Forall (λ n, network_key n ∈ net_ids) (candidate_networks project net_ids r).
Proof.
  intros Hne. unfold candidate_networks.
  destruct net_ids as [|i net_ids]; [done|]. cbn [truthy truthy_list].
  apply Forall_app. split; apply Forall_forall; intros n Hn;
    apply list_elem_of_In, filter_In in Hn as [_ Hn];
    unfold net_matches in Hn; cbn [ns_id optb] in Hn;
    apply andb_true_iff in Hn as [_ Hn]; by apply bool_decide_eq_true in Hn.
Qed.

(** The selector returns the candidates, sorted on the requested ids when
    there are any. *)
Lemma get_available_networks_run project net_ids w nets w' :
  _get_available_networks project net_ids w = (inr nets, w') →
  remote w' = remote w
  ∧ (net_ids = [] → nets = candidate_networks project net_ids (remote w))
  ∧ (net_ids ≠ [] →
     nets = sort_by_position network_key net_ids
              (candidate_networks project net_ids (remote w))).
Proof.
  unfold _get_available_networks, list_networks. intros Hrun.
  rewrite bind_eq, call_query_eq in Hrun.
  destruct (fault w _); [done|].
  rewrite bind_eq, call_query_eq in Hrun.
  destruct (fault _ _); [done|].
  change (remote (log _ w)) with (remote w) in Hrun.
  fold network_key in Hrun.
  fold (candidate_networks project net_ids (remote w)) in Hrun.
  unfold lift in Hrun.
  split; [by injection Hrun as _ <-|]. split.
  - intros ->. by injection Hrun as <- _.
  - intros Hne.
    rewrite ordering_sorts in Hrun;
      [|done|by apply candidate_networks_requested].
    by injection Hrun as <- _.
Qed.

Lemma filter_app_submseteq {A} (p q : A → bool) (l : list A) :
  (∀ x, p x = true → q x = true → False) →
  List.filter p l ++ List.filter q l ⊆+ l.
Proof.
  intros Hpq. induction l as [|x l IH]; [constructor|].
  cbn [List.filter]. destruct (p x) eqn:Hp, (q x) eqn:Hq.
  - by destruct (Hpq x).
  - cbn. by constructor.
  - cbn. rewrite <-Permutation_middle. by constructor.
  - by constructor.
Qed.

Lemma NoDup_sub {A} (l k : list A) : l ⊆+ k → NoDup k → NoDup l.
Proof.
  induction 1 as [|x l1 l2 Hs IH|x y l|x l1 l2 Hs IH|l1 l2 l3 _ IH1 _ IH2];
    intros Hk.
  - done.
  - apply NoDup_cons in Hk as [Hx Hk]. apply NoDup_cons. split; [|auto].
    intros Hin. apply Hx. by eapply elem_of_submseteq.
  - by rewrite (Permutation_swap x y l).
  - apply NoDup_cons in Hk as [_ Hk]. auto.
  - auto.
Qed.

Lemma NoDup_filter_disjoint {A B} (f : A → B) (p q : A → bool) (l : list A) :
  (∀ x, p x = true → q x = true → False) →
  NoDup (f <$> l) →
  NoDup (f <$> (List.filter p l ++ List.filter q l)).
Proof.
  intros Hpq. apply NoDup_sub, fmap_submseteq.
  by apply filter_app_submseteq.
Qed.

(** * The per-network loop *)

Lemma neutral_not_compensating evs :
  Forall neutral evs → Forall (λ ev, compensating ev = false) evs.
Proof.
  intros H. eapply Forall_impl; [exact H|].
  intros ev Hev. unfold compensating. by rewrite Hev.
Qed.

Lemma neutral_created evs : Forall neutral evs → created_of evs = [].
Proof.
  induction 1 as [|ev evs Hev _ IH]; [done|].
  unfold created_of in *. cbn [omap list_omap]. rewrite Hev. exact IH.
Qed.

Lemma neutral_touched evs : Forall neutral evs → touched_of evs = [].
Proof.
  induction 1 as [|ev evs Hev _ IH]; [done|].
  unfold touched_of in *. cbn [omap list_omap]. rewrite Hev. exact IH.
Qed.

Lemma cannot_apply_true security_groups network :
  security_groups ≠ [] →
  net_subnets network = [] ∨ net_port_security_enabled network = Some false →
  cannot_apply security_groups network = true.
Proof.
  intros Hsg Hnet. unfold cannot_apply.
  destruct security_groups; [done|]. cbn.
  destruct Hnet as [->| ->]; [done|]. cbn. by rewrite andb_false_r.
Qed.

Section loop.
Variable CONF : Config.
Variable imports : Imports.

Lemma allocate_ports_app quantum instance ports fixed_ips security_groups
    security_group_ids before after st w :
  allocate_ports CONF imports quantum instance ports fixed_ips
    security_groups security_group_ids (before ++ after) st w
  = (st' ← allocate_ports CONF imports quantum instance ports fixed_ips
             security_groups security_group_ids before st;
     allocate_ports CONF imports quantum instance ports fixed_ips
       security_groups security_group_ids after st') w.
Proof.
  revert st w. induction before as [|network rest IH]; intros st w; [done|].
  cbn [app allocate_ports].
  destruct (cannot_apply security_groups network); [done|].
  rewrite !bind_eq.
  destruct (try_except _ _ w) as [[e|st1] w1]; [done|].
  by rewrite IH, bind_eq.
Qed.

(** C2 (amended).  Let the security-group list be non-empty and take a
    resolved network without subnets, or with port security disabled.  The
    networks before it in the selector's order are processed first; if that
    part of the loop fails, its error is the outcome; if not, the call
    raises SecurityGroupCannotBeApplied in the world that part left, that is
    before any call for this network or for a later one.  When the network
    is the first one, the call has created and updated no port. *)
Theorem security_group_check_per_network (instance : Instance)
    (macs : option (list string)) (requested : list requested_network)
    (security_groups : list string) (w w1 : World) (rq : Requested)
    (before after : list Network) (bad : Network)
    (security_group_ids : list string) :
  resolve_request instance macs requested security_groups w
  = (inr (rq, before ++ bad :: after, security_group_ids), w1) →
  security_groups ≠ [] →
  net_subnets bad = [] ∨ net_port_security_enabled bad = Some false →
  let result :=
    allocate_for_instance CONF imports instance macs requested
      security_groups w in
  result
  = match allocate_ports CONF imports (get_client false) instance
            (rq_ports rq) (rq_fixed rq) security_groups security_group_ids
            before (first_attempt rq) w1 with
    | (inl e, w2) => (inl e, w2)
    | (inr _, w2) => (inl SecurityGroupCannotBeApplied, w2)
    end
  ∧ (before = [] →
     result.1 = inl SecurityGroupCannotBeApplied
     ∧ remote result.2 = remote w
     ∧ Forall quiet (new_events w result.2)).
Proof.
  intros Hreq Hsg Hbad result.
  assert (Hrun : result
    = match allocate_ports CONF imports (get_client false) instance
              (rq_ports rq) (rq_fixed rq) security_groups security_group_ids
              before (first_attempt rq) w1 with
      | (inl e, w2) => (inl e, w2)
      | (inr _, w2) => (inl SecurityGroupCannotBeApplied, w2)
      end).
  { subst result. unfold allocate_for_instance.
    rewrite bind_eq, Hreq. rewrite bind_eq.
    rewrite allocate_ports_app, bind_eq.
    destruct (allocate_ports _ _ _ _ _ _ _ _ before _ w1) as [[e|st] w2];
      [done|].
    cbn [allocate_ports]. by rewrite cannot_apply_true. }
  split; [done|]. intros ->. rewrite Hrun. cbn [allocate_ports mret M_ret].
  cbn [fst snd]. split; [done|].
  destruct (resolve_request_reads instance macs requested security_groups)
    as [He Hk].
  specialize (He w). specialize (Hk w). rewrite Hreq in He, Hk.
  cbn [snd] in He, Hk. split; [done|].
  destruct He as (evs&Ht&Hq). by rewrite (new_events_app _ _ _ Ht).
Qed.

(** ** The compensation *)

Lemma unbind_touched_run quantum id w :
  let b := binding imports w in
  let client := if b then get_client true else quantum in
  ∃ w' o,
    unbind_touched CONF imports quantum id w = (inr (), w')
    ∧ trace w' = trace w ++ [event client (UpdatePort id (unbind_req b)) o]
    ∧ self w' = self w
    ∧ (succeeded (event client (UpdatePort id (unbind_req b)) o) = true →
       ports (remote w')
       = (λ p, if has_id id p then apply_update (unbind_req b) p else p)
           <$> ports (remote w)).
Proof.
  intros b client. unfold unbind_touched.
  rewrite try_except_eq, bind_eq, has_port_binding_cached.
  fold b. fold client. unfold update_port, call.
  destruct (fault w _) as [code|].
  { eexists _, _. split; [done|]. split; [done|]. split; [done|]. done. }
  unfold remote_update_port.
  destruct (existsb _ _).
  - eexists _, _. split; [done|]. split; [done|]. split; [done|]. done.
  - eexists _, _. split; [done|]. split; [done|]. split; [done|]. done.
Qed.

Lemma delete_created_run quantum id w :
  ∃ w' o,
    delete_created quantum id w = (inr (), w')
    ∧ trace w' = trace w ++ [event quantum (DeletePort id) o]
    ∧ self w' = self w
    ∧ (succeeded (event quantum (DeletePort id) o) = true →
       ports (remote w')
       = List.filter (λ p, negb (has_id id p)) (ports (remote w))).
Proof.
  unfold delete_created. rewrite try_except_eq. unfold delete_port, call.
  destruct (fault w _) as [code|].
  { eexists _, _. split; [done|]. split; [done|]. split; [done|]. done. }
  unfold remote_delete_port.
  destruct (existsb _ _).
  - eexists _, _. split; [done|]. split; [done|]. split; [done|]. done.
  - eexists _, _. split; [done|]. split; [done|]. split; [done|]. done.
Qed.

(** Each port left by the unbinding loop is a port that was there, with
    the same id; it has no device if it was touched or had none. *)
Lemma unbind_all quantum touched w :
  let b := binding imports w in
  ∃ w' undo,
    for_each touched (unbind_touched CONF imports quantum) w = (inr (), w')
    ∧ trace w' = trace w ++ undo
    ∧ self w' = self w
    ∧ issued <$> undo = undo_calls quantum b touched []
    ∧ (Forall (λ ev, succeeded ev = true) undo →
       ∀ p', p' ∈ ports (remote w') →
         ∃ p, p ∈ ports (remote w) ∧ port_id p' = port_id p
              ∧ (port_id p ∈ touched → port_device_id p' = None)
              ∧ (port_device_id p = None → port_device_id p' = None)).
Proof.
  revert w. induction touched as [|id rest IH]; intros w b.
  - exists w, []. split; [done|]. split; [by rewrite app_nil_r|].
    split; [done|]. split; [done|]. intros _ p' Hp'. exists p'.
    split; [done|]. split; [done|]. split; [by intros ?%elem_of_nil|done].
  - cbn [for_each]. rewrite bind_eq.
    destruct (unbind_touched_run quantum id w) as (w1&o&->&Ht1&Hs1&Hp1).
    fold b in Ht1, Hp1.
    destruct (IH w1) as (w'&undo&->&Ht&Hs&Hi&Hp).
    assert (Hb : binding imports w1 = b) by (unfold binding, b; by rewrite Hs1).
    rewrite Hb in Hi.
    eexists w', (_ :: undo). split; [done|].
    split; [by rewrite Ht, Ht1, <-app_assoc|].
    split; [congruence|].
    split.
    { unfold undo_calls in *. cbn [fmap list_fmap app]. rewrite app_nil_r in *.
      by rewrite <-Hi. }
    intros [Hok Hoks]%Forall_cons p' Hp'.
    destruct (Hp Hoks p' Hp') as (p1&Hin1&Hid1&Hc1&Hn1).
    rewrite (Hp1 Hok) in Hin1.
    apply list_elem_of_fmap in Hin1 as (p&->&Hin).
    exists p. split; [done|].
    unfold has_id in *. case_bool_decide as Hpid.
    + split; [done|]. split; [|by intros; apply Hn1].
      intros _. by apply Hn1.
    + split; [done|]. split; [|done].
      intros [?|?]%elem_of_cons; [congruence|]. by apply Hc1.
Qed.

(** Each port left by the deleting loop was there and was not created. *)
Lemma delete_all quantum created w :
  ∃ w' undo,
    for_each created (delete_created quantum) w = (inr (), w')
    ∧ trace w' = trace w ++ undo
    ∧ self w' = self w
    ∧ issued <$> undo = (λ id, (admin quantum, DeletePort id)) <$> created
    ∧ (Forall (λ ev, succeeded ev = true) undo →
       ∀ p, p ∈ ports (remote w') →
            p ∈ ports (remote w) ∧ port_id p ∉ created).
Proof.
  revert w. induction created as [|id rest IH]; intros w.
  - exists w, []. split; [done|]. split; [by rewrite app_nil_r|].
    split; [done|]. split; [done|]. intros _ p Hp.
    split; [done|]. by intros ?%elem_of_nil.
  - cbn [for_each]. rewrite bind_eq.
    destruct (delete_created_run quantum id w) as (w1&o&->&Ht1&Hs1&Hp1).
    destruct (IH w1) as (w'&undo&->&Ht&Hs&Hi&Hp).
    eexists w', (_ :: undo). split; [done|].
    split; [by rewrite Ht, Ht1, <-app_assoc|].
    split; [congruence|].
    split; [cbn [fmap list_fmap]; by rewrite <-Hi|].
    intros [Hok Hoks]%Forall_cons p Hin.
    destruct (Hp Hoks p Hin) as (Hin1&Hnot).
    rewrite (Hp1 Hok) in Hin1.
    apply list_elem_of_In, filter_In in Hin1 as [Hin0 Hne].
    split; [by apply list_elem_of_In|].
    intros [?|?]%elem_of_cons; [|done].
    unfold has_id in Hne. by rewrite bool_decide_eq_true_2 in Hne.
Qed.

(** The handler never raises; it issues one call per touched port, then
    one per created port. *)
Lemma compensate_run quantum st w :
  let b := binding imports w in
  ∃ w' undo,
    compensate CONF imports quantum st w = (inr (), w')
    ∧ trace w' = trace w ++ undo
    ∧ self w' = self w
    ∧ issued <$> undo
      = undo_calls quantum b (touched_port_ids st) (created_port_ids st)
    ∧ (Forall (λ ev, succeeded ev = true) undo →
       ∀ p, p ∈ ports (remote w') →
            (port_id p ∉ created_port_ids st)
            ∧ (port_id p ∈ touched_port_ids st → port_device_id p = None)).
Proof.
  intros b. unfold compensate. rewrite bind_eq.
  destruct (unbind_all quantum (touched_port_ids st) w)
    as (w1&undo1&->&Ht1&Hs1&Hi1&Hp1).
  destruct (delete_all quantum (created_port_ids st) w1)
    as (w'&undo2&->&Ht2&Hs2&Hi2&Hp2).
  exists w', (undo1 ++ undo2). split; [done|].
  split; [by rewrite Ht2, Ht1, <-app_assoc|].
  split; [congruence|].
  split.
  { rewrite fmap_app, Hi1, Hi2. unfold undo_calls.
    by rewrite app_nil_r. }
  intros [Hok1 Hok2]%Forall_app p Hin.
  destruct (Hp2 Hok2 p Hin) as [Hin1 Hnot]. split; [done|].
  destruct (Hp1 Hok1 p Hin1) as (p0&_&Hid&Hc&_).
  intros Ht. apply Hc. by rewrite <-Hid.
Qed.

Lemma undo_calls_compensating quantum b touched created undo :
  issued <$> undo = undo_calls quantum b touched created →
  created_of undo = [] ∧ touched_of undo = []
  ∧ Forall (λ ev, compensating ev = true) undo.
Proof.
  intros Hundo.
  assert (Hall : Forall (λ ev, match ev_call ev with
                               | DeletePort _ => True
                               | UpdatePort _ body =>
                                   rq_device_id body = Some None
                               | _ => False
                               end) undo).
  { apply (Forall_fmap issued (λ c, match c.2 with
                                    | DeletePort _ => True
                                    | UpdatePort _ body =>
                                        rq_device_id body = Some None
                                    | _ => False
                                    end) undo).
    rewrite Hundo. unfold undo_calls. apply Forall_app.
    split; apply Forall_fmap, Forall_forall; by intros. }
  clear Hundo. induction Hall as [|ev undo Hev _ (IH1&IH2&IH3)]; [done|].
  unfold created_of, touched_of in *. cbn [omap list_omap].
  destruct (ev_call ev) as [| | | | |id body| | | | | |] eqn:Hcall;
    try done.
  - unfold binds. rewrite Hev.
    split; [done|]. split; [by destruct (ev_outcome ev)|].
    constructor; [|done]. unfold compensating. rewrite Hcall.
    by apply bool_decide_eq_true_2.
  - split; [done|]. split; [done|].
    constructor; [|done]. unfold compensating. by rewrite Hcall.
Qed.

(** ** The [try] block *)

Lemma refresh_run w :
  ∃ evs,
    trace (_refresh_quantum_extensions_cache CONF w).2 = trace w ++ evs
    ∧ Forall neutral evs
    ∧ ∀ e, (_refresh_quantum_extensions_cache CONF w).1 = inl e →
           raised_last e evs.
Proof.
  unfold _refresh_quantum_extensions_cache.
  rewrite bind_eq. cbn [get_self]. rewrite bind_eq.
  set (stale := if negb _ then _ else _).
  assert (Hstale : ∃ b w1, stale w = (inr b, w1) ∧ trace w1 = trace w
                           ∧ fault w1 = fault w).
  { subst stale. destruct (negb _); [by eexists _, _|].
    rewrite bind_eq. by eexists _, _. }
  destruct Hstale as (b&w1&->&Ht1&Hf1).
  destruct b.
  - rewrite bind_eq. unfold list_extensions.
    destruct (call_run (get_client true) ListExtensions
                (λ _ : list Extension, Returned) (query remote_extensions) w1)
      as (o&Ht&_&Hr).
    destruct (call _ _ _ _ w1) as [[e|exts] w2]; cbn [fst snd] in *.
    + exists [event (get_client true) ListExtensions o].
      split; [by rewrite Ht, Ht1|]. split; [by repeat constructor|].
      intros e' [= <-]. destruct Hr as (->&Hop&Hcode).
      destruct (fault w1 (length (trace w1))) as [code|] eqn:Hfault.
      * exists code, (event (get_client true) ListExtensions (Raised e)).
        split; [by apply Hcode|]. done.
      * by specialize (Hop eq_refl).
    + rewrite bind_eq. cbn.
      exists [event (get_client true) ListExtensions o].
      split; [by rewrite Ht, Ht1|]. split; [by repeat constructor|]. done.
  - exists []. split; [by rewrite app_nil_r|]. split; [done|]. done.
Qed.

Lemma populate_run instance body w :
  let run := _populate_quantum_extension_values CONF imports instance body w in
  ∃ evs,
    trace run.2 = trace w ++ evs
    ∧ Forall neutral evs
    ∧ match run.1 with
      | inl e => raised_last e evs
      | inr body' => rq_device_id body' = rq_device_id body
      end.
Proof.
  intros run. subst run. unfold _populate_quantum_extension_values.
  rewrite bind_eq. destruct (refresh_run w) as (evs&Ht&Hn&He).
  destruct (_refresh_quantum_extensions_cache CONF w) as [[e|[]] w1];
    cbn [fst snd] in *.
  { exists evs. split; [done|]. split; [done|]. by apply He. }
  rewrite bind_eq. cbn [get_self]. rewrite bind_eq, has_port_binding_cached.
  exists evs. split; [done|]. split; [done|]. cbn.
  by destruct (binding imports w1), (bool_decide _).
Qed.

(** The last step of the [try] block: one call, the update of the reused
    port or the creation of a new one.  [counted] is what the call adds to
    the lists when it returns. *)
Lemma final_call_run {A} client c (out : A → Outcome)
    (op : Remote → exn + A * Remote) (k : A → Attempt) (st : Attempt)
    (evs : list Event) (w w1 : World) :
  trace w1 = trace w ++ evs →
  Forall neutral evs →
  compensating (event client c Returned) = false →
  (∀ r e, op r = inl e → ∃ code, e = QuantumClientException code) →
  (∀ a, touched_port_ids (k a)
        = touched_port_ids st ++ touched_of [event client c (out a)]
        ∧ created_port_ids (k a)
          = created_port_ids st ++ created_of [event client c (out a)]) →
  let run := (a ← call client c out op; mret (k a)) w1 in
  ∃ forward,
    trace run.2 = trace w ++ forward
    ∧ Forall (λ ev, compensating ev = false) forward
    ∧ match run.1 with
      | inr st' =>
          touched_port_ids st' = touched_port_ids st ++ touched_of forward
          ∧ created_port_ids st' = created_port_ids st ++ created_of forward
      | inl e =>
          touched_of forward = [] ∧ created_of forward = []
          ∧ (e = PortNotFree ∨ raised_last e forward)
      end.
Proof.
  intros Ht Hn Hcomp Hop Hk run. subst run. rewrite bind_eq.
  destruct (call_run client c out op w1) as (o&Ht1&_&Ho).
  exists (evs ++ [event client c o]).
  destruct (call client c out op w1) as [[e|a] w2];
    cbn [fst snd mret M_ret] in *.
  - split; [by rewrite Ht1, Ht, <-app_assoc|].
    destruct Ho as (->&Hfail&Hcode).
    split.
    { apply Forall_app. split; [by apply neutral_not_compensating|].
      by constructor. }
    rewrite touched_of_app, created_of_app, neutral_touched,
      neutral_created by done.
    split; [by destruct c|]. split; [by destruct c|]. right.
    destruct (fault w1 (length (trace w1))) as [code|] eqn:Hfault.
    + eexists code, _. split; [by apply Hcode|]. by rewrite last_snoc.
    + destruct (Hop _ _ (Hfail eq_refl)) as [code ->].
      eexists code, _. split; [done|]. by rewrite last_snoc.
  - split; [by rewrite Ht1, Ht, <-app_assoc|]. subst o.
    split.
    { apply Forall_app. split; [by apply neutral_not_compensating|].
      by constructor. }
    rewrite touched_of_app, created_of_app, neutral_touched,
      neutral_created by done.
    apply Hk.
Qed.

(** One pass through the [try] block. *)
Lemma allocate_port_run quantum instance ports fixed_ips security_group_ids
    network st w :
  let run :=
    allocate_port CONF imports quantum instance ports fixed_ips
      security_group_ids network st w in
  ∃ forward,
    trace run.2 = trace w ++ forward
    ∧ Forall (λ ev, compensating ev = false) forward
    ∧ match run.1 with
      | inr st' =>
          touched_port_ids st' = touched_port_ids st ++ touched_of forward
          ∧ created_port_ids st' = created_port_ids st ++ created_of forward
      | inl e =>
          touched_of forward = [] ∧ created_of forward = []
          ∧ (e = PortNotFree ∨ raised_last e forward)
      end.
Proof.
  intros run. subst run. unfold allocate_port. rewrite bind_eq.
  match goal with
  | |- context [_populate_quantum_extension_values CONF imports instance
                  ?b w] =>
      destruct (populate_run instance b w) as (evs&Ht&Hn&Hr);
      destruct (_populate_quantum_extension_values CONF imports instance b w)
        as [[e|body] w1]
  end; cbn [fst snd] in *.
  { exists evs. split; [done|]. split; [by apply neutral_not_compensating|].
    split; [by apply neutral_touched|]. split; [by apply neutral_created|].
    by right. }
  rewrite bind_eq, has_port_binding_cached.
  destruct (ports !! net_id network) as [port|].
  - unfold update_port.
    apply (final_call_run _ _ _ _ _ st evs w w1 Ht Hn).
    + unfold compensating. cbn. rewrite Hr. by apply bool_decide_eq_false_2.
    + intros r e. unfold remote_update_port.
      destruct (existsb _ _); [done|]. intros [= <-]. eauto.
    + intros []. cbn. unfold binds. rewrite Hr. cbn. by rewrite app_nil_r.
  - rewrite bind_eq.
    destruct (available_macs st) as [[|mac rest]|].
    + exists evs. split; [done|].
      split; [by apply neutral_not_compensating|].
      split; [by apply neutral_touched|]. split; [by apply neutral_created|].
      by left.
    + cbn [mret M_ret]. unfold create_port.
      apply (final_call_run _ _ _ _ _ st evs w w1 Ht Hn).
      * done.
      * intros r e. unfold remote_create_port.
        destruct (fresh _); [|done]. intros [= <-]. eauto.
      * intros created. cbn. by rewrite app_nil_r.
    + cbn [mret M_ret]. unfold create_port.
      apply (final_call_run _ _ _ _ _ st evs w w1 Ht Hn).
      * done.
      * intros r e. unfold remote_create_port.
        destruct (fresh _); [|done]. intros [= <-]. eauto.
      * intros created. cbn. by rewrite app_nil_r.
Qed.

(** ** The loop *)

Lemma allocate_ports_run quantum instance ports fixed_ips security_groups
    security_group_ids nets st w :
  let run :=
    allocate_ports CONF imports quantum instance ports fixed_ips
      security_groups security_group_ids nets st w in
  match run.1 with
  | inr st' =>
      ∃ forward,
        trace run.2 = trace w ++ forward
        ∧ Forall (λ ev, compensating ev = false) forward
        ∧ touched_port_ids st' = touched_port_ids st ++ touched_of forward
        ∧ created_port_ids st' = created_port_ids st ++ created_of forward
  | inl e =>
      e = SecurityGroupCannotBeApplied
      ∨ compensated imports quantum st w run.2 e
  end.
Proof.
  revert st w. induction nets as [|network rest IH]; intros st w run;
    subst run.
  - exists []. cbn. by rewrite !app_nil_r.
  - cbn [allocate_ports].
    destruct (cannot_apply security_groups network); [by left|].
    rewrite bind_eq, try_except_eq.
    destruct (allocate_port_run quantum instance ports fixed_ips
                security_group_ids network st w) as (fwd&Ht&Hc&Hr).
    destruct (allocate_port _ _ _ _ _ _ _ _ _ w) as [[e|st1] w1];
      cbn [fst snd] in *.
    + unfold save_and_reraise_exception. rewrite bind_eq.
      destruct (compensate_run quantum st w1)
        as (w2&undo&->&Ht2&Hs2&Hi2&Hp2).
      cbn [fst snd raise]. right.
      destruct Hr as (Htouched&Hcreated&He).
      exists fwd, undo, st. split; [by rewrite Ht2, Ht, <-app_assoc|].
      split; [done|]. rewrite Htouched, Hcreated, !app_nil_r.
      split; [done|]. split; [done|]. split; [done|].
      split; [|done]. unfold binding in *. by rewrite Hs2.
    + destruct Hr as (Htouched&Hcreated).
      specialize (IH st1 w1). cbn zeta in IH.
      destruct (allocate_ports _ _ _ _ _ _ _ _ rest st1 w1) as [[e|st2] w2];
        cbn [fst snd] in *.
      * destruct IH as [->|IH]; [by left|]. right.
        destruct IH as (fwd'&undo&st'&Ht'&Hc'&Htouched'&Hcreated'&He&Hi&Hp).
        exists (fwd ++ fwd'), undo, st'.
        split; [by rewrite Ht', Ht, <-!app_assoc|].
        split; [by apply Forall_app|].
        rewrite touched_of_app, created_of_app.
        split; [by rewrite Htouched', Htouched, <-app_assoc|].
        split; [by rewrite Hcreated', Hcreated, <-app_assoc|].
        split; [|done].
        destruct He as [->|(code&ev&->&Hlast&Hev)]; [by left|]. right.
        exists code, ev. split; [done|]. split; [|done].
        destruct fwd' as [|ev' fwd'] using rev_ind; [done|].
        rewrite app_assoc, last_snoc. by rewrite last_snoc in Hlast.
      * destruct IH as (fwd'&Ht'&Hc'&Htouched'&Hcreated').
        exists (fwd ++ fwd').
        split; [by rewrite Ht', Ht, <-!app_assoc|].
        split; [by apply Forall_app|].
        rewrite touched_of_app, created_of_app.
        split; [by rewrite Htouched', Htouched, <-app_assoc|].
        by rewrite Hcreated', Hcreated, <-app_assoc.
Qed.

(** A pass of the loop that fails with an error raised inside a [try]
    block: the call fails with that error, after the calls of the
    handler. *)
Lemma loop_failure_rolled_back (instance : Instance)
    (macs : option (list string)) (requested : list requested_network)
    (security_groups : list string) (w w1 w' : World) (rq : Requested)
    (nets : list Network) (security_group_ids : list string) (e : exn) :
  resolve_request instance macs requested security_groups w
  = (inr (rq, nets, security_group_ids), w1) →
  allocate_ports CONF imports (get_client false) instance (rq_ports rq)
    (rq_fixed rq) security_groups security_group_ids nets
    (first_attempt rq) w1
  = (inl e, w') →
  e ≠ SecurityGroupCannotBeApplied →
  allocate_for_instance CONF imports instance macs requested security_groups
    w
  = (inl e, w')
  ∧ ∃ forward undo,
      new_events w1 w' = forward ++ undo
      ∧ Forall (λ ev, compensating ev = false) forward
      ∧ (e = PortNotFree ∨ raised_last e forward)
      ∧ issued <$> undo
        = undo_calls (get_client false) (binding imports w')
            (touched_of forward) (created_of forward)
      ∧ (Forall (λ ev, compensating ev = true → succeeded ev = true)
                (new_events w w') →
         rolled_back (new_events w w') (remote w')).
Proof.
  intros Hreq Hrun He. split.
  { unfold allocate_for_instance. by rewrite bind_eq, Hreq, bind_eq, Hrun. }
  pose proof (proj1 (resolve_request_reads instance macs requested
                       security_groups) w) as (pre&Hpre&Hquiet).
  rewrite Hreq in Hpre. cbn [snd] in Hpre.
  pose proof (allocate_ports_run (get_client false) instance (rq_ports rq)
                (rq_fixed rq) security_groups security_group_ids nets
                (first_attempt rq) w1) as Hspec.
  cbn zeta in Hspec. rewrite Hrun in Hspec. cbn [fst snd] in Hspec.
  destruct Hspec as [->|Hspec]; [done|].
  destruct Hspec as (fwd&undo&st'&Ht&Hc&Htouched&Hcreated&Hlast&Hi&Hp).
  cbn [first_attempt touched_port_ids created_port_ids app]
    in Htouched, Hcreated.
  rewrite Htouched, Hcreated in Hi, Hp.
  exists fwd, undo. rewrite (new_events_app _ _ _ Ht).
  split; [done|]. split; [done|]. split; [done|]. split; [done|].
  assert (Hnew : new_events w w' = pre ++ fwd ++ undo).
  { apply new_events_app. by rewrite Ht, Hpre, <-!app_assoc. }
  rewrite Hnew. intros Hok p Hin.
  apply Forall_app in Hok as [_ [_ Hok]%Forall_app].
  destruct (undo_calls_compensating _ _ _ _ _ Hi) as (Hcr&Hto&Hcomp).
  rewrite !created_of_app, !touched_of_app, Hcr, Hto, !app_nil_r.
  rewrite (quiet_created pre), (quiet_touched pre) by done. cbn [app].
  apply Hp; [|done].
  rewrite Forall_forall in Hok, Hcomp. apply Forall_forall.
  intros ev Hev. apply Hok; [done|]. by apply Hcomp.
Qed.

(** A step that fails makes the loop fail with the error of the step,
    once the handler has run. *)
Lemma failing_step_fails_loop quantum instance ports fixed_ips
    security_groups security_group_ids before network rest st0 st e
    w1 w2 w3 :
  allocate_ports CONF imports quantum instance ports fixed_ips
    security_groups security_group_ids before st0 w1 = (inr st, w2) →
  cannot_apply security_groups network = false →
  allocate_port CONF imports quantum instance ports fixed_ips
    security_group_ids network st w2 = (inl e, w3) →
  ∃ w',
    compensate CONF imports quantum st w3 = (inr (), w')
    ∧ allocate_ports CONF imports quantum instance ports fixed_ips
        security_groups security_group_ids (before ++ network :: rest) st0 w1
      = (inl e, w')
    ∧ e ≠ SecurityGroupCannotBeApplied.
Proof.
  intros Hbefore Hcheck Hstep.
  destruct (compensate_run quantum st w3) as (w'&undo&Hundo&_).
  exists w'. split; [done|]. split.
  - rewrite allocate_ports_app, bind_eq, Hbefore. cbn [allocate_ports].
    rewrite Hcheck, bind_eq, try_except_eq, Hstep.
    unfold save_and_reraise_exception. by rewrite bind_eq, Hundo.
  - pose proof (allocate_port_run quantum instance ports fixed_ips
                  security_group_ids network st w2) as (fwd&_&_&Hr).
    rewrite Hstep in Hr. cbn [fst] in Hr.
    destruct Hr as (_&_&[->|(code&ev&->&_)]); discriminate.
Qed.

(** C1 (amended).  Let the loop have gone through some networks and let a
    step inside the [try] block of the next network raise: the test on the
    security groups that precedes the block has passed, and the update or
    the creation of the port, or what comes before them in the block,
    fails.  Then the handler runs and returns, whatever its own calls do,
    and the call fails with the error of the step, unchanged.  The handler
    issues one update clearing the device (and the host binding, through
    an admin client, if the port-binding extension is cached) for each
    port updated in this attempt, then one deletion for each port created
    in it.  Where these calls succeed, the service is left with none of
    the created ports and with no device on the updated ones. *)
Theorem rollback_after_guarded_failure (instance : Instance)
    (macs : option (list string)) (requested : list requested_network)
    (security_groups : list string) (w w1 w2 w3 : World) (rq : Requested)
    (before rest : list Network) (network : Network)
    (security_group_ids : list string) (st : Attempt) (e : exn) :
  resolve_request instance macs requested security_groups w
  = (inr (rq, before ++ network :: rest, security_group_ids), w1) →
  allocate_ports CONF imports (get_client false) instance (rq_ports rq)
    (rq_fixed rq) security_groups security_group_ids before
    (first_attempt rq) w1
  = (inr st, w2) →
  cannot_apply security_groups network = false →
  allocate_port CONF imports (get_client false) instance (rq_ports rq)
    (rq_fixed rq) security_group_ids network st w2
  = (inl e, w3) →
  ∃ w',
    compensate CONF imports (get_client false) st w3 = (inr (), w')
    ∧ allocate_for_instance CONF imports instance macs requested
        security_groups w
      = (inl e, w')
    ∧ ∃ forward undo,
        new_events w1 w' = forward ++ undo
        ∧ Forall (λ ev, compensating ev = false) forward
        ∧ (e = PortNotFree ∨ raised_last e forward)
        ∧ issued <$> undo
          = undo_calls (get_client false) (binding imports w')
              (touched_of forward) (created_of forward)
        ∧ (Forall (λ ev, compensating ev = true → succeeded ev = true)
                  (new_events w w') →
           rolled_back (new_events w w') (remote w')).
Proof.
  intros Hreq Hbefore Hcheck Hstep.
  destruct (failing_step_fails_loop _ _ _ _ _ _ _ _ rest _ _ _ _ _ _
              Hbefore Hcheck Hstep) as (w'&Hundo&Hloop&He).
  exists w'. split; [done|].
  by apply (loop_failure_rolled_back instance macs requested security_groups
              w w1 w' rq (before ++ network :: rest) security_group_ids e).
Qed.

End loop.

(** The security-group test is outside the [try] block: the port of the
    first network stays.  A compensation call may fail: the port stays
    too. *)
Lemma rollback_incomplete :
  ¬ rollback_complete Sample.CONF Sample.imports Sample.instance None
      Sample.a_then_b ["default"] Sample.start
  ∧ ¬ rollback_complete Sample.CONF Sample.imports Sample.instance None
        Sample.a_then_c []
        (Sample.world (Sample.service [] []) Sample.create_and_delete_fail).
Proof.
  split; intros H.
  - edestruct H as [Hnot _].
    + run_lhs. reflexivity.
    + run_lhs. reflexivity.
    + apply list_elem_of_here.
    + apply Hnot. vm_compute. apply list_elem_of_here.
  - edestruct H as [Hnot _].
    + run_lhs. reflexivity.
    + run_lhs. reflexivity.
    + apply list_elem_of_here.
    + apply Hnot. vm_compute. apply list_elem_of_here.
Qed.

Example port_left_after_security_group_error :
  let result :=
    allocate_for_instance Sample.CONF Sample.imports Sample.instance None
      Sample.a_then_b ["default"] Sample.start in
  result.1 = inl SecurityGroupCannotBeApplied
  ∧ (λ p, (port_id p, port_device_id p)) <$> ports (remote result.2)
    = [("port-1", Some "vm-1")].
Proof. vm_compute. done. Qed.

Lemma rollback_after_guarded_failure_witness :
  let start := Sample.world (Sample.service [] []) Sample.create_fails in
  let result :=
    allocate_for_instance Sample.CONF Sample.imports Sample.instance None
      Sample.a_then_c [] start in
  result.1 = inl (QuantumClientException 500)
  ∧ rolled_back (new_events start result.2) (remote result.2).
Proof.
  intros start result.
  pose proof (λ w1 w2 w3 rq ids st,
                rollback_after_guarded_failure Sample.CONF Sample.imports
                  Sample.instance None Sample.a_then_c [] start w1 w2 w3 rq
                  [Sample.net_a] [] Sample.net_c ids st
                  (QuantumClientException 500))
    as Hrollback.
  edestruct Hrollback as (w'&_&Hrun&forward&undo&_&_&_&_&Hleft).
  - run_lhs. reflexivity.
  - run_lhs. reflexivity.
  - reflexivity.
  - run_lhs. reflexivity.
  - assert (Hw : w' = result.2) by (subst result; by rewrite Hrun).
    subst w'. split; [subst result; by rewrite Hrun|].
    apply Hleft. vm_compute. repeat constructor; discriminate.
Defined.

(** With the network without subnets second, the port of the first
    network has been created when the error is raised. *)
Lemma port_created_before_check :
  ¬ checked_before_any_port Sample.CONF Sample.imports Sample.instance None
      Sample.a_then_b ["default"] Sample.start.
Proof.
  intros H. edestruct H as [_ Hquiet].
  - run_lhs. reflexivity.
  - done.
  - apply list_elem_of_further, list_elem_of_here.
  - by left.
  - vm_compute in Hquiet.
    do 4 apply Forall_cons in Hquiet as [_ Hquiet].
    apply Forall_cons in Hquiet as [Hcreate _].
    by apply Hcreate.
Qed.

Lemma security_group_check_per_network_witness :
  (allocate_for_instance Sample.CONF Sample.imports Sample.instance None
     Sample.b_then_a ["default"] Sample.start).1
  = inl SecurityGroupCannotBeApplied
  ∧ remote (allocate_for_instance Sample.CONF Sample.imports Sample.instance
              None Sample.b_then_a ["default"] Sample.start).2
    = remote Sample.start.
Proof.
  pose proof (λ w1 rq, security_group_check_per_network Sample.CONF
                         Sample.imports Sample.instance None
                         Sample.b_then_a ["default"] Sample.start w1 rq []
                         [Sample.net_a] Sample.net_b) as Hcheck.
  edestruct Hcheck as [_ Hfirst].
  - run_lhs. reflexivity.
  - done.
  - by left.
  - destruct (Hfirst eq_refl) as (Herr&Hremote&_). by split.
Defined.

(** * Validation of the requested networks *)

Lemma validate_requested_length requested acc w net_ids w1 :
  fold_each requested acc validate_requested w = (inr net_ids, w1) →
  length net_ids = length acc + length requested.
Proof.
  revert acc w. induction requested as [|rn rest IH]; intros acc w Hrun.
  - injection Hrun as <- _. simpl. lia.
  - cbn [fold_each] in Hrun. bind_in Hrun; [done|].
    apply IH in Hrun. rewrite Hrun. cbn [length].
    assert (length a = S (length acc)); [|lia].
    unfold validate_requested in E.
    destruct rn as [[network_id fixed_ip] port].
    bind_in E; [done|].
    destruct (bool_decide _); [done|]. injection E as <- _.
    rewrite length_app. simpl. lia.
Qed.

(** The allocation does not compare the selector's answer with the
    request: with an id the service does not know it allocates on the
    networks that were found. *)
Lemma allocation_ignores_lost_network :
  ¬ mismatch_reported Sample.CONF Sample.imports Sample.instance None
      Sample.a_and_unknown [] Sample.start.
Proof.
  intros H. edestruct H as (e&w'&Hrun).
  - run_lhs. reflexivity.
  - apply list_elem_of_further, list_elem_of_here.
  - cbn. intros Hin. apply list_elem_of_singleton in Hin. discriminate Hin.
  - vm_compute in Hrun. discriminate Hrun.
Qed.

Example allocation_of_resolved_subset :
  let result :=
    allocate_for_instance Sample.CONF Sample.imports Sample.instance None
      Sample.a_and_unknown [] Sample.start in
  match result.1 with
  | inr snapshot => vif_network_id <$> snapshot = ["net-a"]
  | inl _ => False
  end
  ∧ port_network_id <$> ports (remote result.2) = ["net-a"].
Proof. vm_compute. done. Qed.

(** C6 (amended).  The comparison of the selector's answer with the
    request is made by [validate_networks], not by the allocation: when the
    service holds one network per id and a requested id is not among the
    networks the selector returns, [validate_networks] raises
    NetworkNotFound with the requested ids that were not returned, the
    missing one among them. *)
Theorem validate_networks_reports_lost_ids (context : Context)
    (requested : list requested_network) (w w1 w2 : World)
    (net_ids : list (option string)) (nets : list Network)
    (missing : option string) :
  NoDup (net_id <$> networks (remote w)) →
  fold_each requested [] validate_requested w = (inr net_ids, w1) →
  _get_available_networks (ctx_project_id context) net_ids w1
  = (inr nets, w2) →
  missing ∈ net_ids →
  missing ∉ network_key <$> nets →
  validate_networks context requested w
  = (inl (NetworkNotFound (lost_ids net_ids nets)), w2)
  ∧ missing ∈ lost_ids net_ids nets.
Proof.
  intros Hnodup Hfold Hsel Hin Hout.
  assert (Hrem : remote w1 = remote w).
  { pose proof (keeps_fold_each requested [] validate_requested
                  validate_requested_keeps w) as Hk.
    by rewrite Hfold in Hk. }
  assert (Hne : net_ids ≠ []) by (intros ->; by apply elem_of_nil in Hin).
  assert (Hreq : truthy requested = true).
  { apply validate_requested_length in Hfold.
    destruct requested; [|done]. destruct net_ids; [done|].
    simpl in Hfold. lia. }
  destruct (get_available_networks_run _ _ _ _ _ Hsel) as (_&_&Hnets).
  specialize (Hnets Hne).
  set (raw := candidate_networks (ctx_project_id context) net_ids (remote w1))
    in *.
  assert (Hperm : nets ≡ₚ raw) by (rewrite Hnets; apply sort_by_position_perm).
  assert (Hkeys : NoDup (network_key <$> nets)).
  { rewrite Hperm. unfold network_key.
    rewrite (list_fmap_compose net_id Some). apply NoDup_fmap_2; [apply _|].
    unfold raw, candidate_networks. apply NoDup_filter_disjoint.
    - intros n [[_ Hs1]%andb_true_iff _]%andb_true_iff
               [[_ Hs2]%andb_true_iff _]%andb_true_iff.
      cbn in Hs1, Hs2. apply bool_decide_eq_true in Hs1, Hs2. congruence.
    - by rewrite Hrem. }
  assert (Hsub : Forall (λ n, network_key n ∈ net_ids) nets).
  { rewrite Hperm. by apply candidate_networks_requested. }
  assert (Hlen : length nets ≠ length net_ids).
  { assert (missing :: (network_key <$> nets) ⊆+ net_ids) as Hle.
    { apply NoDup_submseteq.
      - by apply NoDup_cons.
      - intros i [->|Hi]%elem_of_cons; [done|].
        apply list_elem_of_fmap in Hi as (n&->&Hn).
        rewrite Forall_forall in Hsub. by apply Hsub. }
    apply submseteq_length in Hle. cbn [length] in Hle.
    rewrite length_fmap in Hle. lia. }
  split.
  - unfold validate_networks. rewrite Hreq. cbn [negb].
    rewrite bind_eq, Hfold, bind_eq, Hsel.
    by rewrite bool_decide_eq_true_2.
  - unfold lost_ids. apply list_elem_of_In, filter_In.
    split; [by apply list_elem_of_In, elem_of_remove_dups|].
    by apply bool_decide_eq_true_2.
Qed.

Lemma validate_networks_reports_lost_ids_witness :
  (validate_networks {| ctx_project_id := "tenant" |}
     Sample.a_and_unknown Sample.start).1
  = inl (NetworkNotFound [Some "net-x"]).
Proof.
  pose proof (λ w1 w2 nets,
                validate_networks_reports_lost_ids
                  {| ctx_project_id := "tenant" |}
                  Sample.a_and_unknown Sample.start w1 w2
                  [Some "net-a"; Some "net-x"] nets (Some "net-x"))
    as Hlost.
  edestruct Hlost as [Hrun _].
  - apply (bool_decide_unpack _). by vm_compute.
  - run_lhs. reflexivity.
  - run_lhs. reflexivity.
  - apply list_elem_of_further, list_elem_of_here.
  - cbn. intros Hin. apply list_elem_of_singleton in Hin. discriminate Hin.
  - rewrite Hrun. reflexivity.
Defined.

(** * The snapshot returned by an allocation *)




Example snapshot_with_stale_cache :
  match (allocate_for_instance Sample.CONF Sample.imports
           Sample.stale_instance None Sample.a_then_port []
           Sample.with_free_port).1 with
  | inr snapshot =>
      (λ v, (vif_id v, vif_network_id v)) <$> snapshot
      = [("port-9", "net-c"); ("port-1", "net-a"); ("port-9", "net-c")]
  | inl _ => False
  end.
Proof. vm_compute. done. Qed.

Section snapshot.
Variable CONF : Config.
Variable imports : Imports.

Lemma build_vif_network client networks bound port w vif bound' w' :
  build_vif CONF imports client networks bound port w
  = (inr (vif, bound'), w') →
  vif_network_id vif = port_network_id port ∧ vif_id vif = port_id port.
Proof.
  unfold build_vif. intros Hrun.
  destruct (find_network _ _ _ _) as [network_name net].
  bind_in Hrun; [done|]. bind_in Hrun; [done|].
  repeat match type of Hrun with
         | context [if ?b then _ else _] => destruct b
         end;
    destruct network_name, net; try done;
    by injection Hrun as <- _ _.
Qed.

Lemma build_vifs_networks client networks bound ports w vifs w' :
  build_vifs CONF imports client networks bound ports w = (inr vifs, w') →
  vif_network_id <$> vifs = port_network_id <$> ports
  ∧ vif_id <$> vifs = port_id <$> ports.
Proof.
  revert bound w vifs w'. induction ports as [|port rest IH];
    intros bound w vifs w' Hrun.
  - by injection Hrun as <- _.
  - cbn [build_vifs] in Hrun. bind_in Hrun; [done|].
    destruct a as [vif bound'].
    apply build_vif_network in E as [Hn Hi].
    bind_in Hrun; [done|]. injection Hrun as <- _.
    apply IH in E as [Hns His]. cbn [fmap list_fmap].
    fold (fmap (M:=list) vif_network_id). fold (fmap (M:=list) vif_id).
    fold (fmap (M:=list) port_network_id). fold (fmap (M:=list) port_id).
    by rewrite Hn, Hi, Hns, His.
Qed.

End snapshot.












Section attempt_values.
Variable CONF : Config.
Variable imports : Imports.



End attempt_values.

Section attempt_steps.
Variable CONF : Config.
Variable imports : Imports.





End attempt_steps.

Section builder_ports.
Variable CONF : Config.
Variable imports : Imports.



End builder_ports.

Section snapshot_order.
Variable CONF : Config.
Variable imports : Imports.


End snapshot_order.


(** A port of another project that the request names is updated, but the
    builder lists the ports of the instance's project only: the network
    of the port resolves and has no record in the snapshot. *)
Example port_of_another_project_left_out :
  let start :=
    Sample.world (Sample.service [Sample.foreign_free_port] [])
                 Sample.no_fault in
  match (resolve_request Sample.instance None Sample.a_then_foreign [] start).1,
        (allocate_for_instance Sample.CONF Sample.imports Sample.instance
           None Sample.a_then_foreign [] start).1 with
  | inr (rq, nets, _), inr snapshot =>
      net_id <$> nets = ["net-a"; "net-c"]
      ∧ vif_network_id <$> snapshot = ["net-a"]
  | _, _ => False
  end.
Proof. vm_compute. done. Qed.

(** * Deallocation *)

Lemma for_each_fmap {A B} (f : A → B) (l : list A) (body : B → M unit) w :
  for_each (f <$> l) body w = for_each l (λ x, body (f x)) w.
Proof.
  revert w. induction l as [|x l IH]; intros w; [done|].
  cbn [fmap list_fmap for_each]. rewrite !bind_eq.
  destruct (body (f x) w) as [[?|[]] ?]; [done|]. apply IH.
Qed.

(** The deleting loop never raises and issues one call per id; where the
    calls succeed, the ports left are the ones with another id. *)
Lemma delete_each quantum ids w :
  ∃ w' evs,
    for_each ids (delete_created quantum) w = (inr (), w')
    ∧ trace w' = trace w ++ evs
    ∧ issued <$> evs = (λ id, (admin quantum, DeletePort id)) <$> ids
    ∧ (Forall (λ ev, succeeded ev = true) evs →
       ports (remote w')
       = List.filter (λ p, bool_decide (port_id p ∉ ids)) (ports (remote w))).
Proof.
  revert w. induction ids as [|id rest IH]; intros w.
  - exists w, []. split; [done|]. split; [by rewrite app_nil_r|].
    split; [done|]. intros _. symmetry. apply forallb_filter_id.
    apply forallb_forall. intros p _. apply bool_decide_eq_true_2.
    by intros ?%elem_of_nil.
  - cbn [for_each]. rewrite bind_eq.
    destruct (delete_created_run quantum id w) as (w1&o&->&Ht1&_&Hp1).
    destruct (IH w1) as (w'&evs&->&Ht&Hi&Hp).
    eexists w', (_ :: evs). split; [done|].
    split; [by rewrite Ht, Ht1, <-app_assoc|].
    split; [cbn [fmap list_fmap]; by rewrite <-Hi|].
    intros [Hok Hoks]%Forall_cons.
    rewrite (Hp Hoks), (Hp1 Hok), filter_twice.
    apply filter_ext. intros p. unfold has_id.
    apply eq_true_iff_eq. rewrite andb_true_iff, negb_true_iff.
    rewrite !bool_decide_eq_true, bool_decide_eq_false, not_elem_of_cons.
    naive_solver.
Qed.

Section deallocation.
Variable CONF : Config.
Variable imports : Imports.

Lemma deallocate_for_instance_run (instance : Instance) (w : World) :
  fault w (length (trace w)) = None →
  let listed := ports_of_device instance (remote w) in
  let run := deallocate_for_instance instance w in
  run.1 = inr ()
  ∧ issued <$> new_events w run.2
    = (false, ListPorts (device_search instance))
      :: ((λ p, (false, DeletePort (port_id p))) <$> listed)
  ∧ (Forall (λ ev, succeeded ev = true) (new_events w run.2) →
     ports (remote run.2)
     = List.filter (λ p, bool_decide (port_id p ∉ port_id <$> listed))
                   (ports (remote w))
     ∧ Forall (λ p, port_device_id p ≠ Some (uuid instance))
              (ports (remote run.2))).
Proof.
  intros Hfault listed run. subst run. unfold deallocate_for_instance.
  rewrite bind_eq. unfold list_ports. rewrite call_query_eq, Hfault.
  fold (device_search instance). fold (ports_of_device instance (remote w)).
  fold listed. rewrite bind_eq.
  set (w0 := log _ w).
  pose proof (for_each_fmap port_id listed
                (delete_created (get_client false)) w0) as Hloop.
  unfold delete_created in Hloop at 2. rewrite <-Hloop. clear Hloop.
  destruct (delete_each (get_client false) (port_id <$> listed) w0)
    as (w'&evs&->&Ht&Hi&Hp).
  unfold trigger_security_group_members_refresh,
    trigger_instance_remove_security_group_refresh.
  rewrite bind_eq. cbn [mret M_ret fst snd]. split; [done|].
  assert (Hnew : new_events w w' = event (get_client false)
                   (ListPorts (device_search instance)) Returned :: evs).
  { apply new_events_app. rewrite Ht. subst w0. cbn [trace log].
    by rewrite <-app_assoc. }
  rewrite Hnew. split.
  { cbn [fmap list_fmap]. rewrite Hi, <-list_fmap_compose. done. }
  intros [_ Hok]%Forall_cons. specialize (Hp Hok).
  change (remote w0) with (remote w) in Hp. split; [done|].
  rewrite Hp. apply Forall_forall. intros p Hin.
  apply list_elem_of_In, filter_In in Hin as [Hin Hnot].
  apply bool_decide_eq_true in Hnot. intros Hdev. apply Hnot.
  apply list_elem_of_fmap. exists p. split; [done|].
  apply list_elem_of_In, filter_In. split; [done|].
  unfold port_matches, device_search. cbn.
  by rewrite bool_decide_eq_true_2.
Qed.

(** X1. When the listing of the instance's ports goes through,
    deallocate_for_instance issues one delete_port per listed port, in the
    listed order, and no other call to the service; a deletion that fails is
    swallowed, so the method goes on to its notifications and returns (the
    conductor's notifications are taken to return). If every deletion went
    through, the service keeps exactly the ports that were not listed, and
    none of them is bound to the instance. *)
Theorem deallocate_for_instance_best_effort (instance : Instance)
    (w : World) :
  fault w (length (trace w)) = None →
  let listed := ports_of_device instance (remote w) in
  let run := deallocate_for_instance instance w in
  run.1 = inr ()
  ∧ issued <$> new_events w run.2
    = (false, ListPorts (device_search instance))
      :: ((λ p, (false, DeletePort (port_id p))) <$> listed)
  ∧ (Forall (λ ev, succeeded ev = true) (new_events w run.2) →
     ports (remote run.2)
     = List.filter (λ p, bool_decide (port_id p ∉ port_id <$> listed))
                   (ports (remote w))
     ∧ Forall (λ p, port_device_id p ≠ Some (uuid instance))
              (ports (remote run.2))).
Proof. apply deallocate_for_instance_run. Qed.

End deallocation.

(** * Migration *)

Lemma apply_update_host_twice instance p :
  apply_update (host_body instance) (apply_update (host_body instance) p)
  = apply_update (host_body instance) p.
Proof. done. Qed.

Lemma rehosted_same instance p p' :
  rehosted instance p p' →
  port_id p' = port_id p ∧ port_tenant_id p' = port_tenant_id p
  ∧ port_device_id p' = port_device_id p.
Proof. by intros [->| ->]. Qed.

Lemma Forall2_rehosted_refl instance (l : list Port) :
  Forall2 (rehosted instance) l l.
Proof. apply Forall_Forall2_diag, Forall_forall. intros p _. by left. Qed.

Lemma Forall2_rehosted_trans instance (l1 l2 l3 : list Port) :
  Forall2 (rehosted instance) l1 l2 → Forall2 (rehosted instance) l2 l3 →
  Forall2 (rehosted instance) l1 l3.
Proof.
  intros H12 H23. eapply Forall2_trans; [|exact H12|exact H23].
  intros p1 p2 p3 [->| ->] [->| ->]; unfold rehosted; auto.
Qed.

Lemma Forall2_elem_of_r {A B} (R : A → B → Prop) l k y :
  Forall2 R l k → y ∈ k → ∃ x, x ∈ l ∧ R x y.
Proof.
  intros H Hy. apply list_elem_of_lookup in Hy as [i Hi].
  destruct (Forall2_lookup_r _ _ _ _ _ H Hi) as (x&Hx&HR).
  exists x. split; [by eapply list_elem_of_lookup_2|done].
Qed.

Lemma reraise_eq {A} (e : exn) (w : World) :
  save_and_reraise_exception (A:=A) e (mret ()) w = (inl e, w).
Proof. reflexivity. Qed.

Lemma update_port_run quantum id body w :
  match update_port quantum id body w with
  | (inl e, w1) =>
      remote w1 = remote w
      ∧ trace w1 = trace w ++ [event quantum (UpdatePort id body) (Raised e)]
  | (inr _, w1) =>
      ports (remote w1)
      = (λ p, if has_id id p then apply_update body p else p)
          <$> ports (remote w)
      ∧ trace w1 = trace w ++ [event quantum (UpdatePort id body) Returned]
  end.
Proof.
  unfold update_port, call. destruct (fault w _); [done|].
  unfold remote_update_port. by destruct (existsb _ _).
Qed.

(** The loop over the listed ports: every port of the service is as it was
    up to its host; when the loop returns, the listed ones carry the
    host. *)
Lemma host_updates quantum instance (listed : list Port) w :
  let run :=
    for_each listed (λ p,
      try_except (update_port quantum (port_id p) (host_body instance))
                 (λ ex, save_and_reraise_exception ex (mret ()))) w in
  Forall2 (rehosted instance) (ports (remote w)) (ports (remote run.2))
  ∧ (∃ evs, trace run.2 = trace w ++ evs
            ∧ Forall (λ ev, ∃ id, ev_call ev
                                  = UpdatePort id (host_body instance)) evs)
  ∧ (run.1 = inr () →
     Forall (λ p', port_id p' ∈ port_id <$> listed →
                   port_binding_host_id p' = host instance)
            (ports (remote run.2))).
Proof.
  revert w. induction listed as [|p rest IH]; intros w run; subst run.
  - cbn. split; [apply Forall2_rehosted_refl|].
    split; [exists []; by rewrite app_nil_r|].
    intros _. apply Forall_forall. by intros ? _ ?%elem_of_nil.
  - cbn [for_each]. rewrite bind_eq, try_except_eq.
    pose proof (update_port_run quantum (port_id p) (host_body instance) w)
      as Hstep.
    destruct (update_port _ _ _ w) as [[e|[]] w1].
    { destruct Hstep as [Hr Ht]. cbn beta iota. rewrite reraise_eq.
      cbn [fst snd]. rewrite Hr.
      split; [apply Forall2_rehosted_refl|].
      split; [|done]. eexists [_]. split; [exact Ht|].
      constructor; [|done]. by eexists. }
    destruct Hstep as [Hr Ht1]. specialize (IH w1). cbn zeta in IH.
    destruct IH as (Hsame&(evs&Ht&Hev)&Hhost).
    assert (Hstep : Forall2 (rehosted instance) (ports (remote w))
                      (ports (remote w1))).
    { rewrite Hr. apply Forall2_fmap_r, Forall_Forall2_diag, Forall_forall.
      intros q _. cbn. destruct (has_id _ _); [by right|by left]. }
    split; [by eapply Forall2_rehosted_trans|].
    split.
    { eexists (_ :: evs). rewrite Ht, Ht1, <-app_assoc. split; [done|].
      constructor; [by eexists|done]. }
    intros Hret. specialize (Hhost Hret).
    rewrite Forall_forall in Hhost. apply Forall_forall.
    intros p' Hin [Heq|Hrest]%elem_of_cons; [|by apply Hhost].
    destruct (Forall2_elem_of_r _ _ _ _ Hsame Hin) as (p1&Hin1&Hp1).
    rewrite Hr in Hin1. apply list_elem_of_fmap in Hin1 as (p0&->&_).
    destruct (rehosted_same _ _ _ Hp1) as (Hid&_&_).
    unfold has_id in *. case_bool_decide as Hp0.
    + by destruct Hp1 as [->| ->].
    + congruence.
Qed.

Section migration.
Variable CONF : Config.
Variable imports : Imports.

Lemma has_port_binding_reads refresh_cache :
  emits quiet (_has_port_binding_extension CONF imports refresh_cache)
  ∧ keeps (_has_port_binding_extension CONF imports refresh_cache).
Proof.
  unfold _has_port_binding_extension, _refresh_quantum_extensions_cache,
    list_extensions.
  split; frame.
Qed.

(** X2. Whatever its outcome, migrate_instance_finish leaves each port of
    the service as it was or with binding:host_id set to the instance's
    host, and the only changing calls it issues are update_port calls whose
    body is {'binding:host_id': host}. *)
Theorem migrate_instance_finish_only_sets_host (instance : Instance)
    (w : World) :
  let run := migrate_instance_finish CONF imports instance w in
  Forall2 (rehosted instance) (ports (remote w)) (ports (remote run.2))
  ∧ Forall (λ ev, mutates ev →
                  ∃ id, ev_call ev = UpdatePort id (host_body instance))
           (new_events w run.2).
Proof.
  intros run. subst run. unfold migrate_instance_finish.
  rewrite bind_eq.
  destruct (has_port_binding_reads true) as [He Hk].
  specialize (He w). specialize (Hk w).
  destruct (_has_port_binding_extension CONF imports true w)
    as [[e|b] w1]; cbn [fst snd] in *.
  { destruct He as (evs&Ht&Hq). rewrite Hk, (new_events_app _ _ _ Ht).
    split; [apply Forall2_rehosted_refl|].
    eapply Forall_impl; [exact Hq|]. by intros ev Hquiet Hm. }
  destruct He as (evs&Ht&Hq).
  destruct b; cbn [negb].
  2:{ cbn [mret M_ret snd]. rewrite Hk, (new_events_app _ _ _ Ht).
      split; [apply Forall2_rehosted_refl|].
      eapply Forall_impl; [exact Hq|]. by intros ev Hquiet Hm. }
  rewrite bind_eq.
  destruct (get_instance_nw_info_reads CONF imports instance None)
    as [He2 Hk2].
  specialize (He2 w1). specialize (Hk2 w1).
  destruct (get_instance_nw_info CONF imports instance None w1)
    as [[e|info] w2]; cbn [fst snd] in *.
  { destruct He2 as (evs2&Ht2&Hq2). rewrite Hk2, Hk.
    split; [apply Forall2_rehosted_refl|].
    rewrite (new_events_app w w2 (evs ++ evs2))
      by (by rewrite Ht2, Ht, <-app_assoc).
    apply Forall_app. split; (eapply Forall_impl; [eassumption|]);
      by intros ev Hquiet Hm. }
  destruct He2 as (evs2&Ht2&Hq2).
  rewrite bind_eq. unfold list_ports. rewrite call_query_eq.
  destruct (fault w2 _) as [code|].
  { cbn [snd]. change (remote (log _ w2)) with (remote w2).
    rewrite Hk2, Hk. split; [apply Forall2_rehosted_refl|].
    rewrite (new_events_app w (log _ w2) (evs ++ evs2 ++ [_]))
      by (cbn [trace log]; by rewrite Ht2, Ht, <-!app_assoc).
    rewrite !Forall_app. split; [|split].
    - eapply Forall_impl; [exact Hq|]. by intros ev Hquiet Hm.
    - eapply Forall_impl; [exact Hq2|]. by intros ev Hquiet Hm.
    - constructor; [|done]. by intros []. }
  set (w3 := log _ w2). set (listed := List.filter _ _).
  destruct (host_updates (get_client true) instance listed w3)
    as (Hsame&(evs3&Ht3&Hev3)&_).
  cbn zeta in Hsame, Ht3.
  change (remote w3) with (remote w2) in Hsame.
  rewrite Hk2, Hk in Hsame. split; [exact Hsame|].
  erewrite new_events_app.
  2:{ rewrite Ht3. subst w3. cbn [trace log].
      rewrite Ht2, Ht, <-!app_assoc. reflexivity. }
  rewrite !Forall_app. split; [|split; [|split]].
  - eapply Forall_impl; [exact Hq|]. by intros ev Hquiet Hm.
  - eapply Forall_impl; [exact Hq2|]. by intros ev Hquiet Hm.
  - constructor; [|done]. by intros [].
  - eapply Forall_impl; [exact Hev3|]. by intros ev Hu _.
Qed.


End migration.

(** * Adding a fixed ip *)

Lemma bindX_eq {A B} (m : MX A) (f : A → MX B) (w : World) :
  (m ≫= f) w
  = match m w with
    | (inl e, w') => (inl e, w')
    | (inr a, w') => f a w'
    end.
Proof. reflexivity. Qed.

Lemma base_eq {A} (m : M A) (w : World) :
  base m w
  = match m w with
    | (inl e, w') => (inl (Exn e), w')
    | (inr a, w') => (inr a, w')
    end.
Proof. reflexivity. Qed.

Lemma attempts_from_cons id fixed_ips subnet rest :
  attempts_from id fixed_ips (subnet :: rest)
  = UpdatePort id (fixed_ips_body (fixed_ips ++ [on_subnet subnet]))
    :: attempts_from id (fixed_ips ++ [on_subnet subnet]) rest.
Proof.
  unfold attempts_from. cbn [length seq fmap list_fmap take]. f_equal.
  rewrite <-fmap_S_seq, <-list_fmap_compose. apply list_fmap_ext.
  intros _ k _. cbn. by rewrite <-app_assoc.
Qed.

(** The attempts on one port: a prefix of the planned ones; either the
    last one succeeded and the loop reports it, or all were tried and
    failed. *)
Lemma add_on_subnets_run id fixed_ips ipam_subnets w :
  let run := add_on_subnets id fixed_ips ipam_subnets w in
  ∃ tried,
    trace run.2 = trace w ++ tried
    ∧ Forall (λ ev, ev_admin ev = false) tried
    ∧ match run.1 with
      | inr true =>
          (ev_call <$> tried)
            `prefix_of` attempts_from id fixed_ips ipam_subnets
          ∧ until_success tried
      | inr false =>
          ev_call <$> tried = attempts_from id fixed_ips ipam_subnets
          ∧ Forall (λ ev, succeeded ev = false) tried
      | inl _ => False
      end.
Proof.
  revert fixed_ips w.
  induction ipam_subnets as [|subnet rest IH]; intros fixed_ips w run;
    subst run.
  - exists []. cbn. by rewrite app_nil_r.
  - cbn [add_on_subnets]. rewrite attempts_from_cons.
    rewrite bind_eq, try_except_eq, bind_eq.
    fold (on_subnet subnet).
    pose proof (update_port_run (get_client false) id
                  (fixed_ips_body (fixed_ips ++ [on_subnet subnet])) w)
      as Hstep.
    destruct (update_port _ _ _ w) as [[e|[]] w1].
    + destruct Hstep as [_ Ht1]. cbn [mret M_ret].
      specialize (IH (fixed_ips ++ [on_subnet subnet]) w1). cbn zeta in IH.
      destruct IH as (tried&Ht&Hadmin&Hrun).
      eexists (_ :: tried). rewrite Ht, Ht1, <-app_assoc.
      split; [done|]. split; [by constructor|].
      destruct (add_on_subnets _ _ _ w1) as [[?|[]] ?]; cbn [fst] in *.
      * done.
      * destruct Hrun as [Hpre (failed&ok&->&Hfailed&Hok)]. split.
        { cbn [fmap list_fmap]. by apply prefix_cons. }
        exists (event (get_client false)
                  (UpdatePort id
                     (fixed_ips_body (fixed_ips ++ [on_subnet subnet])))
                  (Raised e) :: failed), ok.
        split; [done|]. split; [by constructor|done].
      * destruct Hrun as [Hcalls Hfailed]. split.
        { cbn [fmap list_fmap]. by rewrite Hcalls. }
        by constructor.
    + destruct Hstep as [_ Ht1]. cbn [mret M_ret fst snd].
      eexists [_]. split; [exact Ht1|]. split; [by constructor|]. split.
      { cbn [fmap list_fmap]. apply prefix_cons, prefix_nil. }
      by eexists [], _.
Qed.

Lemma add_on_ports_run ports ipam_subnets w :
  let run := add_on_ports ports ipam_subnets w in
  ∃ tried,
    trace run.2 = trace w ++ tried
    ∧ Forall (λ ev, ev_admin ev = false) tried
    ∧ match run.1 with
      | inr true =>
          (ev_call <$> tried) `prefix_of` attempts ports ipam_subnets
          ∧ until_success tried
      | inr false =>
          ev_call <$> tried = attempts ports ipam_subnets
          ∧ Forall (λ ev, succeeded ev = false) tried
      | inl _ => False
      end.
Proof.
  revert w. induction ports as [|p rest IH]; intros w run; subst run.
  - exists []. cbn. by rewrite app_nil_r.
  - cbn [add_on_ports]. rewrite bind_eq.
    unfold attempts. cbn [mbind list_bind]. fold (attempts rest ipam_subnets).
    destruct (add_on_subnets_run (port_id p) (as_request <$> port_fixed_ips p)
                ipam_subnets w) as (tried1&Ht1&Hadmin1&Hrun1).
    cbn zeta in Ht1, Hrun1.
    destruct (add_on_subnets _ _ _ w) as [[?|[]] w1]; cbn [fst snd] in *.
    + done.
    + exists tried1. split; [done|]. split; [done|].
      destruct Hrun1 as [Hpre Huntil]. split; [|done].
      by apply prefix_app_r.
    + specialize (IH w1). cbn zeta in IH.
      destruct IH as (tried&Ht&Hadmin&Hrun). destruct Hrun1 as [Hcalls Hfail].
      exists (tried1 ++ tried). rewrite Ht, Ht1, <-app_assoc.
      split; [done|]. split; [by apply Forall_app|].
      destruct (add_on_ports rest ipam_subnets w1) as [[?|[]] ?];
        cbn [fst] in *.
      * done.
      * destruct Hrun as [Hpre (failed&ok&->&Hfailed&Hok)]. split.
        { rewrite fmap_app, Hcalls. by apply prefix_app. }
        exists (tried1 ++ failed), ok. rewrite <-app_assoc.
        split; [done|]. split; [by apply Forall_app|done].
      * destruct Hrun as [Hcalls' Hfail']. split.
        { by rewrite fmap_app, Hcalls, Hcalls'. }
        by apply Forall_app.
Qed.

(** X4. The body of add_fixed_ip_to_instance raises
    NetworkNotFoundForInstance right after the subnet listing when the
    network has no subnet. Otherwise it lists the instance's ports on the
    network and tries update_port port by port and subnet by subnet,
    stopping at the first update that goes through; because the port's
    fixed_ips list is appended to in place, the attempt for the k-th subnet
    carries the port's addresses and one entry for each of the first k
    subnets, those of failed attempts included. It raises
    NetworkNotFoundForInstance when every attempt has failed. *)
Theorem add_fixed_ip_attempts (instance : Instance) (network_id : string)
    (w : World) :
  fault w (length (trace w)) = None →
  let client := get_client false in
  let ipam_subnets := subnets_of_network network_id (remote w) in
  let ports := ports_attached instance network_id (remote w) in
  let listed_subnets :=
    event client (ListSubnets {| ss_network_id := Some network_id;
                                 ss_id := None |}) Returned in
  let listed_ports :=
    event client (ListPorts (attached_search instance network_id))
          Returned in
  let run := add_fixed_ip_to_instance instance network_id w in
  (ipam_subnets = [] →
   run = (inl (NetworkNotFoundForInstance (uuid instance)),
          log listed_subnets w))
  ∧ (ipam_subnets ≠ [] →
     fault w (S (length (trace w))) = None →
     ∃ tried,
       new_events w run.2 = listed_subnets :: listed_ports :: tried
       ∧ match run.1 with
         | inr _ =>
             (ev_call <$> tried) `prefix_of` attempts ports ipam_subnets
             ∧ until_success tried
         | inl e =>
             e = NetworkNotFoundForInstance (uuid instance)
             ∧ ev_call <$> tried = attempts ports ipam_subnets
             ∧ Forall (λ ev, succeeded ev = false) tried
         end).
Proof.
  intros Hfault client ipam_subnets ports listed_subnets listed_ports run.
  subst run. unfold add_fixed_ip_to_instance.
  rewrite bindX_eq, base_eq. unfold list_subnets.
  rewrite call_query_eq, Hfault.
  fold (subnets_of_network network_id (remote w)). fold ipam_subnets.
  fold client. fold listed_subnets. split.
  { intros ->. done. }
  intros Hne Hfault2. destruct ipam_subnets as [|subnet rest] eqn:Hsub; [done|].
  rewrite <-Hsub in *. cbn [truthy truthy_list negb].
  replace (truthy ipam_subnets) with true by (by rewrite Hsub).
  cbn [negb].
  rewrite bindX_eq, base_eq. unfold list_ports. rewrite call_query_eq.
  cbn [fault trace log]. rewrite length_app. cbn [length].
  replace (length (trace w) + 1) with (S (length (trace w))) by lia.
  rewrite Hfault2.
  fold (attached_search instance network_id).
  change (remote (log listed_subnets w)) with (remote w).
  fold (ports_attached instance network_id (remote w)). fold ports.
  fold client. fold listed_ports.
  set (w2 := log listed_ports (log listed_subnets w)).
  rewrite bindX_eq, base_eq.
  destruct (add_on_ports_run ports ipam_subnets w2) as (tried&Ht&_&Hrun).
  cbn zeta in Ht, Hrun.
  destruct (add_on_ports ports ipam_subnets w2) as [[?|[]] w3];
    cbn [fst snd] in *; [done| |].
  - exists tried. cbn [mret MX_ret fst snd]. split; [|done].
    apply new_events_app. rewrite Ht. subst w2. cbn [trace log].
    by rewrite <-!app_assoc.
  - exists tried. unfold raiseX. cbn [fst snd]. split; [|done].
    apply new_events_app. rewrite Ht. subst w2. cbn [trace log].
    by rewrite <-!app_assoc.
Qed.

(** * Instances by address *)

Section by_address.

(** X5. When its one call, the port listing, goes through,
    get_fixed_ip_by_address returns the device of the port when exactly one
    listed port with the address has a device; it raises
    FixedIpNotFoundForAddress when there is none and
    FixedIpAssociatedWithMultipleInstances when there are several. *)
Theorem get_fixed_ip_by_address_unique (address : string) (w : World) :
  fault w (length (trace w)) = None →
  get_fixed_ip_by_address address w
  = (match bound_ports_at address (remote w) with
     | [port] => inr (default "" (port_device_id port))
     | [] => inl (Exn (FixedIpNotFoundForAddress address))
     | _ => inl (FixedIpAssociatedWithMultipleInstances address)
     end,
     log (event (get_client false) (ListPorts (address_search address))
                Returned) w).
Proof.
  intros Hfault. unfold get_fixed_ip_by_address, _get_instance_uuids_by_ip.
  rewrite bindX_eq, base_eq, bind_eq. unfold list_ports.
  rewrite call_query_eq, Hfault.
  fold (address_search address). fold (bound_ports_at address (remote w)).
  cbn [mret M_ret].
  by destruct (bound_ports_at address (remote w)) as [|? [|? ?]].
Qed.

End by_address.

(** ** The ip filter *)

Ltac ascii_cases :=
  match goal with
  | |- context [Ascii.ascii_dec ?a ?b] => destruct (Ascii.ascii_dec a b)
  | H : context [Ascii.ascii_dec ?a ?b] |- _ =>
      destruct (Ascii.ascii_dec a b)
  end.

Lemma append_cons (c : Ascii.ascii) (s t : string) :
  String c s +:+ t = String c (s +:+ t).
Proof. reflexivity. Qed.

Lemma append_empty (t : string) : "" +:+ t = t.
Proof. reflexivity. Qed.

Lemma prefix_empty (s : string) : String.prefix "" s = true.
Proof. by destruct s. Qed.

Lemma escape_cons (c : Ascii.ascii) (s : string) :
  replace "." "\." (String c s)
  = if bool_decide (String c "" = ".") then "\." +:+ replace "." "\." s
    else String c (replace "." "\." s).
Proof.
  unfold replace. cbn [replace_from String.prefix]. ascii_cases.
  - subst c. by destruct s.
  - rewrite bool_decide_eq_false_2; [done|]. intros [= ->]. done.
Qed.

(** The escaped form of a string never begins with a dot. *)
Lemma escape_head (s : string) :
  String.prefix "." (replace "." "\." s) = false.
Proof.
  destruct s as [|c s]; [done|]. rewrite escape_cons.
  case_bool_decide as Hc; [done|]. cbn [String.prefix]. ascii_cases; [|done].
  by subst c.
Qed.

Lemma unescape_escape (s : string) :
  replace "\." "." (replace "." "\." s) = s.
Proof.
  induction s as [|c s IH]; [done|]. rewrite escape_cons.
  case_bool_decide as Hc.
  - injection Hc as ->. unfold replace in *.
    rewrite !append_cons, append_empty.
    cbn [replace_from String.prefix String.length Nat.sub].
    repeat (ascii_cases; [|done]). rewrite prefix_empty.
    rewrite !append_cons, append_empty. by rewrite IH.
  - unfold replace in *. cbn [replace_from]. rewrite IH.
    replace (String.prefix "\." (String c (replace_from "." "\." 0 s)))
      with false; [done|].
    cbn [String.prefix]. ascii_cases; [|done].
    symmetry. pose proof (escape_head s) as Hhead. unfold replace in Hhead.
    destruct (replace_from "." "\." 0 s) as [|d t]; [done|].
    cbn [String.prefix] in *. by ascii_cases.
Qed.

Lemma last_char_snoc (s : string) (c : Ascii.ascii) :
  last_char (s +:+ String c "") = Some (String c "").
Proof.
  induction s as [|d s IH]; [done|]. rewrite append_cons.
  destruct s as [|e s]; [done|]. rewrite append_cons in *.
  exact IH.
Qed.

Lemma but_last_snoc (s : string) (c : Ascii.ascii) :
  but_last (s +:+ String c "") = s.
Proof.
  induction s as [|d s IH]; [done|]. rewrite append_cons.
  destruct s as [|e s]; [done|]. rewrite append_cons in *.
  cbn [but_last] in *. by rewrite IH.
Qed.

Lemma last_char_None (s : string) : last_char s = None ↔ s = "".
Proof.
  split; [|by intros ->]. induction s as [|c s IH]; [done|].
  cbn. destruct s; [done|]. intros H. by apply IH in H.
Qed.

(** X6. For every address, get_instance_uuids_by_ip_filter on the filter
    composed as '^%s$' % address.replace('.', '\\.') runs exactly the lookup
    of _get_instance_uuids_by_ip on the address: stripping the anchors and
    unescaping the dots undo the composition. *)
Theorem ip_filter_round_trip (fixed_ip : string) (w : World) :
  get_instance_uuids_by_ip_filter (Some (ip_filter fixed_ip)) w
  = base (_get_instance_uuids_by_ip fixed_ip) w.
Proof.
  unfold get_instance_uuids_by_ip_filter, ip_filter.
  rewrite append_cons, append_empty. cbn beta iota.
  rewrite bool_decide_eq_true_2 by done.
  rewrite last_char_snoc, bool_decide_eq_true_2 by done.
  by rewrite but_last_snoc, unescape_escape.
Qed.

(** X7. get_instance_uuids_by_ip_filter raises IndexError exactly when the
    'ip' filter is the empty string or the single character '^'. *)
Theorem ip_filter_index_error (ip : string) (w : World) :
  (get_instance_uuids_by_ip_filter (Some ip) w).1 = inl IndexError
  ↔ ip = "" ∨ ip = "^".
Proof.
  unfold get_instance_uuids_by_ip_filter. split.
  - destruct ip as [|c rest]; [by left|]. intros Hrun. right.
    case_bool_decide as Hc.
    + injection Hc as ->. destruct (last_char rest) eqn:Hlast.
      * rewrite base_eq in Hrun.
        by destruct (_get_instance_uuids_by_ip _ w) as [[?|?] ?].
      * apply last_char_None in Hlast. by subst.
    + destruct (last_char (String c rest)) eqn:Hlast.
      * rewrite base_eq in Hrun.
        by destruct (_get_instance_uuids_by_ip _ w) as [[?|?] ?].
      * by apply last_char_None in Hlast.
  - by intros [->| ->].
Qed.

(** * Floating ips: disassociation and the life of an association *)

Lemma fips_at_delete address id r :
  fips_at address
    (set_floatingips
       (List.filter (λ f, negb (fip_has_id id f)) (floatingips r)) r)
  = List.filter (λ f, negb (fip_has_id id f)) (fips_at address r).
Proof.
  unfold fips_at. cbn [floatingips set_floatingips].
  rewrite !filter_twice. apply filter_ext. intros f. apply andb_comm.
Qed.

Lemma fips_at_elem address fip r :
  fip ∈ fips_at address r → fip ∈ floatingips r.
Proof. intros H. by apply list_elem_of_In, filter_In in H as [H%list_elem_of_In _]. Qed.

Lemma existsb_fip_has_id fip fips :
  fip ∈ fips → existsb (fip_has_id (fip_id fip)) fips = true.
Proof.
  intros Hin. apply existsb_exists. exists fip.
  split; [by apply list_elem_of_In|]. by apply bool_decide_eq_true_2.
Qed.

Lemma delete_floatingip_run client id w :
  fault w (length (trace w)) = None →
  existsb (fip_has_id id) (floatingips (remote w)) = true →
  delete_floatingip client id w
  = (inr (),
     log (event client (DeleteFloatingip id) Returned)
       (set_remote
          (set_floatingips
             (List.filter (λ f, negb (fip_has_id id f))
                          (floatingips (remote w))) (remote w)) w)).
Proof.
  intros Hf Hex. unfold delete_floatingip, call, remote_delete_floatingip.
  by rewrite Hf, Hex.
Qed.

(** X8. With its two calls going through, the body of
    disassociate_floating_ip, for an address that exactly one floating ip
    holds, clears the port and the fixed address of that record and changes
    no other floating ip and no port. For an address without a record it
    raises FloatingIpNotFoundForAddress, for one with several
    FloatingIpMultipleFoundForAddress, and the service stays as it was. *)
Theorem disassociate_floating_ip_clears (instance : Instance)
    (address : string) (w : World) :
  fault w (length (trace w)) = None →
  fault w (S (length (trace w))) = None →
  let run := disassociate_floating_ip instance address w in
  match fips_at address (remote w) with
  | [] =>
      run.1 = inl (FloatingIpNotFoundForAddress address)
      ∧ remote run.2 = remote w
  | [fip] =>
      run.1 = inr ()
      ∧ fips_at address (remote run.2) = [set_fip_port None None fip]
      ∧ Forall2 (cleared_or_same (fip_id fip)) (floatingips (remote w))
                (floatingips (remote run.2))
      ∧ ports (remote run.2) = ports (remote w)
  | _ =>
      run.1 = inl (FloatingIpMultipleFoundForAddress address)
      ∧ remote run.2 = remote w
  end.
Proof.
  intros Hf Hf2 run. subst run. unfold disassociate_floating_ip.
  rewrite bind_eq, get_floating_ip_by_address_eq by done.
  destruct (fips_at address (remote w)) as [|fip [|fip' rest]] eqn:Hfips;
    [done| |done].
  set (w1 := log _ w).
  assert (Hin : fip ∈ floatingips (remote w)).
  { apply (fips_at_elem address). rewrite Hfips. apply list_elem_of_here. }
  rewrite update_floatingip_run.
  2:{ subst w1. cbn [fault trace log]. rewrite length_app. cbn [length].
      by replace (length (trace w) + 1) with (S (length (trace w))) by lia. }
  2:{ by apply existsb_fip_has_id. }
  cbn [fst snd remote log set_remote]. split; [done|].
  change (remote w1) with (remote w).
  rewrite fips_at_update, Hfips. cbn [fmap list_fmap].
  unfold fip_has_id at 1. rewrite bool_decide_eq_true_2 by done.
  split; [done|]. split; [|done].
  cbn [floatingips set_floatingips].
  apply Forall2_fmap_r, Forall_Forall2_diag, Forall_forall.
  intros f _. cbn. unfold fip_has_id. case_bool_decide; [by right|by left].
Qed.

(** ** From association to release *)

Lemma calls_go_through_now w : calls_go_through w → fault w (length (trace w)) = None.
Proof. intros H. by apply H. Qed.

Lemma calls_go_through_log ev w :
  calls_go_through w → calls_go_through (log ev w).
Proof.
  intros H n Hn. cbn [fault trace log] in *. apply H.
  rewrite length_app in Hn. lia.
Qed.

Lemma calls_go_through_set_remote r w :
  calls_go_through w → calls_go_through (set_remote r w).
Proof. intros H n Hn. by apply H. Qed.

(** What a successful association has done. *)
Lemma associate_floating_ip_inv instance floating_address fixed_address w w1 :
  associate_floating_ip instance floating_address fixed_address w
  = (inr (), w1) →
  ∃ p fip,
    last (candidates instance fixed_address (remote w)) = Some p
    ∧ port_id p ≠ ""
    ∧ fips_at floating_address (remote w) = [fip]
    ∧ remote w1
      = set_floatingips
          ((λ f, if fip_has_id (fip_id fip) f
                 then set_fip_port (Some (port_id p)) (Some fixed_address) f
                 else f) <$> floatingips (remote w)) (remote w)
    ∧ fault w1 = fault w
    ∧ length (trace w) ≤ length (trace w1).
Proof.
  unfold associate_floating_ip. intros Hrun.
  bind_in Hrun; [done|]. rename a into port, w0 into wa.
  unfold _get_port_id_by_fixed_address in E. bind_in E; [done|].
  unfold list_ports in E0. rewrite call_query_eq in E0.
  destruct (fault w _); [done|]. injection E0 as <- <-.
  rewrite scan_ports_is_last in E.
  fold (instance_search instance) in E.
  fold (candidates instance fixed_address (remote w)) in E.
  destruct (last (candidates instance fixed_address (remote w)))
    as [p|] eqn:Hlast; [|done].
  cbn [fmap option_fmap option_map truthy truthy_option default negb] in E.
  destruct (truthy (port_id p)) eqn:Hid; [|done].
  injection E as <- <-. apply bool_decide_eq_true in Hid.
  rewrite bind_eq in Hrun. unfold _get_floating_ip_by_address in Hrun.
  rewrite bind_eq in Hrun. unfold list_floatingips in Hrun.
  rewrite call_query_eq in Hrun. cbn [fault trace log] in Hrun.
  destruct (fault w _); [done|].
  fold (by_floating_address floating_address) in Hrun.
  change (remote (log ?ev w)) with (remote w) in Hrun.
  fold (fips_at floating_address (remote w)) in Hrun.
  destruct (fips_at floating_address (remote w)) as [|fip [|? ?]] eqn:Hfips;
    [done| |done].
  cbn [mret M_ret] in Hrun.
  unfold update_floatingip, call in Hrun. cbn [fault trace log] in Hrun.
  destruct (fault w _); [done|].
  unfold remote_update_floatingip in Hrun. cbn [remote log] in Hrun.
  destruct (existsb _ _); [|done]. injection Hrun as <-.
  exists p, fip. cbn [remote fault trace log set_remote].
  repeat split; try done. rewrite !length_app. lia.
Qed.

Lemma find_has_id (p : Port) (l : list Port) :
  NoDup (port_id <$> l) → p ∈ l → List.find (has_id (port_id p)) l = Some p.
Proof.
  induction l as [|q l IH]; [by intros _ ?%elem_of_nil|].
  cbn [fmap list_fmap List.find]. intros [Hq Hl]%NoDup_cons.
  unfold has_id at 1. intros [->|Hin]%elem_of_cons.
  - by rewrite bool_decide_eq_true_2.
  - rewrite bool_decide_eq_false_2; [by apply IH|].
    intros Heq. apply Hq. rewrite Heq. apply list_elem_of_fmap. eauto.
Qed.

Section life_cycle.

(** X9. After the body of associate_floating_ip has returned, and with no
    call failing from then on, release_floating_ip of the address is refused
    with FloatingIpAssociated and changes nothing; once the body of
    disassociate_floating_ip has run, the release goes through and no
    floating ip with the address is left. *)
Theorem floating_ip_life_cycle (instance : Instance)
    (floating_address fixed_address : string) (w w1 : World) :
  associate_floating_ip instance floating_address fixed_address w
  = (inr (), w1) →
  calls_go_through w1 →
  ∃ w2 w3 w4,
    release_floating_ip floating_address w1
    = (inl (FloatingIpAssociated floating_address), w2)
    ∧ remote w2 = remote w1
    ∧ disassociate_floating_ip instance floating_address w2 = (inr (), w3)
    ∧ release_floating_ip floating_address w3 = (inr (), w4)
    ∧ fips_at floating_address (remote w4) = [].
Proof.
  intros Hassoc Hgo.
  destruct (associate_floating_ip_inv _ _ _ _ _ Hassoc)
    as (p&fip&_&Hid&Hfips&Hremote&_&_).
  assert (Hfips1 : fips_at floating_address (remote w1)
                   = [set_fip_port (Some (port_id p)) (Some fixed_address)
                                   fip]).
  { rewrite Hremote, fips_at_update, Hfips. cbn [fmap list_fmap].
    unfold fip_has_id. by rewrite bool_decide_eq_true_2. }
  set (fip1 := set_fip_port _ _ fip) in Hfips1.
  (* the release is refused *)
  eexists _, _, _. split.
  { unfold release_floating_ip.
    rewrite bind_eq, get_floating_ip_by_address_eq
      by (by apply calls_go_through_now).
    rewrite Hfips1. cbn [fip_port_id fip1 set_fip_port].
    replace (truthy (Some (port_id p))) with true; [done|].
    symmetry. by apply bool_decide_eq_true_2. }
  set (w2 := log _ w1).
  assert (Hgo2 : calls_go_through w2) by (by apply calls_go_through_log).
  split; [done|].
  (* the disassociation *)
  assert (Hin1 : fip1 ∈ floatingips (remote w2)).
  { apply (fips_at_elem floating_address). change (remote w2) with (remote w1).
    rewrite Hfips1. apply list_elem_of_here. }
  split.
  { unfold disassociate_floating_ip.
    rewrite bind_eq, get_floating_ip_by_address_eq
      by (by apply calls_go_through_now).
    change (remote w2) with (remote w1). rewrite Hfips1.
    rewrite update_floatingip_run; [done| |].
    - by apply calls_go_through_now, calls_go_through_log.
    - by apply existsb_fip_has_id. }
  set (w3 := log _ (set_remote _ _)).
  assert (Hgo3 : calls_go_through w3).
  { by apply calls_go_through_log, calls_go_through_set_remote,
      calls_go_through_log. }
  assert (Hfips3 : fips_at floating_address (remote w3)
                   = [set_fip_port None None fip1]).
  { subst w3. cbn [remote log set_remote].
    change (remote w2) with (remote w1).
    rewrite fips_at_update, Hfips1. cbn [fmap list_fmap].
    unfold fip_has_id. by rewrite bool_decide_eq_true_2. }
  set (fip3 := set_fip_port None None fip1) in Hfips3.
  assert (Hin3 : fip3 ∈ floatingips (remote w3)).
  { apply (fips_at_elem floating_address). rewrite Hfips3.
    apply list_elem_of_here. }
  (* the release goes through *)
  split.
  { unfold release_floating_ip.
    rewrite bind_eq, get_floating_ip_by_address_eq
      by (by apply calls_go_through_now).
    rewrite Hfips3. cbn [fip_port_id fip3 set_fip_port truthy truthy_option].
    rewrite delete_floatingip_run; [done| |].
    - by apply calls_go_through_now, calls_go_through_log.
    - by apply existsb_fip_has_id. }
  change (fips_at floating_address
            (set_floatingips
               (List.filter (λ f, negb (fip_has_id (fip_id fip3) f))
                            (floatingips (remote w3))) (remote w3)) = []).
  rewrite fips_at_delete, Hfips3. cbn [List.filter].
  unfold fip_has_id. by rewrite bool_decide_eq_true_2.
Qed.

(** X10. With its calls going through and exactly one floating ip at the
    address, get_instance_id_by_floating_address leaves the service as it
    was; it returns None after the listing alone when the floating ip has no
    port, and otherwise the device_id of that port, or the client's 404
    error when the service has no such port. *)
Theorem get_instance_id_by_floating_address_lookup (address : string)
    (fip : FloatingIp) (w : World) :
  fault w (length (trace w)) = None →
  fault w (S (length (trace w))) = None →
  fips_at address (remote w) = [fip] →
  let client := get_client false in
  let listed :=
    event client (ListFloatingips (by_floating_address address)) Returned in
  let run := get_instance_id_by_floating_address address w in
  remote run.2 = remote w
  ∧ match fip_port_id fip with
    | None => run = (inr None, log listed w)
    | Some port =>
        port ≠ "" →
        match List.find (has_id port) (ports (remote w)) with
        | Some p => run.1 = inr (port_device_id p)
        | None => run.1 = inl (QuantumClientException 404)
        end
    end.
Proof.
  intros Hf Hf2 Hfips client listed run. subst run.
  unfold get_instance_id_by_floating_address.
  rewrite bind_eq, get_floating_ip_by_address_eq by done. rewrite Hfips.
  fold client. fold listed.
  destruct (fip_port_id fip) as [port|]; [|done].
  destruct (decide (port = "")) as [->|Hport]; [done|].
  replace (truthy (Some port)) with true
    by (symmetry; by apply bool_decide_eq_true_2).
  cbn [negb default]. rewrite bind_eq. unfold show_port, call.
  cbn [fault trace log]. rewrite length_app. cbn [length].
  replace (length (trace w) + 1) with (S (length (trace w))) by lia.
  rewrite Hf2. unfold remote_show_port. cbn [remote log].
  by destruct (List.find _ _).
Qed.

(** X11. After the body of associate_floating_ip has returned for an
    instance (the ports of the service having distinct ids, no call failing
    afterwards), get_instance_id_by_floating_address on the floating address
    returns the uuid of that instance. *)
Theorem associate_then_lookup (instance : Instance)
    (floating_address fixed_address : string) (w w1 : World) :
  associate_floating_ip instance floating_address fixed_address w
  = (inr (), w1) →
  NoDup (port_id <$> ports (remote w)) →
  calls_go_through w1 →
  (get_instance_id_by_floating_address floating_address w1).1
  = inr (Some (uuid instance)).
Proof.
  intros Hassoc Hnodup Hgo.
  destruct (associate_floating_ip_inv _ _ _ _ _ Hassoc)
    as (p&fip&Hlast&Hid&Hfips&Hremote&_&_).
  assert (Hp : p ∈ candidates instance fixed_address (remote w)).
  { apply last_Some in Hlast as [l' ->]. apply elem_of_app. right.
    apply list_elem_of_here. }
  unfold candidates in Hp.
  apply list_elem_of_In, filter_In in Hp as [Hp _].
  apply filter_In in Hp as [Hp Hmatch]. apply list_elem_of_In in Hp.
  assert (Hdev : port_device_id p = Some (uuid instance)).
  { unfold port_matches, instance_search in Hmatch. cbn in Hmatch.
    rewrite !andb_true_r in Hmatch.
    apply andb_true_iff in Hmatch as [Hmatch _].
    by apply bool_decide_eq_true in Hmatch. }
  assert (Hfips1 : fips_at floating_address (remote w1)
                   = [set_fip_port (Some (port_id p)) (Some fixed_address)
                                   fip]).
  { rewrite Hremote, fips_at_update, Hfips. cbn [fmap list_fmap].
    unfold fip_has_id. by rewrite bool_decide_eq_true_2. }
  unfold get_instance_id_by_floating_address.
  rewrite bind_eq, get_floating_ip_by_address_eq
    by (by apply calls_go_through_now).
  rewrite Hfips1. cbn [fip_port_id set_fip_port].
  replace (truthy (Some (port_id p))) with true
    by (symmetry; by apply bool_decide_eq_true_2).
  cbn [negb default]. rewrite bind_eq. unfold show_port, call.
  rewrite calls_go_through_now by (by apply calls_go_through_log).
  unfold remote_show_port. cbn [remote log].
  replace (ports (remote w1)) with (ports (remote w)) by (by rewrite Hremote).
  unfold id. rewrite find_has_id by done. cbn. by rewrite Hdev.
Qed.

End life_cycle.

(** * What the snapshot builder can raise, and the names it gives *)

Section fails_only_rules.
Context {A B : Type} (P : exn → Prop).

Lemma fails_only_ret (a : A) : fails_only P (mret a).
Proof. by intros w e. Qed.

Lemma fails_only_bind (m : M A) (f : A → M B) :
  fails_only P m → (∀ a, fails_only P (f a)) → fails_only P (m ≫= f).
Proof.
  intros Hm Hf w e. rewrite bind_eq. specialize (Hm w).
  destruct (m w) as [[e'|a] w1]; cbn [fst] in *.
  - intros [= <-]. by apply Hm.
  - apply Hf.
Qed.

Lemma fails_only_try_except (Q : exn → Prop) (body : M A)
    (handler : exn → M A) :
  fails_only Q body → (∀ e, Q e → fails_only P (handler e)) →
  fails_only P (try_except body handler).
Proof.
  intros Hb Hh w e. rewrite try_except_eq. specialize (Hb w).
  destruct (body w) as [[e'|a] w1]; cbn [fst] in *; [|done].
  apply Hh. by apply Hb.
Qed.

End fails_only_rules.

Lemma fails_only_query {A} client c (f : Remote → A) :
  fails_only client_error (call client c (λ _, Returned) (query f)).
Proof.
  intros w e. rewrite call_query_eq.
  destruct (fault w _) as [code|]; [|done]. intros [= <-]. by exists code.
Qed.

Lemma fails_only_map_each {A B} (P : exn → Prop) (l : list A)
    (body : A → M B) :
  (∀ x, fails_only P (body x)) → fails_only P (map_each l body).
Proof.
  intros Hb. induction l as [|x l IH]; cbn [map_each].
  - apply fails_only_ret.
  - apply fails_only_bind; [apply Hb|]. intros y.
    apply fails_only_bind; [apply IH|]. intros ys. apply fails_only_ret.
Qed.

Lemma get_floating_ips_fails client fixed_ip port :
  fails_only client_error
    (_get_floating_ips_by_fixed_and_port client fixed_ip port).
Proof.
  unfold _get_floating_ips_by_fixed_and_port, list_floatingips.
  eapply fails_only_try_except; [apply fails_only_query|].
  intros e [code ->]. case_bool_decide.
  - apply fails_only_ret.
  - intros w e [= <-]. by exists code.
Qed.

Lemma get_subnets_from_port_fails port :
  fails_only client_error (_get_subnets_from_port port).
Proof.
  unfold _get_subnets_from_port, list_subnets, list_ports.
  destruct (negb _); [apply fails_only_ret|].
  apply fails_only_bind; [apply fails_only_query|]. intros ipam_subnets.
  apply fails_only_map_each. intros subnet.
  apply fails_only_bind; [apply fails_only_query|]. intros dhcp_ports.
  apply fails_only_ret.
Qed.

(** The search for the network of a port among networks that hold it
    binds both names. *)
Lemma find_network_found port networks network_name net :
  port_network_id port ∈ net_id <$> networks →
  ∃ label n, find_network port networks network_name net
             = (Some label, Some n).
Proof.
  revert net. induction networks as [|n rest IH]; intros net.
  - by intros ?%elem_of_nil.
  - cbn [fmap list_fmap find_network]. intros Hin.
    case_bool_decide as Hn; [by eauto|].
    apply elem_of_cons in Hin as [?|Hin]; [done|]. by apply IH.
Qed.

Lemma substring_length (n : nat) (s : string) :
  String.length (String.substring 0 n s) ≤ n.
Proof.
  revert s. induction n as [|n IH]; intros s.
  - destruct s; cbn; lia.
  - destruct s as [|c s]; cbn; [lia|]. specialize (IH s). lia.
Qed.

Section builder_errors.
Variable CONF : Config.
Variable imports : Imports.

Lemma build_vif_fails client networks bound port :
  port_network_id port ∈ net_id <$> networks →
  fails_only client_error (build_vif CONF imports client networks bound port).
Proof.
  intros Hin. unfold build_vif.
  destruct (find_network_found port networks bound.1 bound.2 Hin)
    as (label&n&->).
  apply fails_only_bind.
  { apply fails_only_map_each. intros fixed_ip.
    apply fails_only_bind; [apply get_floating_ips_fails|]. intros floats.
    apply fails_only_ret. }
  intros network_IPs.
  apply fails_only_bind; [apply get_subnets_from_port_fails|]. intros subnets.
  repeat case_bool_decide; apply fails_only_ret.
Qed.

Lemma build_vifs_fails client networks bound ports :
  Forall (λ port, port_network_id port ∈ net_id <$> networks) ports →
  fails_only client_error
    (build_vifs CONF imports client networks bound ports).
Proof.
  intros Hall. revert bound.
  induction Hall as [|port rest Hport _ IH]; intros bound;
    cbn [build_vifs].
  - apply fails_only_ret.
  - apply fails_only_bind; [by apply build_vif_fails|]. intros [vif bound'].
    apply fails_only_bind; [apply IH|]. intros vifs. apply fails_only_ret.
Qed.

(** X12. Given a list of networks, _build_network_info_model raises nothing
    but errors of the client: as the NOTE(danms) comment says, the search
    for the network of a port cannot fail, so network_name is never unbound. *)
Theorem build_network_info_model_client_errors_only (instance : Instance)
    (networks : list Network) :
  fails_only client_error
    (_build_network_info_model CONF imports instance (Some networks)).
Proof.
  unfold _build_network_info_model, list_ports.
  apply fails_only_bind; [apply fails_only_query|]. intros listed.
  intros w e. rewrite bind_eq. cbn [mret M_ret]. rewrite bind_eq.
  set (kept := List.filter _ listed).
  assert (Hkept : Forall (λ p, port_network_id p ∈ net_id <$> networks) kept).
  { apply Forall_forall. intros p Hp. subst kept.
    apply list_elem_of_In, filter_In in Hp as [_ Hp].
    by apply bool_decide_eq_true in Hp. }
  unfold lift.
  assert (Hsorted : ∃ sorted,
             _ensure_requested_network_ordering port_network_id kept
               (net_id <$> networks) = inr sorted
             ∧ Forall (λ p, port_network_id p ∈ net_id <$> networks) sorted).
  { destruct (decide (net_id <$> networks = [])) as [Hnil|Hne].
    - exists kept. split; [by apply ordering_none|done].
    - eexists. split; [by apply ordering_sorts|].
      by rewrite sort_by_position_perm. }
  destruct Hsorted as (sorted&->&Hall).
  revert e. apply fails_only_bind; [by apply build_vifs_fails|].
  intros vifs. apply fails_only_ret.
Qed.

#[local] Opaque String.substring.

Lemma build_vif_names client networks bound port w vif bound' w' :
  build_vif CONF imports client networks bound port w
  = (inr (vif, bound'), w') →
  names_fit imports vif.
Proof.
  unfold build_vif. intros Hrun.
  destruct (find_network _ _ _ _) as [network_name net].
  bind_in Hrun; [done|]. bind_in Hrun; [done|].
  repeat match type of Hrun with
         | context [if ?b then _ else _] => destruct b
         end;
    destruct network_name, net; try done;
    injection Hrun as <- _ _; split; cbn [vif_devname nm_bridge vif_network];
    intros ? [= <-]; apply substring_length.
Qed.

Lemma build_vifs_names client networks bound ports w vifs w' :
  build_vifs CONF imports client networks bound ports w = (inr vifs, w') →
  Forall (names_fit imports) vifs.
Proof.
  revert bound w vifs w'. induction ports as [|port rest IH];
    intros bound w vifs w' Hrun.
  - by injection Hrun as <- _.
  - cbn [build_vifs] in Hrun. bind_in Hrun; [done|].
    destruct a as [vif bound'].
    apply build_vif_names in E.
    bind_in Hrun; [done|]. injection Hrun as <- _.
    apply IH in E0. by constructor.
Qed.

(** What the builder returns: the cached records when it is given
    networks, then one record per port it kept, with names that fit. *)
Lemma build_network_info_model_built (instance : Instance)
    (networks : option (list Network)) (w w' : World) (nw_info : list VIF) :
  _build_network_info_model CONF imports instance networks w
  = (inr nw_info, w') →
  ∃ vifs,
    nw_info
    = match networks with
      | Some _ => info_cache_network_info instance
      | None => []
      end ++ vifs
    ∧ vif_id <$> vifs ⊆ port_id <$> instance_ports instance (remote w)
    ∧ Forall (names_fit imports) vifs.
Proof.
  unfold _build_network_info_model. intros Hrun.
  bind_in Hrun; [done|]. rename a into listed.
  unfold list_ports in E. rewrite call_query_eq in E.
  destruct (fault w _); [done|]. injection E as <- <-.
  set (all := List.filter _ (ports (remote w))) in Hrun.
  match type of Hrun with
  | context [log ?ev w] => set (wl := log ev w) in Hrun
  end.
  bind_in Hrun; [done|]. destruct a as [[cached net_ids] nets].
  bind_in Hrun; [done|]. rename a into ordered.
  bind_in Hrun; [done|]. rename a into vifs.
  injection Hrun as <- _. exists vifs.
  fold (builder_search instance) in all.
  fold (instance_ports instance (remote w)) in all.
  assert (Hsub : ordered ⊆ instance_ports instance (remote w)).
  { unfold lift in E0.
    assert (Hord : ordered ⊆ List.filter
              (λ port, bool_decide (port_network_id port ∈ net_ids)) all).
    { unfold _ensure_requested_network_ordering in E0.
      destruct (truthy net_ids); [|by injection E0 as <- _].
      destruct (mapM _ _) as [l|] eqn:Hl; [|done].
      injection E0 as <- _. intros p Hp.
      apply list_elem_of_fmap in Hp as ([k q]&->&Hq).
      rewrite sort_keyed_perm in Hq.
      apply mapM_Some_1 in Hl.
      destruct (Forall2_elem_of_r _ _ _ _ Hl Hq) as (x&Hx&Hk).
      unfold keyed in Hk. destruct (list_index _ _); [|done].
      cbn in Hk. by injection Hk as _ <-. }
    intros p Hp. apply Hord in Hp.
    apply list_elem_of_In, filter_In in Hp as [Hp _].
    by apply list_elem_of_In. }
  split; [|split].
  - f_equal. destruct networks as [nets0|].
    + injection E as <- _ _.
      induction (info_cache_network_info instance) as [|v vs IHv]; [done|].
      cbn [fmap list_fmap]. f_equal; [by destruct v|exact IHv].
    + bind_in E; [done|]. by injection E as <- _ _.
  - apply build_vifs_networks in E1 as [_ ->].
    intros id (p&->&Hp)%list_elem_of_fmap.
    apply list_elem_of_fmap. exists p. split; [done|]. by apply Hsub.
  - by apply build_vifs_names in E1.
Qed.

(** X13. A snapshot that _build_network_info_model returns is the instance's
    cached interfaces (when networks are given; nothing otherwise) followed
    by built records; each built record is for a port the service lists for
    the instance in its project, and its devname and its bridge, when it has
    one, are at most NIC_NAME_LEN characters long. *)
Theorem build_network_info_model_names_fit (instance : Instance)
    (networks : option (list Network)) (w w' : World) (nw_info : list VIF) :
  _build_network_info_model CONF imports instance networks w
  = (inr nw_info, w') →
  ∃ vifs,
    nw_info
    = match networks with
      | Some _ => info_cache_network_info instance
      | None => []
      end ++ vifs
    ∧ vif_id <$> vifs ⊆ port_id <$> instance_ports instance (remote w)
    ∧ Forall (names_fit imports) vifs.
Proof. apply build_network_info_model_built. Qed.

End builder_errors.

(** * Removing a port, attaching one *)

Section ports.
Variable CONF : Config.
Variable imports : Imports.

(** What the delete of one port leaves, known or not. *)
Lemma delete_port_swallowed id w :
  fault w (length (trace w)) = None →
  ∃ w1, try_except (delete_port (get_client false) id) (λ ex, mret ()) w
        = (inr (), w1)
        ∧ ports (remote w1)
          = List.filter (λ p, negb (has_id id p)) (ports (remote w)).
Proof.
  intros Hf. rewrite try_except_eq. unfold delete_port, call.
  rewrite Hf. unfold remote_delete_port.
  destruct (existsb _ _) eqn:Hex.
  - eexists. split; [done|]. done.
  - eexists. split; [done|]. cbn [remote log]. symmetry.
    apply forallb_filter_id, forallb_forall. intros p Hp.
    apply negb_true_iff. apply not_true_is_false. intros Hid.
    assert (existsb (has_id id) (ports (remote w)) = true); [|congruence].
    apply existsb_exists. eauto.
Qed.

(** X14. When the deletion is not failed by the service and
    deallocate_port_for_instance returns, the service has lost exactly the
    port with the given id, and the snapshot returned has no interface with
    that id. *)
Theorem deallocate_port_for_instance_forgets (instance : Instance)
    (port : string) (w w' : World) (snapshot : list VIF) :
  fault w (length (trace w)) = None →
  deallocate_port_for_instance CONF imports instance port w
  = (inr snapshot, w') →
  ports (remote w')
  = List.filter (λ p, negb (has_id port p)) (ports (remote w))
  ∧ port ∉ vif_id <$> snapshot.
Proof.
  intros Hf Hrun. unfold deallocate_port_for_instance in Hrun.
  rewrite bind_eq in Hrun.
  destruct (delete_port_swallowed port w Hf) as (w1&Hdel&Hports).
  rewrite Hdel in Hrun.
  unfold trigger_security_group_members_refresh,
    trigger_instance_remove_security_group_refresh in Hrun.
  do 2 (rewrite bind_eq in Hrun; cbn [mret M_ret] in Hrun).
  pose proof (proj2 (get_instance_nw_info_reads CONF imports instance None)
                w1) as Hkeep.
  rewrite Hrun in Hkeep. cbn [snd] in Hkeep. rewrite Hkeep.
  split; [done|].
  unfold get_instance_nw_info, _get_instance_nw_info in Hrun.
  destruct (build_network_info_model_built _ _ _ _ _ _ _ Hrun)
    as (vifs&->&Hsub&_).
  cbn [app]. intros Hin. apply Hsub in Hin.
  apply list_elem_of_fmap in Hin as (p&->&Hp).
  apply list_elem_of_In, filter_In in Hp as [Hp _].
  rewrite Hports in Hp. apply filter_In in Hp as [_ Hp].
  unfold has_id in Hp. by rewrite bool_decide_eq_true_2 in Hp.
Qed.

(** X15. With a port id given, allocate_port_for_instance ignores network_id
    and requested_ip: any two choices of them give the same run, the network
    being the one of the port. *)
Theorem allocate_port_for_instance_by_port (instance : Instance)
    (port : string) (network_id requested_ip : option string)
    (network_id' requested_ip' : option string) (w : World) :
  port ≠ "" →
  allocate_port_for_instance CONF imports instance (Some port) network_id
    requested_ip w
  = allocate_port_for_instance CONF imports instance (Some port) network_id'
      requested_ip' w.
Proof.
  intros Hport. unfold allocate_port_for_instance, allocate_for_instance.
  rewrite !bind_eq. f_equal.
  unfold resolve_request. destruct (negb _); [done|].
  rewrite !bind_eq. cbn [fold_each]. rewrite !bind_eq.
  unfold gather_requested.
  replace (truthy (Some port)) with true
    by (symmetry; by apply bool_decide_eq_true_2).
  done.
Qed.

End ports.

(** * The extension cache, from empty *)

Lemma list_to_map_names (exts : list Extension) (name : string) :
  is_Some ((list_to_map (reverse ((λ ext, (ext_name ext, ext)) <$> exts))
            : gmap string Extension) !! name)
  ↔ name ∈ ext_name <$> exts.
Proof.
  rewrite <-not_eq_None_Some, <-not_elem_of_list_to_map.
  rewrite fmap_reverse, elem_of_reverse, <-list_fmap_compose.
  split; [|by intros ? []].
  intros Hnn. by destruct (decide (name ∈ ext_name <$> exts)).
Qed.

Section empty_cache.
Variable CONF : Config.
Variable imports : Imports.

Lemma refresh_from_empty (w : World) :
  last_quantum_extension_sync (self w) = None →
  _refresh_quantum_extensions_cache CONF w
  = match fault w (length (trace w)) with
    | Some code =>
        (inl (QuantumClientException code),
         log (event (get_client true) ListExtensions
                    (Raised (QuantumClientException code))) w)
    | None =>
        (inr (),
         set_self
           {| last_quantum_extension_sync := Some (clock w (readings w));
              extensions :=
                list_to_map
                  (reverse ((λ ext, (ext_name ext, ext))
                              <$> remote_extensions (remote w))) |}
           (tick (log (event (get_client true) ListExtensions Returned) w)))
    end.
Proof.
  intros Hnone. unfold _refresh_quantum_extensions_cache.
  rewrite bind_eq. cbn [get_self]. rewrite Hnone.
  cbn [truthy truthy_option negb]. rewrite bind_eq. cbn [mret M_ret].
  rewrite bind_eq. unfold list_extensions. rewrite call_query_eq.
  by destruct (fault w _).
Qed.

(** X16. When the extensions have never been synchronised,
    _has_port_binding_extension(refresh_cache=True) lists the extensions of
    the service once: it answers whether the port-binding extension is among
    them and records the time of the synchronisation. When that call fails,
    the client's error is raised and the cache is left as it was. *)
Theorem has_port_binding_asks_service (w : World) :
  last_quantum_extension_sync (self w) = None →
  let run := _has_port_binding_extension CONF imports true w in
  match fault w (length (trace w)) with
  | None =>
      run.1 = inr (bool_decide (PORTBINDING_EXT imports
                                ∈ ext_name <$> remote_extensions (remote w)))
      ∧ last_quantum_extension_sync (self run.2)
        = Some (clock w (readings w))
      ∧ new_events w run.2 = [event (get_client true) ListExtensions Returned]
  | Some code =>
      run.1 = inl (QuantumClientException code) ∧ self run.2 = self w
  end.
Proof.
  intros Hnone run. subst run. unfold _has_port_binding_extension.
  rewrite bind_eq, refresh_from_empty by done.
  destruct (fault w _) as [code|]; [done|].
  rewrite bind_eq. cbn [get_self mret M_ret fst snd].
  split; [|split].
  - cbn [self set_self extensions]. f_equal.
    apply bool_decide_ext, list_to_map_names.
  - done.
  - by apply new_events_app.
Qed.

End empty_cache.

(** * Agents *)

Lemma get_agents_status_snoc agents agent :
  get_agents_status (agents ++ [agent])
  = let result := get_agents_status agents in
    let result :=
      if negb (truthy (result !! agent_host agent))
      then <[agent_host agent := []]> result else result in
    alter (λ l, l ++ [_format_agents_status agent]) (agent_host agent) result.
Proof. unfold get_agents_status. by rewrite foldl_app. Qed.

(** X17. The result of the loop of get_agents_status maps a host to the
    formatted statuses (agent_type, alive) of exactly the agents on that
    host, in the order the client listed them; a host without agents is not
    a key. *)
Theorem get_agents_status_groups (agents : list Agent) (h : string) :
  get_agents_status agents !! h
  = match List.filter (λ a, bool_decide (agent_host a = h)) agents with
    | [] => None
    | on_host => Some (_format_agents_status <$> on_host)
    end.
Proof.
  induction agents as [|agent agents IH] using rev_ind; [done|].
  rewrite get_agents_status_snoc, List.filter_app. cbn zeta.
  cbn [List.filter]. case_bool_decide as Hh.
  - subst h. rewrite lookup_alter_eq, IH.
    destruct (List.filter _ agents) as [|a0 on_host].
    + cbn [truthy truthy_option negb]. by rewrite lookup_insert_eq.
    + cbn [truthy truthy_option truthy_list fmap list_fmap negb].
      rewrite IH. cbn [fmap option_fmap option_map app list_fmap].
      by rewrite fmap_app.
  - rewrite app_nil_r, lookup_alter_ne by done.
    destruct (negb _); [|done]. by rewrite lookup_insert_ne.
Qed.

(** * What an accepted request guarantees *)

Lemma validate_requested_step acc rn w ids w1 :
  validate_requested acc rn w = (inr ids, w1) →
  ids = acc ++ [network_asked (remote w) rn]
  ∧ (network_asked (remote w) rn ∉ acc)
  ∧ names_free_port (remote w) rn.
Proof.
  unfold validate_requested, network_asked, names_free_port.
  destruct rn as [[network_id fixed_ip] port]. cbn [snd]. intros Hrun.
  bind_in Hrun; [done|]. rename a into asked.
  case_bool_decide as Hin; [done|]. injection Hrun as <- <-.
  destruct (truthy port) eqn:Hport.
  - bind_in E; [done|]. rename a into p.
    unfold show_port, call in E0. destruct (fault w _); [done|].
    unfold remote_show_port in E0.
    destruct (List.find _ _) as [p0|] eqn:Hfind; [|done].
    injection E0 as <- <-.
    destruct (truthy (port_device_id p0)) eqn:Hdev; [done|].
    injection E as <- _. cbn [fmap option_fmap option_map].
    split; [done|]. split; [done|].
    intros port' -> Hne. cbn [default] in Hfind. unfold id in Hfind. eauto.
  - injection E as <- _. split; [done|]. split; [done|].
    intros port' -> Hne.
    assert (truthy (Some port') = true) by (by apply bool_decide_eq_true_2).
    congruence.
Qed.

Lemma validate_requested_fold requested acc w ids w1 :
  fold_each requested acc validate_requested w = (inr ids, w1) →
  ids = acc ++ (network_asked (remote w) <$> requested)
  ∧ (NoDup acc → NoDup ids)
  ∧ Forall (names_free_port (remote w)) requested.
Proof.
  revert acc w. induction requested as [|rn rest IH]; intros acc w Hrun.
  - injection Hrun as <- _. by rewrite app_nil_r.
  - cbn [fold_each] in Hrun. bind_in Hrun; [done|].
    pose proof (validate_requested_keeps acc rn w) as Hkeep.
    rewrite E in Hkeep. cbn [snd] in Hkeep.
    apply validate_requested_step in E as (->&Hnew&Hport).
    apply IH in Hrun as (->&Hnodup&Hports). rewrite Hkeep in *.
    split; [by rewrite <-app_assoc|]. split; [|by constructor].
    intros Hacc. apply Hnodup. apply NoDup_app.
    split; [done|]. split; [|apply NoDup_singleton].
    intros x Hx ->%list_elem_of_singleton. done.
Qed.

Lemma candidate_networks_usable project net_ids r n :
  n ∈ candidate_networks project net_ids r →
  n ∈ networks r ∧ usable project n.
Proof.
  unfold candidate_networks, usable. intros [Hn|Hn]%elem_of_app;
    apply list_elem_of_In, filter_In in Hn as [Hin Hm];
    (split; [by apply list_elem_of_In|]);
    unfold net_matches in Hm; cbn [ns_tenant_id ns_shared optb] in Hm;
    apply andb_true_iff in Hm as [Hm _].
  - apply andb_true_iff in Hm as [Ht Hs].
    apply bool_decide_eq_true in Ht, Hs. by right.
  - apply andb_true_iff in Hm as [_ Hs].
    apply bool_decide_eq_true in Hs. by left.
Qed.

(** X18. When validate_networks accepts a non-empty request (the networks of
    the service having distinct ids), it has left the service as it was, the
    entries ask for pairwise different networks, each of them a network of
    the service that the project may use (its own or a shared one), and
    every port an entry names exists and is bound to no device. *)
Theorem validate_networks_accepts (context : Context)
    (requested : list requested_network) (w w' : World) :
  requested ≠ [] →
  NoDup (net_id <$> networks (remote w)) →
  validate_networks context requested w = (inr (), w') →
  remote w' = remote w
  ∧ NoDup (network_asked (remote w) <$> requested)
  ∧ Forall (λ rn, ∃ n, n ∈ networks (remote w)
                       ∧ network_asked (remote w) rn = Some (net_id n)
                       ∧ usable (ctx_project_id context) n) requested
  ∧ Forall (names_free_port (remote w)) requested.
Proof.
  intros Hne Hnodup Hrun. unfold validate_networks in Hrun.
  destruct requested as [|rn0 rest0] eqn:Hreq; [done|].
  rewrite <-Hreq in *. replace (truthy requested) with true in Hrun
    by (by rewrite Hreq).
  cbn [negb] in Hrun.
  bind_in Hrun; [done|]. rename a into net_ids, w0 into w1.
  pose proof (keeps_fold_each requested [] validate_requested
                validate_requested_keeps w) as Hk1.
  rewrite E in Hk1. cbn [snd] in Hk1.
  apply validate_requested_fold in E as (Hids&Hnd&Hports).
  cbn [app] in Hids. specialize (Hnd (NoDup_nil_2)).
  bind_in Hrun; [done|]. rename a into nets, w0 into w2.
  case_bool_decide as Hlen; [done|]. injection Hrun as <-.
  assert (Hnn : net_ids ≠ []) by (rewrite Hids, Hreq; done).
  destruct (get_available_networks_run _ _ _ _ _ E) as (Hk2&_&Hnets).
  specialize (Hnets Hnn).
  set (raw := candidate_networks (ctx_project_id context) net_ids (remote w1))
    in *.
  assert (Hperm : nets ≡ₚ raw) by (rewrite Hnets; apply sort_by_position_perm).
  assert (Hkeys : NoDup (network_key <$> nets)).
  { rewrite Hperm. unfold network_key.
    rewrite (list_fmap_compose net_id Some). apply NoDup_fmap_2; [apply _|].
    unfold raw, candidate_networks. apply NoDup_filter_disjoint.
    - intros n [[_ Hs1]%andb_true_iff _]%andb_true_iff
               [[_ Hs2]%andb_true_iff _]%andb_true_iff.
      cbn in Hs1, Hs2. apply bool_decide_eq_true in Hs1, Hs2. congruence.
    - by rewrite Hk1. }
  assert (Hsub : Forall (λ n, network_key n ∈ net_ids) nets).
  { rewrite Hperm. by apply candidate_networks_requested. }
  assert (Hall : net_ids ≡ₚ network_key <$> nets).
  { symmetry. apply submseteq_length_Permutation.
    - apply NoDup_submseteq; [done|].
      intros i (n&->&Hn)%list_elem_of_fmap.
      rewrite Forall_forall in Hsub. by apply Hsub.
    - rewrite length_fmap. lia. }
  split; [congruence|]. split; [by rewrite <-Hids|]. split; [|done].
  apply Forall_forall. intros rn Hrn.
  assert (Hin : network_asked (remote w) rn ∈ network_key <$> nets).
  { rewrite <-Hall, Hids. apply list_elem_of_fmap. eauto. }
  apply list_elem_of_fmap in Hin as (n&Hasked&Hn).
  rewrite Hperm in Hn. apply candidate_networks_usable in Hn as [Hn Hu].
  rewrite Hk1 in Hn. eauto.
Qed.

(** * The changes an allocation makes *)

Lemma quiet_change evs : Forall quiet evs → omap change_of evs = [].
Proof.
  induction 1 as [|ev evs Hev _ IH]; [done|].
  cbn [omap list_omap]. rewrite IH.
  unfold quiet, mutates in Hev. unfold change_of.
  by destruct (ev_call ev).
Qed.

Lemma neutral_change evs : Forall neutral evs → omap change_of evs = [].
Proof.
  induction 1 as [|ev evs Hev _ IH]; [done|].
  cbn [omap list_omap]. rewrite IH. unfold change_of. by rewrite Hev.
Qed.


Lemma neutral_mac evs : Forall neutral evs → omap mac_of evs = [].
Proof.
  induction 1 as [|ev evs Hev _ IH]; [done|].
  cbn [omap list_omap]. rewrite IH. unfold mac_of. by rewrite Hev.
Qed.

Section changes.
Variable CONF : Config.
Variable imports : Imports.

(** One pass through the [try] block: the change made when it returns,
    the MAC taken from the pool whatever the outcome. *)
Lemma allocate_port_calls quantum instance ports fixed_ips
    security_group_ids network st w :
  let run :=
    allocate_port CONF imports quantum instance ports fixed_ips
      security_group_ids network st w in
  ∃ evs,
    trace run.2 = trace w ++ evs
    ∧ (∀ st', run.1 = inr st' →
         omap change_of evs = [planned ports network])
    ∧ (∀ pool, available_macs st = Some pool →
         ∃ k, omap mac_of evs = take k pool
              ∧ ∀ st', run.1 = inr st' →
                       available_macs st' = Some (drop k pool)).
Proof.
  intros run. subst run. unfold allocate_port. rewrite bind_eq.
  match goal with
  | |- context [_populate_quantum_extension_values CONF imports instance
                  ?b w] =>
      destruct (populate_run CONF imports instance b w) as (evs&Ht&Hn&_);
      destruct (_populate_quantum_extension_values CONF imports instance b w)
        as [[e|body] w1]
  end; cbn [fst snd] in *.
  { exists evs. split; [done|]. split; [done|]. intros pool _.
    exists 0. by rewrite neutral_mac. }
  rewrite bind_eq, has_port_binding_cached. unfold planned.
  destruct (ports !! net_id network) as [port|].
  - rewrite bind_eq. unfold update_port.
    match goal with
    | |- context [call ?c (UpdatePort ?i ?b) ?out ?op w1] =>
        destruct (call_run c (UpdatePort i b) out op w1) as (o&Ht1&_&_);
        destruct (call c (UpdatePort i b) out op w1) as [[e|[]] w2]
    end; cbn [fst snd mret M_ret] in *.
    + eexists. rewrite Ht1, Ht, <-app_assoc. split; [done|].
      split; [done|]. intros pool _. exists 0.
      by rewrite omap_app, neutral_mac.
    + eexists. rewrite Ht1, Ht, <-app_assoc. split; [done|].
      split.
      { intros st' _. by rewrite omap_app, neutral_change. }
      intros pool Hpool. exists 0. rewrite omap_app, neutral_mac by done.
      split; [done|]. intros st' [= <-]. done.
  - rewrite bind_eq.
    destruct (available_macs st) as [[|mac rest]|] eqn:Hmacs.
    + exists evs. split; [done|]. split; [done|].
      intros pool [= <-]. exists 0. by rewrite neutral_mac.
    + cbn [mret M_ret]. rewrite bind_eq. unfold create_port.
      match goal with
      | |- context [call ?c (CreatePort ?b) ?out ?op w1] =>
          destruct (call_run c (CreatePort b) out op w1) as (o&Ht1&_&_);
          destruct (call c (CreatePort b) out op w1) as [[e|created] w2]
      end; cbn [fst snd mret M_ret] in *.
      * eexists. rewrite Ht1, Ht, <-app_assoc. split; [done|].
        split; [done|]. intros pool [= <-]. exists 1.
        by rewrite omap_app, neutral_mac.
      * eexists. rewrite Ht1, Ht, <-app_assoc. split; [done|].
        split.
        { intros st' _. by rewrite omap_app, neutral_change. }
        intros pool [= <-]. exists 1. rewrite omap_app, neutral_mac by done.
        split; [done|]. intros st' [= <-]. done.
    + cbn [mret M_ret]. rewrite bind_eq. unfold create_port.
      match goal with
      | |- context [call ?c (CreatePort ?b) ?out ?op w1] =>
          destruct (call_run c (CreatePort b) out op w1) as (o&Ht1&_&_);
          destruct (call c (CreatePort b) out op w1) as [[e|created] w2]
      end; cbn [fst snd mret M_ret] in *.
      * eexists. rewrite Ht1, Ht, <-app_assoc. split; [done|].
        split; [done|]. intros pool [=].
      * eexists. rewrite Ht1, Ht, <-app_assoc. split; [done|].
        split.
        { intros st' _. by rewrite omap_app, neutral_change. }
        intros pool [=].
Qed.

Lemma compensate_calls quantum st w :
  ∃ undo,
    trace (compensate CONF imports quantum st w).2 = trace w ++ undo
    ∧ omap mac_of undo = [].
Proof.
  destruct (compensate_run CONF imports quantum st w)
    as (w'&undo&Hrun&Ht&_&Hi&_).
  rewrite Hrun. exists undo. split; [done|].
  destruct (undo_calls_compensating _ _ _ _ _ Hi) as (_&_&Hcomp).
  clear -Hcomp. induction Hcomp as [|ev undo Hev _ IH]; [done|].
  cbn [omap list_omap]. rewrite IH. unfold compensating in Hev.
  unfold mac_of. by destruct (ev_call ev).
Qed.

(** The loop: one change per network when it returns; the MACs of the
    creations are taken from the head of the pool, in order. *)
Lemma allocate_ports_calls quantum instance ports fixed_ips security_groups
    security_group_ids nets st w :
  let run :=
    allocate_ports CONF imports quantum instance ports fixed_ips
      security_groups security_group_ids nets st w in
  ∃ evs,
    trace run.2 = trace w ++ evs
    ∧ (∀ st', run.1 = inr st' →
         omap change_of evs = planned ports <$> nets)
    ∧ (∀ pool, available_macs st = Some pool →
         ∃ k, omap mac_of evs = take k pool).
Proof.
  revert st w. induction nets as [|network rest IH]; intros st w run;
    subst run.
  - exists []. cbn. rewrite app_nil_r. split; [done|]. split; [done|].
    intros pool _. by exists 0.
  - cbn [allocate_ports].
    destruct (cannot_apply security_groups network).
    { exists []. cbn. rewrite app_nil_r. split; [done|]. split; [done|].
      intros pool _. by exists 0. }
    rewrite bind_eq, try_except_eq.
    destruct (allocate_port_calls quantum instance ports fixed_ips
                security_group_ids network st w) as (evs&Ht&Hchange&Hmac).
    cbn zeta in Ht, Hchange, Hmac.
    destruct (allocate_port _ _ _ _ _ _ _ _ _ w) as [[e|st1] w1];
      cbn [fst snd] in *.
    + unfold save_and_reraise_exception. rewrite bind_eq.
      destruct (compensate_calls quantum st w1) as (undo&Ht2&Hundo).
      destruct (compensate CONF imports quantum st w1) as [[e'|[]] w2];
        unfold raise; cbn [fst snd] in *.
      * exists (evs ++ undo). rewrite Ht2, Ht, <-app_assoc.
        split; [done|]. split; [done|]. intros pool Hpool.
        destruct (Hmac pool Hpool) as (k&Hk&_). exists k.
        by rewrite omap_app, Hundo, app_nil_r.
      * exists (evs ++ undo). rewrite Ht2, Ht, <-app_assoc.
        split; [done|]. split; [done|]. intros pool Hpool.
        destruct (Hmac pool Hpool) as (k&Hk&_). exists k.
        by rewrite omap_app, Hundo, app_nil_r.
    + destruct (IH st1 w1) as (evs'&Ht'&Hchange'&Hmac').
      cbn zeta in Ht', Hchange', Hmac'.
      exists (evs ++ evs'). rewrite Ht', Ht, <-app_assoc.
      split; [done|]. split.
      * intros st' Hret. rewrite omap_app, (Hchange st1 eq_refl).
        by rewrite (Hchange' st' Hret).
      * intros pool Hpool. destruct (Hmac pool Hpool) as (k&Hk&Hst1).
        destruct (Hmac' (drop k pool) (Hst1 st1 eq_refl)) as (k'&Hk').
        exists (k + k'). rewrite omap_app, Hk, Hk'.
        by rewrite take_take_drop.
Qed.

(** The changing calls of an allocation that returns. *)
Lemma allocate_for_instance_changes (instance : Instance)
    (macs : option (list string)) (requested : list requested_network)
    (security_groups : list string) (w w1 w' : World) (rq : Requested)
    (nets : list Network) (security_group_ids : list string)
    (snapshot : list VIF) :
  resolve_request instance macs requested security_groups w
  = (inr (rq, nets, security_group_ids), w1) →
  allocate_for_instance CONF imports instance macs requested security_groups w
  = (inr snapshot, w') →
  omap change_of (new_events w w') = planned (rq_ports rq) <$> nets.
Proof.
  intros Hreq Hrun.
  pose proof (proj1 (resolve_request_reads instance macs requested
                       security_groups) w) as (pre&Hpre&Hquiet).
  rewrite Hreq in Hpre. cbn [snd] in Hpre.
  unfold allocate_for_instance in Hrun. rewrite bind_eq, Hreq in Hrun.
  rewrite bind_eq in Hrun.
  destruct (allocate_ports_calls (get_client false) instance (rq_ports rq)
              (rq_fixed rq) security_groups security_group_ids nets
              (first_attempt rq) w1) as (fwd&Hfwd&Hchange&_).
  cbn zeta in Hfwd, Hchange.
  destruct (allocate_ports _ _ _ _ _ _ _ _ _ _ w1) as [[e|st] w2];
    [discriminate Hrun|].
  cbn [fst snd] in *. specialize (Hchange st eq_refl).
  unfold trigger_security_group_members_refresh,
    trigger_instance_add_security_group_refresh in Hrun.
  do 2 (rewrite bind_eq in Hrun; cbn [mret M_ret] in Hrun).
  rewrite bind_eq in Hrun.
  pose proof (proj1 (get_instance_nw_info_reads CONF imports instance
                       (Some nets)) w2) as (post&Hpost&Hquiet').
  destruct (get_instance_nw_info CONF imports instance (Some nets) w2)
    as [[e|nw_info] w3]; [discriminate Hrun|].
  cbn [snd] in Hpost. injection Hrun as _ <-.
  rewrite (new_events_app w w3 (pre ++ fwd ++ post))
    by (by rewrite Hpost, Hfwd, Hpre, <-!app_assoc).
  rewrite !omap_app, (quiet_change pre), (quiet_change post) by done.
  by rewrite app_nil_r.
Qed.


End changes.

(** * The security groups of an allocation *)

Lemma quiet_creates_with ids ev : quiet ev → creates_with ids ev.
Proof. intros Hq body Hc. destruct Hq. unfold mutates. by rewrite Hc. Qed.

Lemma resolve_security_groups_grows gs acc entries ids :
  Forall (λ g, sg_id g ≠ "") gs →
  resolve_security_groups gs acc entries = inr ids →
  ∃ more, ids = acc ++ more ∧ length more = length entries.
Proof.
  intros Hgs. revert acc. induction entries as [|sg rest IH]; intros acc Hrun.
  - injection Hrun as <-. exists []. by rewrite app_nil_r.
  - cbn [resolve_security_groups] in Hrun.
    rewrite resolve_security_group_eq in Hrun by done.
    destruct (named sg gs) as [|g [|g' gs']].
    + destruct (identified sg gs); [done|].
      cbn [mbind result_bind] in Hrun.
      destruct (IH _ Hrun) as (more&->&Hlen). exists (sg :: more).
      rewrite <-app_assoc. split; [done|]. cbn. by rewrite Hlen.
    + cbn [mbind result_bind] in Hrun.
      destruct (IH _ Hrun) as (more&->&Hlen). exists (sg_id g :: more).
      rewrite <-app_assoc. split; [done|]. cbn. by rewrite Hlen.
    + done.
Qed.

(** Among logged calls that create with the given groups, one for each
    network that has no requested port, there is a creation on each such
    network, and it carries the groups. *)
Lemma created_with_groups ids ports nets evs n :
  Forall (creates_with ids) evs →
  omap change_of evs = planned ports <$> nets →
  n ∈ nets → ports !! net_id n = None →
  ∃ ev body,
    ev ∈ evs ∧ ev_call ev = CreatePort body
    ∧ rq_network_id body = Some (net_id n)
    ∧ rq_security_groups body = Some ids.
Proof.
  intros Hwith Hchanges Hn Hfree.
  assert (Hin : CreatesOn (Some (net_id n)) ∈ omap change_of evs).
  { rewrite Hchanges. apply list_elem_of_fmap. exists n. split; [|done].
    unfold planned. by rewrite Hfree. }
  apply list_elem_of_omap in Hin as (ev&Hev&Hchange).
  rewrite Forall_forall in Hwith. specialize (Hwith ev Hev).
  unfold change_of in Hchange.
  destruct (ev_call ev) as [| | | |body| | | | | | |] eqn:Hcall;
    try discriminate Hchange.
  injection Hchange as Hnet. exists ev, body.
  split; [done|]. split; [done|]. split; [done|]. by apply Hwith.
Qed.

Section groups.
Variable CONF : Config.
Variable imports : Imports.

(** The request with security groups, when the same request without them
    resolves and the listing of the groups goes through. *)
Lemma resolve_request_groups instance macs requested security_groups w w2 rq
    nets :
  resolve_request instance macs requested [] w = (inr (rq, nets, []), w2) →
  fault w2 (length (trace w2)) = None →
  security_groups ≠ [] →
  resolve_request instance macs requested security_groups w
  = (match resolve_security_groups (tenant_groups instance (remote w)) []
             security_groups with
     | inl e => inl e
     | inr ids => inr (rq, nets, ids)
     end,
     log (event (get_client false)
                (ListSecurityGroups (project_id instance)) Returned) w2).
Proof.
  intros Hpre Hf Hne.
  pose proof (proj2 (resolve_request_reads instance macs requested [])
                w) as Hkeeps.
  rewrite Hpre in Hkeeps. cbn [snd] in Hkeeps.
  unfold resolve_request in *.
  destruct (negb _); [done|].
  bind_in Hpre; [done|]. bind_in Hpre; [done|].
  rewrite !bind_eq in Hpre. cbn in Hpre. injection Hpre as <- <- <-.
  rewrite bind_eq, E, bind_eq, E0, bind_eq.
  replace (truthy security_groups) with true by (by destruct security_groups).
  unfold list_security_groups. rewrite call_query_eq, Hf, Hkeeps.
  fold (tenant_groups instance (remote w)).
  rewrite bind_eq. unfold lift.
  by destruct (resolve_security_groups _ _ _).
Qed.

Lemma allocate_port_creates_with quantum instance ports fixed_ips
    security_group_ids network st :
  security_group_ids ≠ [] →
  emits (creates_with security_group_ids)
    (try_except
       (allocate_port CONF imports quantum instance ports fixed_ips
          security_group_ids network st)
       (λ e, save_and_reraise_exception e
               (compensate CONF imports quantum st))).
Proof.
  intros Hne.
  assert (Htruthy : truthy security_group_ids = true)
    by (by destruct security_group_ids).
  unfold allocate_port, save_and_reraise_exception, compensate,
    unbind_touched, delete_created, _populate_quantum_extension_values,
    _has_port_binding_extension, _refresh_quantum_extensions_cache,
    list_extensions, update_port, create_port, delete_port.
  rewrite Htruthy.
  repeat match goal with
         | |- emits _ (_ ≫= _) => apply emits_bind; [|intros ?]
         | |- emits _ (try_except _ _) => apply emits_try_except; [|intros ?]
         | |- emits _ (for_each _ _) => apply emits_for_each; intros ?
         | |- emits _ (call _ _ _ _) =>
             apply emits_call; intros ? ? [=]; by subst
         | |- emits _ (if ?b then _ else _) => destruct b
         | |- emits _ (match ?x with _ => _ end) => destruct x
         | |- _ => by auto with frame
         end.
Qed.

Lemma allocate_ports_creates_with quantum instance ports fixed_ips
    security_groups security_group_ids nets st :
  security_group_ids ≠ [] →
  emits (creates_with security_group_ids)
    (allocate_ports CONF imports quantum instance ports fixed_ips
       security_groups security_group_ids nets st).
Proof.
  intros Hne. revert st. induction nets as [|network rest IH]; intros st;
    cbn [allocate_ports]; [apply emits_ret|].
  destruct (cannot_apply _ _); [apply emits_raise|].
  apply emits_bind; [by apply allocate_port_creates_with|].
  intros st'. apply IH.
Qed.

(** C3.  Let the part of allocate_for_instance that precedes the security
    groups go through (the same request without security groups resolves),
    let the listing of the project's groups return groups with non-empty
    ids, and take an entry of the security-group list that the loop
    reaches: the entries before it resolve.  If several groups are named as
    the entry, allocate_for_instance raises NoUniqueMatch.  If no group is
    named as the entry and none has it as its id, it raises
    SecurityGroupNotFound.  In both cases the listing of the groups is the
    last call: no port is created or updated.  If exactly one group is
    named as the entry, the id of that group is the one recorded for the
    entry, whether or not another group has the entry as its id; when
    the remaining entries resolve, every port the call creates is created
    with the recorded ids, and a call that returns has created one such
    port on each resolved network for which the request names no port. *)
Theorem security_group_resolution (instance : Instance)
    (macs : option (list string)) (requested : list requested_network)
    (before after : list string) (security_group : string)
    (w w2 : World) (rq : Requested) (nets : list Network)
    (ids : list string) :
  let gs := tenant_groups instance (remote w) in
  let security_groups := before ++ security_group :: after in
  let listed :=
    event (get_client false) (ListSecurityGroups (project_id instance))
          Returned in
  let run :=
    allocate_for_instance CONF imports instance macs requested
      security_groups w in
  resolve_request instance macs requested [] w = (inr (rq, nets, []), w2) →
  fault w2 (length (trace w2)) = None →
  Forall (λ g, sg_id g ≠ "") gs →
  resolve_security_groups gs [] before = inr ids →
  (1 < length (named security_group gs) →
   run = (inl (NoUniqueMatch security_group), log listed w2))
  ∧ (named security_group gs = [] → identified security_group gs = [] →
     run = (inl (SecurityGroupNotFound security_group), log listed w2))
  ∧ (∀ g security_group_ids,
       named security_group gs = [g] →
       resolve_security_groups gs (ids ++ [sg_id g]) after
       = inr security_group_ids →
       resolve_request instance macs requested security_groups w
       = (inr (rq, nets, security_group_ids), log listed w2)
       ∧ security_group_ids !! length before = Some (sg_id g)
       ∧ Forall (creates_with security_group_ids) (new_events w run.2)
       ∧ (∀ snapshot w' n,
            run = (inr snapshot, w') →
            n ∈ nets → rq_ports rq !! net_id n = None →
            ∃ ev body,
              ev ∈ new_events w w'
              ∧ ev_call ev = CreatePort body
              ∧ rq_network_id body = Some (net_id n)
              ∧ rq_security_groups body = Some security_group_ids)).
Proof.
  intros gs security_groups listed run Hpre Hf Hgs Hbefore.
  assert (Hne : security_groups ≠ [])
    by (subst security_groups; by destruct before).
  pose proof (resolve_request_groups instance macs requested
                security_groups w w2 rq nets Hpre Hf Hne) as Hreq.
  fold gs listed in Hreq.
  destruct (resolution_of_entry gs before after security_group ids
              Hgs Hbefore) as (Hmany&Hnone&Hone).
  fold security_groups in Hmany, Hnone, Hone.
  split; [|split].
  - intros Hlen. subst run. unfold allocate_for_instance.
    by rewrite bind_eq, Hreq, (Hmany Hlen).
  - intros Hn Hi. subst run. unfold allocate_for_instance.
    by rewrite bind_eq, Hreq, (Hnone Hn Hi).
  - intros g security_group_ids Hg Hafter.
    assert (Hres : resolve_security_groups gs [] security_groups
                   = inr security_group_ids).
    { subst security_groups.
      rewrite resolve_security_groups_app, Hbefore.
      cbn [mbind result_bind resolve_security_groups].
      rewrite resolve_security_group_eq, Hg by done. exact Hafter. }
    rewrite Hres in Hreq. split; [done|].
    destruct (resolve_security_groups_grows _ _ _ _ Hgs Hbefore)
      as (more&->&Hlen).
    destruct (resolve_security_groups_grows _ _ _ _ Hgs Hafter)
      as (more'&->&_).
    cbn [app] in *. split.
    { rewrite <-app_assoc, lookup_app_r by lia.
      by rewrite Hlen, Nat.sub_diag. }
    set (security_group_ids := (more ++ [sg_id g]) ++ more') in *.
    assert (Hids : security_group_ids ≠ [])
      by (subst security_group_ids; by destruct more).
    assert (Hall : Forall (creates_with security_group_ids)
                          (new_events w run.2)).
    2:{ split; [exact Hall|]. intros snapshot w' n Hrun Hn Hfree.
        rewrite Hrun in Hall.
        eapply created_with_groups; [exact Hall| |done|done].
        eapply allocate_for_instance_changes; [exact Hreq|exact Hrun]. }
    pose proof (proj1 (resolve_request_reads instance macs requested
                         security_groups) w) as (pre&Hpre'&Hquiet).
    rewrite Hreq in Hpre'. cbn [snd] in Hpre'.
    subst run. unfold allocate_for_instance. rewrite bind_eq, Hreq.
    match goal with
    | |- context [new_events w (?m ?w3).2] =>
        assert (Hrest : emits (creates_with security_group_ids) m)
    end.
    { apply emits_bind;
        [by apply allocate_ports_creates_with|intros st].
      unfold trigger_security_group_members_refresh,
        trigger_instance_add_security_group_refresh.
      apply emits_bind; [apply emits_ret|intros _].
      apply emits_bind; [apply emits_ret|intros _].
      apply emits_bind; [|intros ?; apply emits_ret].
      eapply emits_weaken; [apply quiet_creates_with|].
      apply get_instance_nw_info_reads. }
    destruct (Hrest (log listed w2)) as (evs&Ht&Hevs).
    erewrite new_events_app; [|by rewrite Ht, Hpre', <-app_assoc].
    apply Forall_app. split; [|done].
    eapply Forall_impl; [exact Hquiet|]. apply quiet_creates_with.
Qed.

End groups.

Lemma security_group_resolution_witness :
  let run :=
    allocate_for_instance Sample.CONF Sample.imports Sample.instance None
      Sample.only_a ["db"; "sg-1"] Sample.with_groups in
  (∃ ev body,
     ev ∈ new_events Sample.with_groups run.2
     ∧ ev_call ev = CreatePort body
     ∧ rq_network_id body = Some "net-a"
     ∧ rq_security_groups body = Some ["sg-3"; "sg-2"])
  ∧ (allocate_for_instance Sample.CONF Sample.imports Sample.instance None
       Sample.only_a ["db"; "web"; "sg-1"] Sample.with_two_web).1
    = inl (NoUniqueMatch "web").
Proof.
  intros run.
  pose proof (λ w2 rq nets,
                security_group_resolution Sample.CONF Sample.imports
                  Sample.instance None Sample.only_a ["db"] [] "sg-1"
                  Sample.with_groups w2 rq nets ["sg-3"]) as Hone.
  pose proof (λ w2 rq nets,
                security_group_resolution Sample.CONF Sample.imports
                  Sample.instance None Sample.only_a ["db"] ["sg-1"] "web"
                  Sample.with_two_web w2 rq nets ["sg-3"]) as Hmany.
  split.
  - edestruct Hone as (_&_&Hname).
    + run_lhs. reflexivity.
    + reflexivity.
    + repeat constructor; discriminate.
    + reflexivity.
    + destruct (Hname (Sample.group "sg-2" "sg-1") ["sg-3"; "sg-2"]
                  eq_refl eq_refl) as (_&_&_&Happlied).
      eapply (Happlied _ run.2 Sample.net_a).
      * subst run. run_lhs. reflexivity.
      * apply list_elem_of_here.
      * reflexivity.
  - edestruct Hmany as (Hraised&_).
    + run_lhs. reflexivity.
    + reflexivity.
    + repeat constructor; discriminate.
    + reflexivity.
    + assert (Hlen : 1 < 2) by lia.
      exact (f_equal fst (Hraised Hlen)).
Defined.

(** * Hypervisor MAC addresses *)





Section macs.
Variable CONF : Config.
Variable imports : Imports.


End macs.

(** * The snapshot without given networks *)

Section cached_order.
Variable CONF : Config.
Variable imports : Imports.

(** X21. Without networks given, a snapshot that _build_network_info_model
    returns holds only interfaces on the networks of the instance's cached
    interfaces, in the order of those networks in the cache; with an empty
    cache the snapshot is empty. *)
Theorem snapshot_follows_cached_order (instance : Instance)
    (w w' : World) (nw_info : list VIF) :
  _build_network_info_model CONF imports instance None w
  = (inr nw_info, w') →
  Forall (λ v, vif_network_id v ∈ cached_networks instance) nw_info
  ∧ StronglySorted
      (λ a b, position (λ id : string, id) (cached_networks instance)
                       (vif_network_id a)
              ≤ position (λ id : string, id) (cached_networks instance)
                         (vif_network_id b)) nw_info
  ∧ (info_cache_network_info instance = [] → nw_info = []).
Proof.
  unfold _build_network_info_model. intros Hrun.
  bind_in Hrun; [done|]. rename a into listed.
  bind_in Hrun; [done|]. destruct a as [[cached net_ids] nets].
  bind_in E0; [done|]. injection E0 as <- <- <- _.
  fold (cached_networks instance) in Hrun.
  set (kept := List.filter _ listed) in Hrun.
  bind_in Hrun; [done|]. rename a0 into ordered.
  bind_in Hrun; [done|]. rename a0 into vifs.
  injection Hrun as <- _. cbn [app].
  apply build_vifs_networks in E2 as [Hnets _].
  assert (Hkept : Forall (λ p, port_network_id p ∈ cached_networks instance)
                         kept).
  { apply Forall_forall. intros p Hp. subst kept.
    apply list_elem_of_In, filter_In in Hp as [_ Hp].
    by apply bool_decide_eq_true in Hp. }
  unfold lift in E0.
  destruct (decide (cached_networks instance = [])) as [Hnil|Hne].
  - rewrite Hnil in *. destruct kept as [|p kept'].
    + rewrite ordering_none in E0 by done. injection E0 as <- _.
      destruct vifs; [|done]. by repeat split; constructor.
    + apply Forall_cons in Hkept as [Hp _]. inversion Hp.
  - rewrite ordering_sorts in E0 by done. injection E0 as <- _.
    split; [|split].
    + apply Forall_forall. intros v Hv.
      assert (Hin : vif_network_id v ∈ vif_network_id <$> vifs)
        by (apply list_elem_of_fmap; eauto).
      rewrite Hnets in Hin. apply list_elem_of_fmap in Hin as (p&->&Hp).
      rewrite sort_by_position_perm in Hp.
      rewrite Forall_forall in Hkept. by apply Hkept.
    + pose proof (sort_by_position_sorted port_network_id
                    (cached_networks instance) kept) as Hsorted.
      apply (StronglySorted_fmap port_network_id _
               (λ a b, position (λ id : string, id)
                         (cached_networks instance) a
                       ≤ position (λ id : string, id)
                           (cached_networks instance) b))
        in Hsorted; [|done].
      rewrite <-Hnets in Hsorted. clear -Hsorted.
      induction vifs as [|v vifs IH]; [constructor|].
      cbn [fmap list_fmap] in Hsorted.
      apply StronglySorted_inv in Hsorted as [Hs Hv].
      constructor; [by apply IH|]. rewrite Forall_fmap in Hv. exact Hv.
    + intros Hcache. unfold cached_networks in Hne. by rewrite Hcache in Hne.
Qed.

(** X22. After a deallocate_for_instance whose listing and deletions all
    went through, a get_instance_nw_info (no networks given) that returns
    gives the empty snapshot. *)
Theorem deallocation_leaves_no_interface (instance : Instance)
    (w w'' : World) (nw_info : list VIF) :
  fault w (length (trace w)) = None →
  let w' := (deallocate_for_instance instance w).2 in
  Forall (λ ev, succeeded ev = true) (new_events w w') →
  get_instance_nw_info CONF imports instance None w' = (inr nw_info, w'') →
  nw_info = [].
Proof.
  intros Hfault w' Hok Hrun.
  destruct (deallocate_for_instance_run instance w Hfault) as (_&_&Hleft).
  cbn zeta in Hleft. destruct (Hleft Hok) as [_ Hnone].
  unfold get_instance_nw_info, _get_instance_nw_info in Hrun.
  destruct (build_network_info_model_built _ _ _ _ _ _ _ Hrun)
    as (vifs&->&Hsub&_).
  cbn [app].
  assert (Hempty : instance_ports instance (remote w') = []).
  { unfold instance_ports. apply filter_nil_Forall.
    eapply Forall_impl; [exact Hnone|]. intros p Hp.
    unfold port_matches, builder_search. cbn.
    rewrite (bool_decide_eq_false_2 (port_device_id p = Some (uuid instance)))
      by done.
    by rewrite andb_false_r. }
  rewrite Hempty in Hsub. destruct vifs as [|v vifs]; [done|].
  assert (Hin : vif_id v ∈ []) by apply Hsub, list_elem_of_here.
  by apply elem_of_nil in Hin.
Qed.

End cached_order.

(** * A cached network the selector does not return *)

Section served_rules.
Context {A B : Type}.

Lemma served_ret (a : A) : served (mret a).
Proof. intros w Hgo. by exists a, w. Qed.

Lemma served_bind (m : M A) (f : A → M B) :
  served m → (∀ a, served (f a)) → served (m ≫= f).
Proof.
  intros Hm Hf w Hgo. rewrite bind_eq.
  destruct (Hm w Hgo) as (a&w1&->&Hgo1&Hr1).
  destruct (Hf a w1 Hgo1) as (b&w2&->&Hgo2&Hr2).
  exists b, w2. split; [done|]. split; [done|]. congruence.
Qed.

Lemma served_query client c (f : Remote → A) :
  served (call client c (λ _, Returned) (query f)).
Proof.
  intros w Hgo. rewrite call_query_eq, calls_go_through_now by done.
  eexists _, _. split; [done|]. split; [|done].
  by apply calls_go_through_log.
Qed.

Lemma served_try_except (body : M A) (handler : exn → M A) :
  served body → served (try_except body handler).
Proof.
  intros Hb w Hgo. rewrite try_except_eq.
  destruct (Hb w Hgo) as (a&w1&->&Hgo1&Hr1). by exists a, w1.
Qed.

End served_rules.

Lemma served_map_each {A B} (l : list A) (body : A → M B) :
  (∀ x, served (body x)) → served (map_each l body).
Proof.
  intros Hb. induction l as [|x l IH]; cbn [map_each].
  - apply served_ret.
  - apply served_bind; [apply Hb|]. intros y.
    apply served_bind; [apply IH|]. intros ys. apply served_ret.
Qed.

Lemma get_floating_ips_served client fixed_ip port :
  served (_get_floating_ips_by_fixed_and_port client fixed_ip port).
Proof.
  unfold _get_floating_ips_by_fixed_and_port, list_floatingips.
  apply served_try_except, served_query.
Qed.

Lemma get_subnets_from_port_served port :
  served (_get_subnets_from_port port).
Proof.
  unfold _get_subnets_from_port, list_subnets, list_ports.
  destruct (negb _); [apply served_ret|].
  apply served_bind; [apply served_query|]. intros ipam_subnets.
  apply served_map_each. intros subnet.
  apply served_bind; [apply served_query|]. intros dhcp_ports.
  apply served_ret.
Qed.

(** Without a network of the port's id the search binds no name. *)
Lemma find_network_unbound port networks net :
  port_network_id port ∉ net_id <$> networks →
  (find_network port networks None net).1 = None.
Proof.
  revert net. induction networks as [|n rest IH]; intros net Hnot; [done|].
  cbn [fmap list_fmap find_network] in *.
  apply not_elem_of_cons in Hnot as [Hne Hnot].
  rewrite bool_decide_eq_false_2 by done. by apply IH.
Qed.

Section unbound_name.
Variable CONF : Config.
Variable imports : Imports.

Lemma get_available_networks_served project :
  ∀ w, calls_go_through w →
    ∃ w', _get_available_networks project [] w
          = (inr (candidate_networks project [] (remote w)), w')
          ∧ calls_go_through w' ∧ remote w' = remote w.
Proof.
  intros w Hgo.
  assert (Hs : served (_get_available_networks project [])).
  { unfold _get_available_networks, list_networks.
    apply served_bind; [apply served_query|]. intros nets.
    apply served_bind; [apply served_query|]. intros shared.
    intros w0 Hgo0. by eexists _, w0. }
  destruct (Hs w Hgo) as (nets&w'&Hrun&Hgo'&Hr).
  destruct (get_available_networks_run _ _ _ _ _ Hrun) as (_&Hnets&_).
  rewrite (Hnets eq_refl) in Hrun. eauto.
Qed.

(** X23. Without networks given and with no call failing,
    _build_network_info_model raises NameError (network_name is unbound)
    when the first port it works on, the first in the cached order, is on a
    network that is not among the networks available to the instance's
    project. *)
Theorem snapshot_without_networks_unbound_name (instance : Instance)
    (w : World) (p : Port) :
  calls_go_through w →
  head (ports_in_cached_order instance (remote w)) = Some p →
  port_network_id p
  ∉ net_id <$> candidate_networks (project_id instance) [] (remote w) →
  (_build_network_info_model CONF imports instance None w).1 = inl NameError.
Proof.
  intros Hgo Hhead Hnot. unfold _build_network_info_model.
  rewrite bind_eq. unfold list_ports.
  rewrite call_query_eq, calls_go_through_now by done.
  fold (builder_search instance). fold (instance_ports instance (remote w)).
  set (w1 := log _ w).
  assert (Hgo1 : calls_go_through w1) by (by apply calls_go_through_log).
  rewrite bind_eq, bind_eq.
  destruct (get_available_networks_served (project_id instance) w1 Hgo1)
    as (w2&->&Hgo2&Hr2).
  change (remote w1) with (remote w). cbn [mret M_ret].
  fold (cached_networks instance).
  set (kept := List.filter _ (instance_ports instance (remote w))).
  fold kept in Hhead. unfold ports_in_cached_order in Hhead.
  fold kept in Hhead.
  assert (Hkept : Forall (λ q, port_network_id q ∈ cached_networks instance)
                         kept).
  { apply Forall_forall. intros q Hq. subst kept.
    apply list_elem_of_In, filter_In in Hq as [_ Hq].
    by apply bool_decide_eq_true in Hq. }
  assert (Hne : cached_networks instance ≠ []).
  { intros Hnil.
    assert (Hin : p ∈ kept).
    { rewrite <-(sort_by_position_perm port_network_id
                   (cached_networks instance) kept).
      destruct (sort_by_position _ _ kept); [done|].
      injection Hhead as ->. apply list_elem_of_here. }
    rewrite Forall_forall in Hkept. specialize (Hkept p Hin).
    rewrite Hnil in Hkept. by apply elem_of_nil in Hkept. }
  rewrite bind_eq. unfold lift. rewrite ordering_sorts by done.
  destruct (sort_by_position _ _ kept) as [|p0 rest]; [done|].
  injection Hhead as ->.
  rewrite bind_eq. cbn [build_vifs]. rewrite bind_eq.
  unfold build_vif.
  pose proof (find_network_unbound p
                (candidate_networks (project_id instance) [] (remote w))
                None Hnot) as Hfind.
  cbn [fst snd].
  destruct (find_network p _ None None) as [network_name net].
  cbn [fst] in Hfind. subst network_name.
  rewrite bind_eq.
  destruct (served_map_each (port_fixed_ips p)
              (λ fixed_ip,
                 floats ← _get_floating_ips_by_fixed_and_port
                            (get_client true) (ip_address fixed_ip)
                            (port_id p);
                 mret {| fx_address := ip_address fixed_ip;
                         fx_floating_ips :=
                           fip_floating_ip_address <$> floats |})) with
    (w := w2) as (ips&w3&->&Hgo3&_); [|done|].
  { intros fixed_ip. apply served_bind; [apply get_floating_ips_served|].
    intros floats. apply served_ret. }
  rewrite bind_eq.
  destruct (get_subnets_from_port_served p w3 Hgo3) as (subnets&w4&->&_&_).
  by repeat case_bool_decide.
Qed.

End unbound_name.

(** * The subnets of a port *)

Lemma find_existsb {A} (f : A → bool) (l : list A) :
  existsb f l = bool_decide (is_Some (List.find f l)).
Proof.
  induction l as [|x l IH]; [done|]. cbn. destruct (f x); [|done].
  symmetry. apply bool_decide_eq_true_2. by eexists.
Qed.

(** The scan keeps the address found on the last dhcp port that has one
    on the subnet. *)
Lemma dhcp_server_of_last subnet dhcp_ports :
  dhcp_server_of subnet dhcp_ports = dhcp_choice subnet dhcp_ports.
Proof.
  unfold dhcp_server_of, dhcp_choice.
  induction dhcp_ports as [|p ps IH] using rev_ind; [done|].
  rewrite foldl_app, List.filter_app. cbn [foldl List.filter].
  fold (on_subnet_of subnet). rewrite find_existsb.
  destruct (List.find (on_subnet_of subnet) (port_fixed_ips p))
    as [ip_pair|] eqn:Hfind.
  - rewrite bool_decide_eq_true_2 by (by eexists). rewrite last_snoc.
    cbn. by rewrite Hfind.
  - rewrite bool_decide_eq_false_2 by (by intros [? [=]]).
    by rewrite app_nil_r.
Qed.

Lemma map_each_Forall2 {A B} (R : A → B → Prop) (l : list A)
    (body : A → M B) (r : Remote) :
  (∀ x w y w', remote w = r → body x w = (inr y, w') →
               R x y ∧ remote w' = r) →
  ∀ w ys w', remote w = r → map_each l body w = (inr ys, w') →
             Forall2 R l ys.
Proof.
  intros Hb. induction l as [|x l IH]; intros w ys w' Hr Hrun.
  - injection Hrun as <- _. constructor.
  - cbn [map_each] in Hrun. bind_in Hrun; [done|].
    destruct (Hb _ _ _ _ Hr E) as [Hxy Hr1].
    bind_in Hrun; [done|]. injection Hrun as <- _.
    constructor; [done|]. by eapply IH.
Qed.

(** X24. A _get_subnets_from_port that returns gives [] without any call for
    a port without fixed ips; otherwise it gives one record per subnet the
    service lists for the subnet ids of the port, with the subnet's cidr and
    gateway, and as dhcp server the first address on the subnet of the last
    dhcp port of the subnet's network that has one (none when no dhcp port
    has one). *)
Theorem get_subnets_from_port_dhcp (port : Port) (w w' : World)
    (subnets : list SubnetModel) :
  _get_subnets_from_port port w = (inr subnets, w') →
  (port_fixed_ips port = [] → subnets = [] ∧ w' = w)
  ∧ (port_fixed_ips port ≠ [] →
     Forall2 (λ subnet model,
                sm_cidr model = sn_cidr subnet
                ∧ sm_gateway model = sn_gateway_ip subnet
                ∧ sm_dhcp_server model
                  = dhcp_choice subnet (dhcp_ports_of subnet (remote w)))
             (subnets_of_port port (remote w)) subnets).
Proof.
  unfold _get_subnets_from_port. intros Hrun. split.
  - intros Hnil. rewrite Hnil in Hrun. by injection Hrun as <- <-.
  - intros Hne. destruct (port_fixed_ips port) as [|ip ips] eqn:Hips; [done|].
    rewrite <-Hips in *.
    replace (truthy (port_fixed_ips port)) with true in Hrun
      by (by rewrite Hips).
    cbn [negb] in Hrun. bind_in Hrun; [done|].
    unfold list_subnets in E. rewrite call_query_eq in E.
    destruct (fault w _); [done|]. injection E as <- <-.
    fold (subnets_of_port port (remote w)) in Hrun.
    refine (map_each_Forall2 _ _ _ (remote w) _ (log _ w) _ _ eq_refl Hrun).
    intros subnet w0 model w1 Hr Hbody.
    bind_in Hbody; [done|]. injection Hbody as <- <-.
    unfold list_ports in E. rewrite call_query_eq in E.
    destruct (fault w0 _); [done|]. injection E as <- <-.
    cbn [sm_cidr sm_gateway sm_dhcp_server remote log].
    rewrite dhcp_server_of_last. unfold dhcp_ports_of. by rewrite Hr.
Qed.

(** * Floating ips as nova shows them *)

(** X25. With the port dict that _setup_port_dict returns for the port of a
    floating ip, and a pool dict that holds its pool,
    _format_floating_ip_model raises no KeyError: the pool shown is the
    pool's name, or its id when the name is empty, and the instance is the
    device of the port, or None when the floating ip has no port. *)
Theorem format_after_setup_port_dict (client : Client) (fip : FloatingIp)
    (pool : Network) (pool_dict : gmap string Network)
    (port_dict : gmap string Port) (w w' : World) :
  pool_dict !! fip_floating_network_id fip = Some pool →
  _setup_port_dict client (fip_port_id fip) w = (inr port_dict, w') →
  ∃ model,
    _format_floating_ip_model fip pool_dict port_dict = inr model
    ∧ fm_pool model
      = (if bool_decide (net_name pool = "") then net_id pool
         else net_name pool)
    ∧ fm_instance model
      = (if truthy (fip_port_id fip) then
           (λ p, port_device_id p)
             <$> List.find (has_id (default "" (fip_port_id fip)))
                           (ports (remote w))
         else None).
Proof.
  intros Hpool Hsetup. unfold _format_floating_ip_model. rewrite Hpool.
  unfold _setup_port_dict in Hsetup.
  destruct (truthy (fip_port_id fip)) eqn:Hport; cbn [negb] in Hsetup.
  - bind_in Hsetup; [done|]. injection Hsetup as <- _.
    unfold show_port, call in E. destruct (fault w _); [done|].
    unfold remote_show_port in E.
    destruct (List.find _ _) as [p|] eqn:Hfind; [|done].
    injection E as <- _.
    assert (Hid : port_id p = default "" (fip_port_id fip)).
    { apply find_some in Hfind as [_ Hid].
      by apply bool_decide_eq_true in Hid. }
    rewrite <-Hid, lookup_singleton_eq. cbn.
    eexists. split; [done|]. cbn. split; [|done].
    unfold truthy, truthy_string. by repeat case_bool_decide.
  - injection Hsetup as <- _. cbn. eexists. split; [done|]. cbn.
    split; [|done]. unfold truthy, truthy_string. by repeat case_bool_decide.
Qed.

(** X26. With the port dict that _setup_ports_dict returns for a project,
    _format_floating_ip_model raises KeyError for a floating ip whose port
    is not a port of that project. *)
Theorem format_with_project_ports_key_error (client : Client)
    (project port : string) (fip : FloatingIp) (pool : Network)
    (pool_dict : gmap string Network) (port_dict : gmap string Port)
    (w w' : World) :
  project ≠ "" →
  _setup_ports_dict client (Some project) w = (inr port_dict, w') →
  pool_dict !! fip_floating_network_id fip = Some pool →
  fip_port_id fip = Some port → port ≠ "" →
  (∀ p, p ∈ ports (remote w) → port_id p = port →
        port_tenant_id p ≠ project) →
  _format_floating_ip_model fip pool_dict port_dict = inl (KeyError port).
Proof.
  intros Hproject Hsetup Hpool Hbound Hport Hforeign.
  unfold _format_floating_ip_model. rewrite Hpool, Hbound.
  replace (truthy (Some port)) with true
    by (symmetry; by apply bool_decide_eq_true_2).
  cbn [default].
  unfold _setup_ports_dict in Hsetup.
  replace (truthy (Some project)) with true in Hsetup
    by (symmetry; by apply bool_decide_eq_true_2).
  bind_in Hsetup; [done|]. injection Hsetup as <- _.
  unfold list_ports in E. rewrite call_query_eq in E.
  destruct (fault w _); [done|]. injection E as <- _.
  replace (list_to_map _ !! port) with (@None Port); [done|].
  symmetry. apply not_elem_of_list_to_map.
  rewrite fmap_reverse, elem_of_reverse, <-list_fmap_compose.
  intros (p&Hid&Hp)%list_elem_of_fmap. cbn in Hid.
  apply list_elem_of_In, filter_In in Hp as [Hp Hm].
  apply (Hforeign p); [by apply list_elem_of_In|done|].
  unfold port_matches in Hm. cbn in Hm. rewrite !andb_true_r in Hm.
  by apply bool_decide_eq_true in Hm.
Qed.

(** * The statements on the sample deployment *)

Lemma deallocate_for_instance_best_effort_witness :
  let run := deallocate_for_instance Sample.instance Scene.attached in
  run.1 = inr ()
  ∧ issued <$> new_events Scene.attached run.2
    = [(false, ListPorts (device_search Sample.instance));
       (false, DeletePort "port-8")]
  ∧ ports (remote run.2) = [Scene.dhcp_port].
Proof.
  intros run.
  destruct (deallocate_for_instance_best_effort Sample.instance
              Scene.attached eq_refl) as (Hrun&Hcalls&Hleft).
  split; [exact Hrun|]. split; [exact Hcalls|].
  destruct Hleft as [-> _]; [|reflexivity].
  vm_compute. repeat constructor.
Defined.


Lemma add_fixed_ip_attempts_witness :
  let w := Scene.first_update_fails in
  let run := add_fixed_ip_to_instance Sample.instance "net-a" w in
  run.1 = inr ()
  ∧ ∃ tried,
      ev_call <$> drop 2 (new_events w run.2) = ev_call <$> tried
      ∧ (ev_call <$> tried)
          `prefix_of` attempts (ports_attached Sample.instance "net-a"
                                  (remote w))
                        (subnets_of_network "net-a" (remote w))
      ∧ until_success tried.
Proof.
  intros w run.
  assert (Hrun : run.1 = inr ()) by (vm_compute; reflexivity).
  split; [exact Hrun|].
  destruct (add_fixed_ip_attempts Sample.instance "net-a" w eq_refl)
    as [_ Hsome].
  destruct Hsome as (tried&Hevents&Hmatch); [discriminate|reflexivity|].
  fold run in Hevents, Hmatch. rewrite Hrun in Hmatch.
  exists tried. rewrite Hevents. split; [reflexivity|exact Hmatch].
Defined.

Lemma get_fixed_ip_by_address_unique_witness :
  (get_fixed_ip_by_address "10.0.0.5" Scene.attached).1 = inr "vm-1"
  ∧ (get_fixed_ip_by_address "10.0.0.5" Sample.two_ports).1
    = inl (FixedIpAssociatedWithMultipleInstances "10.0.0.5")
  ∧ (get_fixed_ip_by_address "10.0.0.9" Scene.attached).1
    = inl (Exn (FixedIpNotFoundForAddress "10.0.0.9")).
Proof.
  rewrite (get_fixed_ip_by_address_unique "10.0.0.5" Scene.attached eq_refl).
  rewrite (get_fixed_ip_by_address_unique "10.0.0.5" Sample.two_ports
             eq_refl).
  rewrite (get_fixed_ip_by_address_unique "10.0.0.9" Scene.attached eq_refl).
  repeat split.
Defined.

Lemma disassociate_floating_ip_clears_witness :
  let run :=
    disassociate_floating_ip Sample.instance "172.24.4.1" Sample.bound in
  run.1 = inr ()
  ∧ fips_at "172.24.4.1" (remote run.2)
    = [Sample.floating "fip-1" "172.24.4.1" None]
  ∧ ports (remote run.2) = ports (remote Sample.bound).
Proof.
  intros run.
  pose proof (disassociate_floating_ip_clears Sample.instance "172.24.4.1"
                Sample.bound eq_refl eq_refl) as Hclears.
  change (fips_at "172.24.4.1" (remote Sample.bound))
    with [Sample.floating "fip-1" "172.24.4.1" (Some "port-8")] in Hclears.
  destruct Hclears as (Hrun&Hfip&_&Hports). by repeat split.
Defined.

Lemma floating_ip_life_cycle_witness :
  ∃ w2 w3 w4,
    release_floating_ip "172.24.4.1" Scene.associated
    = (inl (FloatingIpAssociated "172.24.4.1"), w2)
    ∧ remote w2 = remote Scene.associated
    ∧ disassociate_floating_ip Sample.instance "172.24.4.1" w2
      = (inr (), w3)
    ∧ release_floating_ip "172.24.4.1" w3 = (inr (), w4)
    ∧ fips_at "172.24.4.1" (remote w4) = [].
Proof.
  apply (floating_ip_life_cycle Sample.instance "172.24.4.1" "10.0.0.5"
           Sample.unbound).
  - run_lhs. reflexivity.
  - intros n _. reflexivity.
Defined.

Lemma get_instance_id_by_floating_address_lookup_witness :
  (get_instance_id_by_floating_address "172.24.4.1" Sample.bound).1
  = inr (Some "vm-1")
  ∧ (get_instance_id_by_floating_address "172.24.4.1" Sample.unbound).1
    = inr None.
Proof.
  destruct (get_instance_id_by_floating_address_lookup "172.24.4.1"
              (Sample.floating "fip-1" "172.24.4.1" (Some "port-8"))
              Sample.bound eq_refl eq_refl eq_refl) as [_ Hbound].
  destruct (get_instance_id_by_floating_address_lookup "172.24.4.1"
              (Sample.floating "fip-1" "172.24.4.1" None)
              Sample.unbound eq_refl eq_refl eq_refl) as [_ Hfree].
  split.
  - apply Hbound. discriminate.
  - cbn [Sample.floating fip_port_id] in Hfree. by rewrite Hfree.
Defined.

Lemma associate_then_lookup_witness :
  (get_instance_id_by_floating_address "172.24.4.1" Scene.associated).1
  = inr (Some "vm-1").
Proof.
  apply (associate_then_lookup Sample.instance "172.24.4.1" "10.0.0.5"
           Sample.unbound).
  - run_lhs. reflexivity.
  - apply (bool_decide_unpack _). by vm_compute.
  - intros n _. reflexivity.
Defined.

Lemma build_network_info_model_names_fit_witness :
  ∃ nw_info w' vifs,
    _build_network_info_model Sample.CONF Sample.imports Scene.known
      (Some [Sample.net_a]) Scene.attached = (inr nw_info, w')
    ∧ nw_info = info_cache_network_info Scene.known ++ vifs
    ∧ Forall (names_fit Sample.imports) vifs.
Proof.
  pose proof (λ w' nw_info,
                build_network_info_model_names_fit Sample.CONF
                  Sample.imports Scene.known (Some [Sample.net_a])
                  Scene.attached w' nw_info) as Hfit.
  edestruct Hfit as (vifs&Hsplit&_&Hnames).
  - run_lhs. reflexivity.
  - eexists _, _, vifs. split; [run_lhs; reflexivity|]. by split.
Defined.

Lemma deallocate_port_for_instance_forgets_witness :
  ∃ snapshot w',
    deallocate_port_for_instance Sample.CONF Sample.imports Scene.known
      "port-8" Sample.two_ports = (inr snapshot, w')
    ∧ port_id <$> ports (remote w') = ["port-9"]
    ∧ "port-8" ∉ vif_id <$> snapshot.
Proof.
  pose proof (λ w' snapshot,
                deallocate_port_for_instance_forgets Sample.CONF
                  Sample.imports Scene.known "port-8" Sample.two_ports
                  w' snapshot eq_refl) as Hforgets.
  edestruct Hforgets as [Hports Hsnapshot].
  - run_lhs. reflexivity.
  - eexists _, _. split; [run_lhs; reflexivity|].
    split; [by rewrite Hports|exact Hsnapshot].
Defined.

Lemma allocate_port_for_instance_by_port_witness :
  allocate_port_for_instance Sample.CONF Sample.imports Sample.instance
    (Some "port-9") (Some "net-a") None Sample.with_free_port
  = allocate_port_for_instance Sample.CONF Sample.imports Sample.instance
      (Some "port-9") None (Some "10.0.0.7") Sample.with_free_port.
Proof.
  apply allocate_port_for_instance_by_port. discriminate.
Defined.

Lemma has_port_binding_asks_service_witness :
  let run :=
    _has_port_binding_extension Sample.CONF Sample.imports true
      Scene.attached in
  run.1 = inr true
  ∧ last_quantum_extension_sync (self run.2) = Some 1000%Z
  ∧ (_has_port_binding_extension Sample.CONF Sample.imports true
       Sample.update_fails).1 = inr false.
Proof.
  intros run.
  pose proof (has_port_binding_asks_service Sample.CONF Sample.imports
                Scene.attached eq_refl) as Hfull.
  pose proof (has_port_binding_asks_service Sample.CONF Sample.imports
                Sample.update_fails eq_refl) as Hnone.
  cbn zeta in Hfull, Hnone.
  change (fault Scene.attached (length (trace Scene.attached)))
    with (@None nat) in Hfull.
  change (fault Sample.update_fails (length (trace Sample.update_fails)))
    with (@None nat) in Hnone.
  destruct Hfull as (Hrun&Hsync&_). destruct Hnone as (Hrun'&_).
  subst run. split; [rewrite Hrun; by vm_compute|]. split; [exact Hsync|].
  rewrite Hrun'. by vm_compute.
Defined.

Lemma validate_networks_accepts_witness :
  let w := Sample.with_free_port in
  NoDup (network_asked (remote w) <$> Sample.a_then_port)
  ∧ Forall (names_free_port (remote w)) Sample.a_then_port.
Proof.
  intros w.
  pose proof (λ w', validate_networks_accepts
                      {| ctx_project_id := "tenant" |} Sample.a_then_port
                      w w') as Haccepts.
  edestruct Haccepts as (_&Hdistinct&_&Hfree).
  - discriminate.
  - apply (bool_decide_unpack _). by vm_compute.
  - run_lhs. reflexivity.
  - by split.
Defined.



Lemma snapshot_follows_cached_order_witness :
  ∃ nw_info w',
    _build_network_info_model Sample.CONF Sample.imports Scene.known None
      Scene.attached = (inr nw_info, w')
    ∧ Forall (λ v, vif_network_id v ∈ cached_networks Scene.known) nw_info.
Proof.
  pose proof (λ w' nw_info,
                snapshot_follows_cached_order Sample.CONF Sample.imports
                  Scene.known Scene.attached w' nw_info) as Horder.
  edestruct Horder as (Hcached&_).
  - run_lhs. reflexivity.
  - eexists _, _. split; [run_lhs; reflexivity|exact Hcached].
Defined.

Lemma deallocation_leaves_no_interface_witness :
  (get_instance_nw_info Sample.CONF Sample.imports Scene.known None
     (deallocate_for_instance Scene.known Scene.attached).2).1
  = inr [].
Proof.
  destruct (get_instance_nw_info Sample.CONF Sample.imports Scene.known
              None (deallocate_for_instance Scene.known Scene.attached).2)
    as [[e|nw_info] w''] eqn:Hrun.
  - vm_compute in Hrun. discriminate Hrun.
  - cbn [fst]. f_equal.
    eapply (deallocation_leaves_no_interface Sample.CONF Sample.imports
              Scene.known Scene.attached).
    + reflexivity.
    + vm_compute. repeat constructor.
    + exact Hrun.
Defined.

Lemma snapshot_without_networks_unbound_name_witness :
  (_build_network_info_model Sample.CONF Sample.imports
     Scene.on_hidden_network None Scene.hidden).1
  = inl NameError.
Proof.
  apply (snapshot_without_networks_unbound_name Sample.CONF Sample.imports
           Scene.on_hidden_network Scene.hidden
           Scene.port_on_hidden_network).
  - intros n _. reflexivity.
  - vm_compute. reflexivity.
  - apply (bool_decide_unpack _). by vm_compute.
Defined.

Lemma get_subnets_from_port_dhcp_witness :
  ∃ subnets w',
    _get_subnets_from_port (Sample.bound_port "port-8" "10.0.0.5")
      Scene.attached = (inr subnets, w')
    ∧ Forall2 (λ subnet model,
                 sm_cidr model = sn_cidr subnet
                 ∧ sm_gateway model = sn_gateway_ip subnet
                 ∧ sm_dhcp_server model = Some "10.0.0.2")
              [Scene.subnet "subnet-a" "net-a" "10.0.0.0/24"] subnets.
Proof.
  pose proof (λ w' subnets,
                get_subnets_from_port_dhcp
                  (Sample.bound_port "port-8" "10.0.0.5") Scene.attached
                  w' subnets) as Hdhcp.
  edestruct Hdhcp as [_ Hmodels].
  - run_lhs. reflexivity.
  - eexists _, _. split; [run_lhs; reflexivity|].
    specialize (Hmodels ltac:(discriminate)).
    change (subnets_of_port _ _)
      with [Scene.subnet "subnet-a" "net-a" "10.0.0.0/24"] in Hmodels.
    apply Forall2_cons_1 in Hmodels as [(Hcidr&Hgateway&Hserver) _].
    constructor; [|constructor].
    split; [exact Hcidr|]. split; [exact Hgateway|].
    rewrite Hserver. by vm_compute.
Defined.

Lemma format_after_setup_port_dict_witness :
  let fip := Sample.floating "fip-1" "172.24.4.1" (Some "port-x") in
  ∃ port_dict w' model,
    _setup_port_dict (get_client false) (Some "port-x")
      Scene.bound_elsewhere = (inr port_dict, w')
    ∧ _format_floating_ip_model fip Scene.pools port_dict = inr model
    ∧ fm_pool model = "public".
Proof.
  intros fip.
  pose proof (λ port_dict w',
                format_after_setup_port_dict (get_client false) fip
                  Scene.public Scene.pools port_dict Scene.bound_elsewhere
                  w' eq_refl) as Hformat.
  edestruct Hformat as (model&Hmodel&Hpool&_).
  - run_lhs. reflexivity.
  - eexists _, _, model. split; [run_lhs; reflexivity|].
    split; [exact Hmodel|exact Hpool].
Defined.

Lemma format_with_project_ports_key_error_witness :
  let fip := Sample.floating "fip-1" "172.24.4.1" (Some "port-x") in
  ∃ port_dict w',
    _setup_ports_dict (get_client false) (Some "tenant")
      Scene.bound_elsewhere = (inr port_dict, w')
    ∧ _format_floating_ip_model fip Scene.pools port_dict
      = inl (KeyError "port-x").
Proof.
  intros fip. eexists _, _. split; [run_lhs; reflexivity|].
  eapply (format_with_project_ports_key_error (get_client false) "tenant"
            "port-x" fip Scene.public Scene.pools _ Scene.bound_elsewhere).
  - discriminate.
  - run_lhs. reflexivity.
  - reflexivity.
  - reflexivity.
  - discriminate.
  - refine (proj1 (Forall_forall
                     (λ p, port_id p = "port-x" → port_tenant_id p ≠ "tenant")
                     _) _).
    repeat constructor; intros Hid; discriminate.
Defined.

Lemma build_network_info_model_client_errors_only_witness :
  ∃ e,
    (_build_network_info_model Sample.CONF Sample.imports Sample.instance
       (Some [Sample.net_a]) Scene.down).1 = inl e
    ∧ client_error e.
Proof.
  eexists. split; [run_lhs; reflexivity|].
  apply (build_network_info_model_client_errors_only Sample.CONF
           Sample.imports Sample.instance [Sample.net_a] Scene.down).
  run_lhs. reflexivity.
Defined.
